(** * agilPro ml-service: allocation and assignment engine

    A shallow embedding of the planning code of [ml-service/app/ml]
    ([dependency_analyzer.py], [pi_optimizer.py], [task_assignment.py],
    [workload_balancer.py], [sprint_planner.py]) together with the
    properties of the engine that are checked against it.

    Conventions of the embedding:
    - Python [dict]s whose iteration order is observed are insertion-ordered
      association lists ([odict]); dicts that are only read and written by
      key are [gmap]s; Python [set]s of ids are [gset]s.
    - Python numbers are integers ([Z]) where the code counts, and exact
      rationals ([Q]) where the code computes with floats: rounding error of
      the IEEE doubles is not modelled.
    - [d.get(k, default)] on an input record is a field of type [option _]
      read with [default].
    - A Python exception is a value [Raise e] of [pyresult]; loops that the
      code runs until a queue is empty or recursion that follows the graph
      take a fuel argument and return [None] only when it is exhausted. *)

From Stdlib Require Import ZArith QArith Qround Lia Lqa Ascii String.
From stdpp Require Import base option list sorting gmap strings pretty relations.

Set Default Proof Using "Type".
Set Warnings "-clear-no-such-hyp".

(** ** Python values shared by the modules *)

Inductive exn : Type :=
| KeyError (key : string)
| ValueError (msg : string)
| ZeroDivisionError
| ValidationError (msg : string)
| AttributeError (attr : string).

Inductive pyresult (A : Type) : Type :=
| Ok (a : A)
| Raise (e : exn).
Arguments Ok {A} a.
Arguments Raise {A} e.

#[global] Instance pyresult_ret : MRet pyresult := fun A a => Ok a.
#[global] Instance pyresult_bind : MBind pyresult := fun A B k r =>
  match r with
  | Ok a => k a
  | Raise e => Raise e
  end.

(** Insertion-ordered dictionaries: a key keeps the position of its first
    insertion, a later assignment replaces the value in place. *)
Definition odict (V : Type) : Type := list (string * V).

Fixpoint od_get {V} (k : string) (d : odict V) : option V :=
  match d with
  | [] => None
  | (k', v) :: d' => if decide (k = k') then Some v else od_get k d'
  end.

Fixpoint od_set {V} (k : string) (v : V) (d : odict V) : odict V :=
  match d with
  | [] => [(k, v)]
  | (k', v') :: d' =>
      if decide (k = k') then (k', v) :: d' else (k', v') :: od_set k v d'
  end.

Definition od_keys {V} (d : odict V) : list string := map fst d.

(** [list.index]: position of the first occurrence. *)
Fixpoint index_of (x : string) (l : list string) : option nat :=
  match l with
  | [] => None
  | y :: l' => if decide (x = y) then Some 0%nat else S <$> index_of x l'
  end.


(** ** Python numbers and strings *)

Section python_numbers.
Local Open Scope Q_scope.

Definition Qlt_bool (a b : Q) : bool := negb (Qle_bool b a).

(** Built-in [max(a, b)] and [min(a, b)]: the first argument wins ties. *)
Definition py_max (a b : Q) : Q := if Qlt_bool a b then b else a.
Definition py_min (a b : Q) : Q := if Qlt_bool b a then b else a.

(** [x or y] on numbers: [0] is falsy. *)
Definition num_or (x y : Q) : Q := if Qeq_bool x 0 then y else x.

(** [abs(x)] *)
Definition py_abs (x : Q) : Q := if Qlt_bool x 0 then - x else x.

(** [sum(xs)], [np.mean(xs)] and [np.var(xs)] (population variance); on an
    empty list [np.mean] is not a number and is not modelled. *)
Definition py_sum (xs : list Q) : Q := fold_left Qplus xs 0.
Definition np_mean (xs : list Q) : Q :=
  py_sum xs / inject_Z (Z.of_nat (length xs)).
Definition np_var (xs : list Q) : Q :=
  let m := np_mean xs in
  np_mean (map (fun x => (x - m) * (x - m)) xs).

(** [round(x, ndigits)]: to the nearest multiple of [10^-ndigits], exact
    halves to the even neighbour. *)
Definition round_half_even (x : Q) : Z :=
  let f := Qfloor x in
  let r := x - inject_Z f in
  if Qlt_bool r (1 # 2) then f
  else if Qlt_bool (1 # 2) r then (f + 1)%Z
  else if Z.even f then f else (f + 1)%Z.
Definition py_round (x : Q) (ndigits : nat) : Q :=
  let scale := inject_Z (10 ^ Z.of_nat ndigits) in
  inject_Z (round_half_even (x * scale)) / scale.
End python_numbers.

(** [str.lower()], on the ASCII letters. *)
Definition lower_ascii (c : ascii) : ascii :=
  let n := nat_of_ascii c in
  if (65 <=? n)%nat && (n <=? 90)%nat then ascii_of_nat (n + 32) else c.

Fixpoint lower (s : string) : string :=
  match s with
  | EmptyString => EmptyString
  | String c s' => String (lower_ascii c) (lower s')
  end.

(** [needle in haystack] on strings. *)
Fixpoint str_contains (needle haystack : string) : bool :=
  String.prefix needle haystack ||
  match haystack with
  | EmptyString => false
  | String _ rest => str_contains needle rest
  end.

(** [x or y] on optional strings: [None] and the empty string are falsy. *)
Definition str_truthy (x : option string) : bool :=
  match x with
  | Some s => negb (String.eqb s "")
  | None => false
  end.
Definition str_or (x y : option string) : option string :=
  if str_truthy x then x else y.

(** [sorted(xs, key=key, reverse=True)]: descending and stable. *)
Section sorted_reverse.
Context {A K : Type} (key : A -> K) (ltb : K -> K -> bool).

Fixpoint insert_desc (x : A) (l : list A) : list A :=
  match l with
  | [] => [x]
  | y :: l' => if ltb (key x) (key y) then y :: insert_desc x l' else x :: l
  end.

Definition sorted_desc (l : list A) : list A := foldr insert_desc [] l.
End sorted_reverse.

(** ** dependency_analyzer.py *)

Module DependencyAnalyzer.
Local Open Scope Z_scope.

(** A task dict; [dependencies] is [task.get("dependencies", [])]. *)
Record task : Type := Task {
  task_id : string;
  dependencies : list string;
}.

(** The instance attributes set by [__init__]. *)
Record analyzer : Type := Analyzer {
  tasks : odict task;
  graph : odict (list string);
  in_degree : gmap string Z;
}.

(** [graph[dependency].append(task["id"])] on a [defaultdict(list)]. *)
Definition graph_append (dependency tid : string) (g : odict (list string))
  : odict (list string) :=
  od_set dependency (default [] (od_get dependency g) ++ [tid]) g.

Definition _build_graph (ts : list task) : odict (list string) :=
  fold_left
    (fun g t => fold_left (fun g d => graph_append d (task_id t) g) (dependencies t) g)
    ts [].

(** [in_degree[neighbor] += 1] / [-= 1] on a [defaultdict(int)]. *)
Definition deg_get (m : gmap string Z) (k : string) : Z := default 0 (m !! k).
Definition deg_add (k : string) (n : Z) (m : gmap string Z) : gmap string Z :=
  <[k := deg_get m k + n]> m.

Definition _calculate_in_degrees (g : odict (list string)) : gmap string Z :=
  fold_left
    (fun m '(node, neighbors) => fold_left (fun m nb => deg_add nb 1 m) neighbors m)
    g ∅.

(** [{task["id"]: task for task in tasks}] *)
Definition tasks_by_id (ts : list task) : odict task :=
  fold_left (fun d t => od_set (task_id t) t d) ts [].

Definition init (ts : list task) : analyzer :=
  let g := _build_graph ts in
  {| tasks := tasks_by_id ts;
     graph := g;
     in_degree := _calculate_in_degrees g |}.

(** [self.graph.get(node, [])] *)
Definition neighbors (g : odict (list string)) (node : string) : list string :=
  default [] (od_get node g).

(** *** detect_cycles *)

Record dfs_state : Type := DfsState {
  visited : gset string;
  rec_stack : gset string;
}.

(** The [for neighbor in ...] loop of [dfs], with the recursive call
    abstracted; [true] is an early [return True]. *)
Fixpoint dfs_loop (call : string -> dfs_state -> option (bool * dfs_state))
    (nbs : list string) (st : dfs_state) : option (bool * dfs_state) :=
  match nbs with
  | [] => Some (false, st)
  | nb :: nbs' =>
      if decide (nb ∉ visited st) then
        match call nb st with
        | None => None
        | Some (true, st') => Some (true, st')
        | Some (false, st') => dfs_loop call nbs' st'
        end
      else if decide (nb ∈ rec_stack st) then Some (true, st)
      else dfs_loop call nbs' st
  end.

Fixpoint dfs (fuel : nat) (g : odict (list string)) (node : string)
    (st : dfs_state) : option (bool * dfs_state) :=
  match fuel with
  | O => None
  | S fuel' =>
      let st1 := {| visited := {[node]} ∪ visited st;
                    rec_stack := {[node]} ∪ rec_stack st |} in
      match dfs_loop (dfs fuel' g) (neighbors g node) st1 with
      | None => None
      | Some (true, st') => Some (true, st')
      | Some (false, st') =>
          Some (false, {| visited := visited st';
                          rec_stack := rec_stack st' ∖ {[node]} |})
      end
  end.

(** The outer [for node in self.graph] loop. *)
Fixpoint detect_loop (fuel : nat) (g : odict (list string))
    (nodes : list string) (st : dfs_state) : option bool :=
  match nodes with
  | [] => Some false
  | node :: nodes' =>
      if decide (node ∉ visited st) then
        match dfs fuel g node st with
        | None => None
        | Some (true, _) => Some true
        | Some (false, st') => detect_loop fuel g nodes' st'
        end
      else detect_loop fuel g nodes' st
  end.

(** Every id that occurs in the graph, as a key or as a neighbor. *)
Definition graph_nodes (g : odict (list string)) : list string :=
  flat_map (fun '(k, nbs) => k :: nbs) g.

(** The recursion of [dfs] is at most as deep as there are ids in the
    graph. *)
Definition detect_cycles (self : analyzer) : option bool :=
  detect_loop (length (graph_nodes (graph self))) (graph self)
    (od_keys (graph self))
    {| visited := ∅; rec_stack := ∅ |}.

(** *** topological_sort *)

Record kahn_state : Type := KahnState {
  k_in_degree : gmap string Z;
  k_queue : list string;
  k_order : list string;
}.

(** [in_degree[neighbor] -= 1; if in_degree[neighbor] == 0: queue.append] *)
Definition relax (st : gmap string Z * list string) (nb : string)
  : gmap string Z * list string :=
  let m := deg_add nb (-1) (fst st) in
  (m, if decide (deg_get m nb = 0) then snd st ++ [nb] else snd st).

Fixpoint kahn_loop (fuel : nat) (g : odict (list string)) (st : kahn_state)
  : option (list string) :=
  match k_queue st with
  | [] => Some (k_order st)
  | current :: queue' =>
      match fuel with
      | O => None
      | S fuel' =>
          let '(m, q) :=
            fold_left relax (neighbors g current) (k_in_degree st, queue') in
          kahn_loop fuel' g
            {| k_in_degree := m; k_queue := q;
               k_order := k_order st ++ [current] |}
      end
  end.

Definition initial_queue (self : analyzer) (m : gmap string Z) : list string :=
  filter (fun node => deg_get m node = 0) (od_keys (tasks self)).

(** The loop pops one id per round and an id enters the queue at most
    once, so as many rounds as there are in-degree entries and tasks
    always empty the queue. *)
Definition topological_sort (self : analyzer)
  : option (pyresult (list string)) :=
  let in_degree := in_degree self in
  match kahn_loop (length (od_keys (tasks self)) + size (in_degree)) (graph self)
          {| k_in_degree := in_degree;
             k_queue := initial_queue self in_degree;
             k_order := [] |} with
  | None => None
  | Some topo_order =>
      if decide (length topo_order ≠ length (tasks self))
      then Some (Raise (ValueError "Cycle detected in dependencies"))
      else Some (Ok topo_order)
  end.

(** *** parallel_execution *)

(** Reading [level[k]] on the [defaultdict(int)] inserts [k] with 0 when
    it is missing. *)
Definition level_touch (k : string) (level : odict Z) : odict Z :=
  match od_get k level with
  | Some _ => level
  | None => od_set k 0 level
  end.

Record par_state : Type := ParState {
  p_level : odict Z;
  p_in_degree : gmap string Z;
  p_queue : list string;
}.

(** One round of the inner [for neighbor in ...] loop; the right-hand side
    [max(level[neighbor], level[node] + 1)] reads [neighbor] before
    [node]. *)
Definition par_relax (node : string) (st : par_state) (nb : string)
  : par_state :=
  let level1 := level_touch node (level_touch nb (p_level st)) in
  let lvl := Z.max (default 0 (od_get nb level1))
                   (default 0 (od_get node level1) + 1) in
  let m := deg_add nb (-1) (p_in_degree st) in
  {| p_level := od_set nb lvl level1;
     p_in_degree := m;
     p_queue := if decide (deg_get m nb = 0)
                then p_queue st ++ [nb] else p_queue st |}.

Fixpoint par_loop (fuel : nat) (g : odict (list string)) (st : par_state)
  : option par_state :=
  match p_queue st with
  | [] => Some st
  | node :: queue' =>
      match fuel with
      | O => None
      | S fuel' =>
          par_loop fuel' g
            (fold_left (par_relax node) (neighbors g node)
               {| p_level := p_level st;
                  p_in_degree := p_in_degree st;
                  p_queue := queue' |})
      end
  end.

(** [parallel_levels[lvl].append(node)] on a [defaultdict(list)] *)
Definition levels_append (pl : gmap Z (list string)) (entry : string * Z)
  : gmap Z (list string) :=
  <[entry.2 := default [] (pl !! entry.2) ++ [entry.1]]> pl.

(** [[nodes for _, nodes in sorted(parallel_levels.items())]]; the keys of
    a dict are distinct, so the order is that of the levels. *)
Definition level_le (a b : Z * list string) : Prop := a.1 ≤ b.1.
#[global] Instance level_le_dec : RelDecision level_le :=
  fun a b => decide (a.1 ≤ b.1).

Definition sorted_levels (pl : gmap Z (list string)) : list (list string) :=
  map snd (merge_sort level_le (map_to_list pl)).

(** [parallel_execution] decrements [self.in_degree] itself, not a copy:
    the analyzer is returned with the in-degrees the loop leaves. *)
Definition parallel_execution (self : analyzer)
  : option (list (list string) * analyzer) :=
  match par_loop (length (od_keys (tasks self)) + size (in_degree self))
          (graph self)
          {| p_level := [];
             p_in_degree := in_degree self;
             p_queue := initial_queue self (in_degree self) |} with
  | None => None
  | Some st =>
      Some (sorted_levels (fold_left levels_append (p_level st) ∅),
            {| tasks := tasks self; graph := graph self;
               in_degree := p_in_degree st |})
  end.

(** *** impact_analysis *)

(** The [for neighbor in ...] loop of the inner [dfs], with the recursive
    call abstracted; [affected] is the set the closure fills. *)
Fixpoint impact_loop (call : string -> gset string -> option (gset string))
    (nbs : list string) (affected : gset string) : option (gset string) :=
  match nbs with
  | [] => Some affected
  | nb :: nbs' =>
      if decide (nb ∉ affected) then
        match call nb ({[nb]} ∪ affected) with
        | None => None
        | Some affected' => impact_loop call nbs' affected'
        end
      else impact_loop call nbs' affected
  end.

Fixpoint impact_dfs (fuel : nat) (g : odict (list string)) (current : string)
    (affected : gset string) : option (gset string) :=
  match fuel with
  | O => None
  | S fuel' =>
      impact_loop (impact_dfs fuel' g) (neighbors g current) affected
  end.

(** [impact_analysis] returns [list(affected)]: the order of the list is
    that of a Python set and is not fixed, so the set itself is returned.
    Every nested call of [dfs] has added one more id of the graph to
    [affected]. *)
Definition impact_analysis (self : analyzer) (task_id : string)
  : option (gset string) :=
  impact_dfs (S (length (graph_nodes (graph self)))) (graph self) task_id ∅.

(** *** critical_path *)

(** The operations above read the ids and the dependencies of the task
    dicts only; [critical_path] also reads their durations.  [duration id]
    is [self.tasks[id].get("duration", 1)], the duration of the task dict
    stored under [id]. *)
Section critical_path.
Variable duration : string -> Q.
Local Open Scope Q_scope.

(** A distance is a number or [float("-inf")], which is [None]. *)
Definition dist_lt (a b : option Q) : bool :=
  match a, b with
  | None, Some _ => true
  | Some x, Some y => Qlt_bool x y
  | _, None => false
  end.

Definition dist_add (a : option Q) (d : Q) : option Q :=
  match a with
  | None => None
  | Some x => Some (x + d)
  end.

Record cp_state : Type := CpState {
  distances : odict (option Q);
  predecessors : gmap string (option string);
}.

(** The inner loop [for neighbor in self.graph.get(node, [])]. *)
Fixpoint cp_neighbors (self : analyzer) (node : string)
    (nbs : list string) (st : cp_state) : pyresult cp_state :=
  match nbs with
  | [] => Ok st
  | neighbor :: nbs' =>
      match od_get neighbor (tasks self) with
      | None => Raise (KeyError neighbor)
      | Some _ =>
          match od_get neighbor (distances st) with
          | None => Raise (KeyError neighbor)
          | Some d_neighbor =>
              match od_get node (distances st) with
              | None => Raise (KeyError node)
              | Some d_node =>
                  let candidate := dist_add d_node (duration neighbor) in
                  if dist_lt d_neighbor candidate then
                    cp_neighbors self node nbs'
                      {| distances :=
                           od_set neighbor candidate (distances st);
                         predecessors :=
                           <[neighbor := Some node]> (predecessors st) |}
                  else cp_neighbors self node nbs' st
              end
          end
      end
  end.

(** The loop [for node in topo_order]. *)
Fixpoint cp_loop (self : analyzer) (topo_order : list string)
    (st : cp_state) : pyresult cp_state :=
  match topo_order with
  | [] => Ok st
  | node :: rest =>
      match od_get node (distances st) with
      | None => Raise (KeyError node)
      | Some d_node =>
          st1 ←
            match d_node with
            | Some _ => Ok st
            | None =>
                match od_get node (tasks self) with
                | None => Raise (KeyError node)
                | Some _ =>
                    Ok {| distances :=
                            od_set node (Some (duration node)) (distances st);
                          predecessors := predecessors st |}
                end
            end;
          st2 ← cp_neighbors self node (neighbors (graph self) node) st1;
          cp_loop self rest st2
      end
  end.

(** [max(distances, key=distances.get)]: the first key whose distance is
    the greatest; [best] is the greatest so far. *)
Fixpoint max_distance (d : odict (option Q))
    (best : option (string * option Q)) : option string :=
  match d with
  | [] => fst <$> best
  | (k, v) :: d' =>
      match best with
      | None => max_distance d' (Some (k, v))
      | Some (_, v_best) =>
          if dist_lt v_best v then max_distance d' (Some (k, v))
          else max_distance d' best
      end
  end.

(** The loop [while end_node]: it stops at [None] and at the empty
    string. *)
Fixpoint cp_path (fuel : nat) (preds : gmap string (option string))
    (end_node : option string) (path : list string)
  : option (pyresult (list string)) :=
  match end_node with
  | None => Some (Ok path)
  | Some node =>
      if String.eqb node "" then Some (Ok path)
      else
        match fuel with
        | O => None
        | S fuel' =>
            match preds !! node with
            | None => Some (Raise (KeyError node))
            | Some p => cp_path fuel' preds p (path ++ [node])
            end
        end
  end.

(** [critical_path]; [max] of an empty dict raises [ValueError] (the text
    of its message depends on the Python version).  A chain of
    predecessors has no id twice when the order is topological, so as
    many rounds of the last loop as there are tasks, and one more, reach
    its end. *)
Definition critical_path (self : analyzer)
  : option (pyresult (list string)) :=
  let keys := od_keys (tasks self) in
  let st0 :=
    {| distances := map (fun k => (k, None)) keys;
       predecessors := list_to_map (map (fun k => (k, None)) keys) |} in
  match topological_sort self with
  | None => None
  | Some (Raise e) => Some (Raise e)
  | Some (Ok topo_order) =>
      match cp_loop self topo_order st0 with
      | Raise e => Some (Raise e)
      | Ok st =>
          match max_distance (distances st) None with
          | None => Some (Raise (ValueError "max() arg is an empty sequence"))
          | Some end_node =>
              match cp_path (S (length keys)) (predecessors st)
                      (Some end_node) [] with
              | None => None
              | Some (Raise e) => Some (Raise e)
              | Some (Ok path) => Some (Ok (rev path))
              end
          end
      end
  end.

(** *** analyze *)

Inductive analysis : Type :=
| AnalysisError (error : string)
| Analysis (topological_order critical : list string)
    (parallel : list (list string)) (impact : gset string).

(** What [analyze] can raise: an exception of the engine, or the
    [StopIteration] of [next(iter(self.tasks))]. *)
Inductive raised : Type :=
| Raised (e : exn)
| StopIteration.

(** [analyze] returns its result or what it raises, and the analyzer as
    it leaves it: [parallel_execution] changes the stored in-degrees. *)
Definition analyze (self : analyzer)
  : option ((analysis + raised) * analyzer) :=
  cycles ← detect_cycles self;
  if (cycles : bool) then
    Some (inl (AnalysisError
                 "Cycle detected; please resolve before scheduling"), self)
  else
    order ← topological_sort self;
    match order with
    | Raise e => Some (inr (Raised e), self)
    | Ok topological_order =>
        path ← critical_path self;
        match path with
        | Raise e => Some (inr (Raised e), self)
        | Ok critical =>
            '(parallel, self') ← parallel_execution self;
            match od_keys (tasks self') with
            | [] => Some (inr StopIteration, self')
            | first :: _ =>
                impact ← impact_analysis self' first;
                Some (inl (Analysis topological_order critical parallel
                             impact), self')
            end
        end
    end.
End critical_path.

End DependencyAnalyzer.

(** ** pi_optimizer.py *)

Module PIOptimizer.
Local Open Scope Q_scope.

(** A feature dict that has its ["id"], a string; an optional key that is
    missing is [None].  The dicts as [optimize] receives them, in which
    ["id"] may be missing and ["priority"] may hold [None], are the
    [feature_dict] and [sprint_dict] further down. *)
Record feature : Type := Feature {
  feature_id : string;
  feature_title : option string;
  feature_points : option Q;
  feature_estimatedStoryPoints : option Q;
  feature_priority : option string;
  feature_businessValue : option Q;
}.

Record sprint : Type := Sprint {
  sprint_id : string;
  sprint_name : option string;
  sprint_capacity : option Q;
}.

(** A dependency dict, with its camel-case and snake-case keys. *)
Record dependency : Type := Dependency {
  fromFeature : option string;
  from_feature : option string;
  toFeature : option string;
  to_feature : option string;
}.

Record assignment : Type := Assignment {
  featureId : string;
  featureTitle : string;
  sprintId : string;
  sprintName : string;
  points : Q;
  priority : string;
}.

(** [feature.get("points", 0) or feature.get("estimatedStoryPoints", 0) or 0] *)
Definition points_of (f : feature) : Q :=
  num_or (default 0 (feature_points f))
    (num_or (default 0 (feature_estimatedStoryPoints f)) 0).

(** [sprint.get("capacity", 0) or 0] *)
Definition capacity_of (s : sprint) : Q :=
  num_or (default 0 (sprint_capacity s)) 0.

(** [graph[from_id].append(to_id)] for the edges whose source is a
    feature: [graph[f]] lists what [f] depends on. *)
Definition add_dependency (graph : gmap string (list string))
    (dep : dependency) : gmap string (list string) :=
  let from_id := str_or (fromFeature dep) (from_feature dep) in
  let to_id := str_or (toFeature dep) (to_feature dep) in
  if str_truthy from_id && str_truthy to_id then
    match from_id, to_id with
    | Some f, Some t =>
        match graph !! f with
        | Some tos => <[f := tos ++ [t]]> graph
        | None => graph
        end
    | _, _ => graph
    end
  else graph.

Definition _build_dependency_graph (features : list feature)
    (dependencies : list dependency) : gmap string (list string) :=
  fold_left add_dependency dependencies
    (fold_left (fun g f => <[feature_id f := []]> g) features ∅).

Definition priority_weight (priority : string) : Q :=
  if String.eqb priority "critical" then 10
  else if String.eqb priority "high" then 7
  else if String.eqb priority "medium" then 4
  else if String.eqb priority "low" then 1
  else 4.

(** The score of one feature; the division raises when [points] is -1. *)
Definition priority_score (f : feature) : pyresult Q :=
  let priority := lower (default "medium"%string (feature_priority f)) in
  let points := points_of f in
  let business_value := num_or (default 5 (feature_businessValue f)) 5 in
  if Qeq_bool (points + 1) 0 then Raise ZeroDivisionError
  else Ok (priority_weight priority * business_value / (points + 1)).

Fixpoint _calculate_priority_scores_from (scores : gmap string Q)
    (features : list feature) : pyresult (gmap string Q) :=
  match features with
  | [] => Ok scores
  | f :: features' =>
      score ← priority_score f;
      _calculate_priority_scores_from (<[feature_id f := score]> scores)
        features'
  end.

Definition _calculate_priority_scores (features : list feature)
  : pyresult (gmap string Q) :=
  _calculate_priority_scores_from ∅ features.

(** *** _sort_features_by_priority *)

Record visit_state : Type := VisitState {
  sorted_list : list feature;
  visited : gset string;
  temp_visited : gset string;
}.

(** [next((f for f in features if str(f.get("id", "")) == feature_id), None)] *)
Definition find_feature (features : list feature) (fid : string)
  : option feature :=
  List.find (fun f => String.eqb (feature_id f) fid) features.

(** The [for dep_id in ...: visit(dep_id)] loop. *)
Fixpoint visit_all (call : string -> visit_state -> option visit_state)
    (deps : list string) (st : visit_state) : option visit_state :=
  match deps with
  | [] => Some st
  | dep_id :: deps' =>
      match call dep_id st with
      | None => None
      | Some st' => visit_all call deps' st'
      end
  end.

Fixpoint visit (fuel : nat) (features : list feature)
    (dependency_graph : gmap string (list string)) (fid : string)
    (st : visit_state) : option visit_state :=
  match fuel with
  | O => None
  | S fuel' =>
      if decide (fid ∈ temp_visited st) then Some st
      else if decide (fid ∈ visited st) then Some st
      else
        let st1 := {| sorted_list := sorted_list st;
                      visited := visited st;
                      temp_visited := {[fid]} ∪ temp_visited st |} in
        match visit_all (visit fuel' features dependency_graph)
                (default [] (dependency_graph !! fid)) st1 with
        | None => None
        | Some st2 =>
            Some {| sorted_list :=
                      match find_feature features fid with
                      | Some f => sorted_list st2 ++ [f]
                      | None => sorted_list st2
                      end;
                    visited := {[fid]} ∪ visited st2;
                    temp_visited := temp_visited st2 ∖ {[fid]} |}
        end
  end.

(** The outer loop, over the ids in priority order. *)
Fixpoint visit_in_order (fuel : nat) (features : list feature)
    (dependency_graph : gmap string (list string)) (ids : list string)
    (st : visit_state) : option visit_state :=
  match ids with
  | [] => Some st
  | fid :: ids' =>
      if decide (fid ∉ visited st) then
        match visit fuel features dependency_graph fid st with
        | None => None
        | Some st' => visit_in_order fuel features dependency_graph ids' st'
        end
      else visit_in_order fuel features dependency_graph ids' st
  end.

(** A chain of nested [visit] calls goes through distinct keys of the
    graph and may end on one more id, so its depth is at most the number
    of features plus one. *)
Definition _sort_features_by_priority (features : list feature)
    (priority_scores : gmap string Q)
    (dependency_graph : gmap string (list string))
  : option (list feature) :=
  let feature_ids :=
    sorted_desc (fun x => default 0 (priority_scores !! x)) Qlt_bool
      (map feature_id features) in
  sorted_list <$>
    visit_in_order (S (length features)) features dependency_graph
      feature_ids
      {| sorted_list := []; visited := ∅; temp_visited := ∅ |}.

(** *** _allocate_features_to_sprints *)

Record alloc_state : Type := AllocState {
  assignments : list assignment;
  sprint_allocated : gmap string Q;
  feature_to_sprint : gmap string string;
}.

Definition sprint_capacities (sprints : list sprint) : gmap string Q :=
  fold_left (fun m s => <[sprint_id s := capacity_of s]> m) sprints ∅.

(** [[feature_to_sprint.get(d) for d in dependencies if d in feature_to_sprint]] *)
Definition dependency_sprints (fts : gmap string string)
    (dependencies : list string) : list string :=
  omap (fun d => fts !! d) dependencies.

(** [allocated + points <= capacity] for one sprint. *)
Definition has_capacity (caps allocated : gmap string Q) (pts : Q)
    (s : sprint) : bool :=
  Qle_bool (default 0 (allocated !! sprint_id s) + pts)
           (default 0 (caps !! sprint_id s)).

(** The scan [for sprint in sprints]; [best] is [best_sprint] so far and
    the first sprint that has room and holds a dependency ends the scan. *)
Fixpoint scan_sprints (caps allocated : gmap string Q) (pts : Q)
    (dep_sprints : list string) (sprints : list sprint)
    (best : option sprint) : option sprint :=
  match sprints with
  | [] => best
  | s :: sprints' =>
      if has_capacity caps allocated pts s then
        if decide (sprint_id s ∈ dep_sprints) then Some s
        else
          scan_sprints caps allocated pts dep_sprints sprints'
            (match best with None => Some s | Some _ => best end)
      else scan_sprints caps allocated pts dep_sprints sprints' best
  end.

(** The scan followed by the fallback to [sprints[0]]. *)
Definition choose_sprint (sprints : list sprint)
    (dependency_graph : gmap string (list string)) (st : alloc_state)
    (f : feature) : option sprint :=
  let dependencies := default [] (dependency_graph !! feature_id f) in
  let dep_sprints := dependency_sprints (feature_to_sprint st) dependencies in
  match scan_sprints (sprint_capacities sprints) (sprint_allocated st)
          (points_of f) dep_sprints sprints None with
  | Some s => Some s
  | None => head sprints
  end.

Definition make_assignment (f : feature) (s : sprint) : assignment :=
  {| featureId := feature_id f;
     featureTitle := default ""%string (feature_title f);
     sprintId := sprint_id s;
     sprintName := default ""%string (sprint_name s);
     points := points_of f;
     priority := default "medium"%string (feature_priority f) |}.

Definition allocate_step (sprints : list sprint)
    (dependency_graph : gmap string (list string)) (st : alloc_state)
    (f : feature) : alloc_state :=
  match choose_sprint sprints dependency_graph st f with
  | Some s =>
      {| assignments := assignments st ++ [make_assignment f s];
         sprint_allocated :=
           <[sprint_id s :=
               default 0 (sprint_allocated st !! sprint_id s) + points_of f]>
             (sprint_allocated st);
         feature_to_sprint :=
           <[feature_id f := sprint_id s]> (feature_to_sprint st) |}
  | None => st
  end.

Definition initial_alloc (sprints : list sprint) : alloc_state :=
  {| assignments := [];
     sprint_allocated :=
       fold_left (fun m s => <[sprint_id s := 0]> m) sprints ∅;
     feature_to_sprint := ∅ |}.

Definition _allocate_features_to_sprints (sorted_features : list feature)
    (sprints : list sprint) (dependency_graph : gmap string (list string))
  : list assignment :=
  assignments
    (fold_left (allocate_step sprints dependency_graph) sorted_features
       (initial_alloc sprints)).

(** *** _check_overloads *)

Inductive severity : Type := High | Medium.

Record warning : Type := Warning {
  w_sprintId : string;
  w_sprintName : string;
  w_allocated : Q;
  w_capacity : Q;
  w_overload : Q;
  w_severity : severity;
}.

Definition _check_overloads (assigned : list assignment)
    (sprints : list sprint) : list warning :=
  let caps := sprint_capacities sprints in
  let allocated : odict Q :=
    fold_left
      (fun d a => od_set (sprintId a)
                    (default 0 (od_get (sprintId a) d) + points a) d)
      assigned [] in
  omap
    (fun '(sid, alloc) =>
       let capacity := default 0 (caps !! sid) in
       if Qlt_bool capacity alloc then
         Some {| w_sprintId := sid;
                 w_sprintName :=
                   match List.find
                           (fun s => String.eqb (sprint_id s) sid)
                           sprints with
                   | Some s => default ""%string (sprint_name s)
                   | None => sid
                   end;
                 w_allocated := alloc;
                 w_capacity := capacity;
                 w_overload := alloc - capacity;
                 w_severity :=
                   if Qlt_bool (capacity * 0.2) (alloc - capacity)
                   then High else Medium |}
       else None)
    allocated.

(** *** optimize *)

Record plan : Type := Plan {
  plan_assignments : list assignment;
  plan_warnings : list warning;
  plan_confidence : Q;
}.

(** [optimize]; the ["metrics"] entry of the result repeats figures of the
    assignments and is left out. *)
Definition optimize (features : list feature) (sprints : list sprint)
    (dependencies : list dependency) : option (pyresult plan) :=
  let dependency_graph := _build_dependency_graph features dependencies in
  match _calculate_priority_scores features with
  | Raise e => Some (Raise e)
  | Ok priority_scores =>
      sorted_features ←
        _sort_features_by_priority features priority_scores dependency_graph;
      let assigned :=
        _allocate_features_to_sprints sorted_features sprints
          dependency_graph in
      Some (Ok {| plan_assignments := assigned;
                  plan_warnings := _check_overloads assigned sprints;
                  plan_confidence := 0.85 |})
  end.

(** *** The dicts that [optimize] receives *)

(** The value under a key of a dict: the key is missing, or it holds
    [None], or a value. *)
Inductive entry (A : Type) : Type :=
| Missing
| Null
| Value (a : A).
Arguments Missing {A}.
Arguments Null {A}.
Arguments Value {A} a.

(** A feature as the caller hands it over: ["id"] is a string when the key
    is there, ["priority"] may be missing or hold [None]; a number that is
    missing or [None] is [None]. *)
Record feature_dict : Type := FeatureDict {
  fd_id : option string;
  fd_title : option string;
  fd_points : option Q;
  fd_estimatedStoryPoints : option Q;
  fd_priority : entry string;
  fd_businessValue : option Q;
}.

Record sprint_dict : Type := SprintDict {
  sd_id : option string;
  sd_name : option string;
  sd_capacity : option Q;
}.

(** The feature as the [.get] calls read it: [str(feature.get("id", ""))],
    [feature.get("priority", "medium")]. *)
Definition feature_of (d : feature_dict) : feature :=
  {| feature_id := default ""%string (fd_id d);
     feature_title := fd_title d;
     feature_points := fd_points d;
     feature_estimatedStoryPoints := fd_estimatedStoryPoints d;
     feature_priority :=
       match fd_priority d with Value p => Some p | _ => None end;
     feature_businessValue := fd_businessValue d |}.

(** [str(sprint.get("id", ""))] and the other keys of a sprint. *)
Definition sprint_of (d : sprint_dict) : sprint :=
  {| sprint_id := default ""%string (sd_id d);
     sprint_name := sd_name d;
     sprint_capacity := sd_capacity d |}.

(** [feature["id"]] and [sprint["id"]], in the dict comprehensions of
    [_build_dependency_graph] and [_allocate_features_to_sprints]: the
    first dict without the key raises. *)
Fixpoint subscript_ids {A : Type} (get_id : A → option string) (ds : list A)
  : pyresult (list string) :=
  match ds with
  | [] => Ok []
  | d :: ds' =>
      match get_id d with
      | None => Raise (KeyError "id")
      | Some i => ids ← subscript_ids get_id ds'; Ok (i :: ids)
      end
  end.

(** The loop of [_calculate_priority_scores] on the dicts:
    [feature.get("priority", "medium").lower()] raises when the priority
    is [None], before the division of the same feature. *)
Fixpoint _calculate_priority_scores_dicts (scores : gmap string Q)
    (features : list feature_dict) : pyresult (gmap string Q) :=
  match features with
  | [] => Ok scores
  | d :: features' =>
      match fd_priority d with
      | Null => Raise (AttributeError "lower")
      | _ =>
          score ← priority_score (feature_of d);
          _calculate_priority_scores_dicts
            (<[feature_id (feature_of d) := score]> scores) features'
      end
  end.

(** [optimize] on dicts.  The exceptions come in the order of the source:
    [feature["id"]] when the graph is built, then the scores, then
    [sprint["id"]] at the start of the allocation (the sort between them
    raises nothing); when none is raised the run is that of [optimize] on
    the features and sprints as the [.get] calls read them.  The recursion
    limit of the interpreter is not modelled. *)
Definition optimize_dicts (features : list feature_dict)
    (sprints : list sprint_dict) (dependencies : list dependency)
  : option (pyresult plan) :=
  match subscript_ids fd_id features with
  | Raise e => Some (Raise e)
  | Ok _ =>
      match _calculate_priority_scores_dicts ∅ features with
      | Raise e => Some (Raise e)
      | Ok _ =>
          match subscript_ids sd_id sprints with
          | Raise e => Some (Raise e)
          | Ok _ =>
              optimize (map feature_of features) (map sprint_of sprints)
                dependencies
          end
      end
  end.

(** *** _calculate_metrics *)

(** An entry of ["sprintUtilization"]. *)
Record sprint_metrics : Type := SprintMetrics {
  sm_allocated : Q;
  sm_capacity : Q;
  sm_utilization : Q;
}.

Record metrics : Type := Metrics {
  totalPoints : Q;
  totalCapacity : Q;
  overallUtilization : Q;
  sprintUtilization : odict sprint_metrics;
}.

(** The ["metrics"] entry of the result of [optimize], computed from the
    assignments, the sprints and the features. *)
Definition _calculate_metrics (assigned : list assignment)
    (sprints : list sprint) (features : list feature) : metrics :=
  let total_points := py_sum (map points_of features) in
  let total_capacity := py_sum (map capacity_of sprints) in
  let sprint_utilization :=
    fold_left
      (fun d s =>
         let sid := sprint_id s in
         let sprint_assignments :=
           List.filter (fun a => String.eqb (sprintId a) sid) assigned in
         let allocated := py_sum (map points sprint_assignments) in
         let capacity := capacity_of s in
         let utilization :=
           if Qlt_bool 0 capacity then allocated / capacity * 100 else 0 in
         od_set sid
           {| sm_allocated := allocated;
              sm_capacity := capacity;
              sm_utilization := py_round utilization 1 |} d)
      sprints [] in
  let overall_utilization :=
    if Qlt_bool 0 total_capacity
    then total_points / total_capacity * 100 else 0 in
  {| totalPoints := total_points;
     totalCapacity := total_capacity;
     overallUtilization := py_round overall_utilization 1;
     sprintUtilization := sprint_utilization |}.

End PIOptimizer.

(** ** task_assignment.py *)

Module TaskAssignment.
Local Open Scope Q_scope.

(** A task dict as the scorer and the balancer read it. *)
Record task : Type := Task {
  task_id : option string;
  description : option string;
  required_skills : list string;
  complexity : option string;
  estimated_story_points : option Q;
  task_priority : option string;
}.

(** A developer (team member) dict. *)
Record developer : Type := Developer {
  user_id : option string;
  _id : option string;
  name : option string;
  skills : list string;
  capacity : option Q;
  availability : option Q;
  current_workload : option Q;
  velocity : option Q;
  completion_rate : option Q;
  time_accuracy : option Q;
  collaboration_index : option Q;
  on_time_delivery : option Q;
  quality_score : option Q;
  time_tracking_consistency : option Q;
  time_logging_variance : option Q;
  complexity_handled : option string;
}.

(** The trained classifier with its scaler and SVD, when all three are
    loaded: the success probability it predicts for a feature vector.  The
    classifier itself is outside the engine. *)
Definition trained_model : Type := option (list Q -> Q).

Record recommendation : Type := Recommendation {
  user : string;
  confidence : Q;
  workload_impact : Q;
  meta_workload_percentage : Q;
  meta_skill_match_score : Q;
  meta_performance_score : Q;
  meta_workload_score : Q;
}.

Definition lowered (xs : list string) : gset string :=
  list_to_set (map lower xs).

Definition calculate_skill_match (required_skills developer_skills : list string)
  : Q :=
  match required_skills with
  | [] => 0.5
  | _ =>
      let required := lowered required_skills in
      let developer := lowered developer_skills in
      if decide (developer = ∅) then 0.2
      else
        let intersection := size (required ∩ developer) in
        let union := size (required ∪ developer) in
        if decide (union = 0%nat) then 0.2
        else
          let match_score :=
            inject_Z (Z.of_nat intersection) / inject_Z (Z.of_nat union) in
          py_max 0.2 match_score
  end.

(** Returns [(score, utilization, availability)]. *)
Definition calculate_workload_score (d : developer) : Q * Q * Q :=
  let capacity :=
    num_or (default 0 (capacity d)) (num_or (default 0 (availability d)) 40) in
  let workload := num_or (default 0 (current_workload d)) 0 in
  let capacity := if Qle_bool capacity 0 then 40 else capacity in
  let utilization := workload / capacity in
  let score := 1.0 - utilization in
  let score :=
    if Qle_bool 0.9 utilization then score * 0.2
    else if Qle_bool utilization 0.5 then score * 1.2
    else if Qle_bool utilization 0.3 then score * 1.3
    else score in
  let score := py_max 0.0 (py_min 1.0 score) in
  let availability := py_max (capacity - workload) 0 in
  (score, utilization, availability).

Definition calculate_performance_score (d : developer) : Q :=
  np_mean [ default 0.5 (completion_rate d);
            default 0.5 (on_time_delivery d);
            default 0.5 (quality_score d) ].

Definition calculate_time_pattern_score (d : developer) : Q :=
  let consistency := default 0.5 (time_tracking_consistency d) in
  let variance := default 0.3 (time_logging_variance d) in
  py_max 0.0 (py_min 1.0 (consistency - 0.2 * variance)).

Definition complexity_map (c : string) : Q :=
  if String.eqb c "low" then 0.3
  else if String.eqb c "medium" then 0.6
  else if String.eqb c "high" then 0.9
  else 0.6.

Definition _calculate_complexity_alignment (task_complexity : string)
    (d : developer) : Q :=
  let dev_score :=
    complexity_map (default "medium"%string (complexity_handled d)) in
  let task_score := complexity_map task_complexity in
  1.0 - py_abs (dev_score - task_score).

Definition _complexity_to_numeric (value : string) : Q :=
  if String.eqb value "low" then 0.2
  else if String.eqb value "medium" then 0.5
  else if String.eqb value "high" then 0.8
  else 0.5.

(** Without a loaded model the probability is the mean of the feature
    vector. *)
Definition _predict_probability (model : trained_model) (features : list Q)
  : Q :=
  match model with
  | None => np_mean features
  | Some predict_proba => predict_proba features
  end.

Definition common_skills : list string :=
  [ "javascript"; "typescript"; "react"; "vue"; "angular"; "node"; "python";
    "java"; "ruby"; "rails"; "php"; "swift"; "kotlin"; "go"; "rust"; "c++";
    "c#"; "sql"; "mongodb"; "postgresql"; "mysql"; "redis"; "docker";
    "kubernetes"; "aws"; "azure"; "html"; "css"; "sass"; "less"; "webpack";
    "babel"; "git"; "github"; "gitlab" ]%string.

(** The required skills the scorer works with: those of the task, or the
    known skill names found in its description when it lists none. *)
Definition effective_required_skills (t : task) : list string :=
  match required_skills t with
  | [] =>
      if str_truthy (description t) then
        let description := lower (default ""%string (description t)) in
        match List.filter (fun skill => str_contains skill description)
                common_skills with
        | [] => []
        | found_skills => found_skills
        end
      else []
  | skills => skills
  end.

(** The weighted sum of the heuristic components. *)
Definition weighted_score (t : task) (d : developer) : Q :=
  let task_complexity := default "medium"%string (complexity t) in
  let skill_match :=
    calculate_skill_match (effective_required_skills t) (skills d) in
  let workload_score := (calculate_workload_score d).1.1 in
  0.3 * skill_match
  + 0.25 * calculate_performance_score d
  + 0.2 * workload_score
  + 0.1 * calculate_time_pattern_score d
  + 0.1 * _calculate_complexity_alignment task_complexity d
  + 0.05 * default 0.5 (collaboration_index d).

(** The [np.array] handed to [_predict_probability]. *)
Definition feature_vector (t : task) (d : developer) : list Q :=
  let task_complexity := default "medium"%string (complexity t) in
  [ calculate_skill_match (effective_required_skills t) (skills d);
    inject_Z (Z.of_nat (length (skills d)));
    (calculate_workload_score d).1.2;
    default 1 (capacity d);
    default 0.0 (velocity d);
    default 0.0 (completion_rate d);
    default 0.0 (time_accuracy d);
    default 0.5 (collaboration_index d);
    _complexity_to_numeric task_complexity ].

(** The confidence, from the weighted score and the probability. *)
Definition blend_confidence (weighted_score probability : Q) : Q :=
  if Qlt_bool weighted_score 0.2 && Qlt_bool probability 0.2 then
    let baseline_confidence := 0.35 + weighted_score * 0.3 in
    py_min 1.0 (py_max 0.3 baseline_confidence)
  else py_min 1.0 (py_max 0.3 (0.6 * weighted_score + 0.4 * probability)).

Definition score_confidence (model : trained_model) (t : task)
    (d : developer) : Q :=
  blend_confidence (weighted_score t d)
    (_predict_probability model (feature_vector t d)).

(** [_score_developer]; the [reasoning] text and the formatted strings of
    the metadata are display only and left out.  The recommendation record
    requires [user] to be a string and rejects a developer with neither
    [user_id] nor [_id]. *)
Definition _score_developer (model : trained_model) (t : task)
    (d : developer) : pyresult recommendation :=
  let skill_match :=
    calculate_skill_match (effective_required_skills t) (skills d) in
  let '(workload_score, utilization, _) := calculate_workload_score d in
  match str_or (user_id d) (_id d) with
  | None => Raise (ValidationError "user")
  | Some u =>
      Ok {| user := u;
            confidence := score_confidence model t d;
            workload_impact := utilization;
            meta_workload_percentage := py_round (utilization * 100) 2;
            meta_skill_match_score := skill_match;
            meta_performance_score := calculate_performance_score d;
            meta_workload_score := workload_score |}
  end.

(** An entry of the ["recommendations"] payload. *)
Record payload_entry : Type := PayloadEntry {
  p_user_id : string;
  p_confidence : Q;
  p_workload_percentage : Q;
  p_skill_match_score : Q;
  p_performance_score : Q;
  p_workload_score : Q;
}.

Fixpoint score_all (model : trained_model) (t : task)
    (ds : list developer) : pyresult (list recommendation) :=
  match ds with
  | [] => Ok []
  | d :: ds' =>
      rec ← _score_developer model t d;
      recs ← score_all model t ds';
      Ok (rec :: recs)
  end.

Definition get_recommendations (model : trained_model) (t : task)
    (available_developers : list developer) (top_n : nat)
  : pyresult (list payload_entry) :=
  match available_developers with
  | [] => Ok []
  | _ =>
      recommendations ← score_all model t available_developers;
      let top_recs :=
        take top_n (sorted_desc confidence Qlt_bool recommendations) in
      Ok (map (fun rec =>
                 {| p_user_id := user rec;
                    p_confidence := py_round (confidence rec) 2;
                    p_workload_percentage := meta_workload_percentage rec;
                    p_skill_match_score :=
                      py_round (meta_skill_match_score rec) 2;
                    p_performance_score :=
                      py_round (meta_performance_score rec) 2;
                    p_workload_score :=
                      py_round (meta_workload_score rec) 2 |})
              top_recs)
  end.

End TaskAssignment.

(** ** workload_balancer.py *)

Module WorkloadBalancer.
Import TaskAssignment.
Local Open Scope Q_scope.

Record balanced_assignment : Type := BalancedAssignment {
  b_task_id : option string;
  assign_to : string;
  b_confidence : Q;
  b_workload_percentage : Q;
}.

(** A line of the utilization summary: the member, and for the workload
    before and after the value, the capacity and the rounded percentage
    that the code formats as ["value/capacity (pct%)"]. *)
Record utilization_line : Type := UtilizationLine {
  u_user : string;
  u_capacity : Q;
  u_before : Q * Q;
  u_after : Q * Q;
}.

Record balance_result : Type := BalanceResult {
  balanced_assignments : list balanced_assignment;
  balance_score : Q;
  team_utilization : list utilization_line;
}.

(** [{member["user_id"]: member.copy() for member in team_members}] *)
Fixpoint build_team_state (team_state : odict developer)
    (team_members : list developer) : pyresult (odict developer) :=
  match team_members with
  | [] => Ok team_state
  | member :: rest =>
      match user_id member with
      | None => Raise (KeyError "user_id")
      | Some uid => build_team_state (od_set uid member team_state) rest
      end
  end.

Fixpoint _select_best_fit (recs : list payload_entry)
    (team_state : odict developer) : option (string * payload_entry) :=
  match recs with
  | [] => None
  | rec :: recs' =>
      match od_get (p_user_id rec) team_state with
      | None => _select_best_fit recs' team_state
      | Some member =>
          let capacity := default 0 (capacity member) in
          let projected :=
            default 0 (current_workload member) + p_skill_match_score rec in
          if Qle_bool capacity 0 || Qlt_bool (capacity * 1.0) projected
          then _select_best_fit recs' team_state
          else Some (p_user_id rec, rec)
      end
  end.

Definition calculate_balance_score (team_state : odict developer) : Q :=
  let workloads :=
    map (fun '(_, member) =>
           py_min (default 0 (current_workload member)
                   / py_max (default 0.001 (capacity member)) 0.001) 1.0)
        team_state in
  match workloads with
  | [] => 0.0
  | _ => py_max 0.0 (1.0 - np_var workloads)
  end.

Definition with_workload (member : developer) (w : Q) : developer :=
  {| user_id := user_id member; _id := _id member; name := name member;
     skills := skills member;
     capacity := capacity member; availability := availability member;
     current_workload := Some w; velocity := velocity member;
     completion_rate := completion_rate member;
     time_accuracy := time_accuracy member;
     collaboration_index := collaboration_index member;
     on_time_delivery := on_time_delivery member;
     quality_score := quality_score member;
     time_tracking_consistency := time_tracking_consistency member;
     time_logging_variance := time_logging_variance member;
     complexity_handled := complexity_handled member |}.

(** The body of the loop over the tasks. *)
Definition assign_task (model : trained_model)
    (team_members : list developer)
    (st : odict developer * list balanced_assignment) (t : task)
  : pyresult (odict developer * list balanced_assignment) :=
  recommendations ← get_recommendations model t team_members 3;
  match _select_best_fit recommendations st.1 with
  | None => Ok st
  | Some (uid, rec) =>
      match od_get uid st.1 with
      | None => Raise (KeyError uid)
      | Some member =>
          let w := default 0 (current_workload member)
                   + default 0 (estimated_story_points t) in
          Ok (od_set uid (with_workload member w) st.1,
              st.2 ++ [ {| b_task_id := task_id t;
                           assign_to := uid;
                           b_confidence := p_confidence rec;
                           b_workload_percentage :=
                             p_workload_percentage rec |} ])
      end
  end.

Fixpoint assign_tasks (model : trained_model)
    (team_members : list developer)
    (st : odict developer * list balanced_assignment) (ts : list task)
  : pyresult (odict developer * list balanced_assignment) :=
  match ts with
  | [] => Ok st
  | t :: ts' =>
      st' ← assign_task model team_members st t;
      assign_tasks model team_members st' ts'
  end.

Definition fmt (capacity value : Q) : Q * Q :=
  (value,
   py_round (if Qeq_bool capacity 0 then 0 else value / capacity * 100) 0).

Fixpoint _summarize_utilization (before_members : list developer)
    (after_state : odict developer) : pyresult (list utilization_line) :=
  match before_members with
  | [] => Ok []
  | member :: rest =>
      match user_id member with
      | None => Raise (KeyError "user_id")
      | Some uid =>
          match od_get uid after_state with
          | None => Raise (KeyError uid)
          | Some after_member =>
              let capacity := default 0 (capacity member) in
              let before := default 0 (current_workload member) in
              let after := default before (current_workload after_member) in
              lines ← _summarize_utilization rest after_state;
              Ok ({| u_user := default uid (name member);
                     u_capacity := capacity;
                     u_before := fmt capacity before;
                     u_after := fmt capacity after |} :: lines)
          end
      end
  end.

(** [balance_workload]; the tasks are visited in descending order of their
    priority string. *)
Definition balance_workload (model : trained_model) (tasks : list task)
    (team_members : list developer) : pyresult balance_result :=
  match tasks, team_members with
  | [], _ | _, [] =>
      Ok {| balanced_assignments := [];
            balance_score := 0.0;
            team_utilization := [] |}
  | _, _ =>
      team_state ← build_team_state [] team_members;
      let ordered :=
        sorted_desc (fun t => default "medium"%string (task_priority t))
          String.ltb tasks in
      st ← assign_tasks model team_members (team_state, []) ordered;
      utilization ← _summarize_utilization team_members st.1;
      Ok {| balanced_assignments := st.2;
            balance_score := calculate_balance_score st.1;
            team_utilization := utilization |}
  end.

(** *** suggest_reassignments *)

Definition _utilization (member : developer) : Q :=
  let capacity := default 0 (capacity member) in
  let workload := default 0 (current_workload member) in
  if Qle_bool capacity 0 then 0 else workload / capacity.

(** An entry of [current_assignments]. *)
Record current_assignment : Type := CurrentAssignment {
  c_task_id : option string;
  c_assign_to : option string;
}.

Record reassignment : Type := Reassignment {
  r_task_id : option string;
  r_from : string;
  r_to : string;
  r_reason : string;
}.

(** [next((m for m in overloaded if m["user_id"] == assign_to), None)] *)
Fixpoint find_assigned (overloaded : list developer)
    (assign_to : option string) : pyresult (option developer) :=
  match overloaded with
  | [] => Ok None
  | m :: rest =>
      match user_id m with
      | None => Raise (KeyError "user_id")
      | Some uid =>
          if decide (Some uid = assign_to) then Ok (Some m)
          else find_assigned rest assign_to
      end
  end.

(** The loop over [current_assignments]; it ends at the first assignment
    of an overloaded member for which nobody is underloaded.  A member
    dict holds at least one key, so a member that is found is truthy. *)
Fixpoint suggest_loop (overloaded underloaded : list developer)
    (current_assignments : list current_assignment)
    (suggestions : list reassignment) : pyresult (list reassignment) :=
  match current_assignments with
  | [] => Ok suggestions
  | task :: rest =>
      assigned ← find_assigned overloaded (c_assign_to task);
      match assigned with
      | None => suggest_loop overloaded underloaded rest suggestions
      | Some assigned_member =>
          match head underloaded with
          | None => Ok suggestions
          | Some candidate =>
              match user_id assigned_member, user_id candidate with
              | Some from_id, Some to_id =>
                  suggest_loop overloaded underloaded rest
                    (suggestions ++
                     [ {| r_task_id := c_task_id task;
                          r_from := from_id;
                          r_to := to_id;
                          r_reason :=
                            if Qlt_bool (_utilization candidate + 0.1) 1.0
                            then "Balances workload"
                            else "Improves skill match" |} ])
              | _, _ => Raise (KeyError "user_id")
              end
          end
      end
  end.

Definition suggest_reassignments
    (current_assignments : list current_assignment)
    (team_members : list developer) : pyresult (list reassignment) :=
  let overloaded :=
    List.filter (fun m => Qlt_bool 1.0 (_utilization m)) team_members in
  let underloaded :=
    List.filter (fun m => Qlt_bool (_utilization m) 0.7) team_members in
  suggest_loop overloaded underloaded current_assignments [].

End WorkloadBalancer.

(** ** sprint_planner.py *)

Module SprintPlanner.
Local Open Scope Q_scope.

(** A backlog story dict. *)
Record story : Type := Story {
  story_id : option string;
  id : option string;
  _id : option string;
  title : option string;
  story_points : option Q;
  points : option Q;
  priority : option string;
  complexity : option string;
  business_value : option Q;
  blocked_by : option (list string);
  dependencies : option (list string);
  required_skills : option (list string);
}.

(** A team member dict. *)
Record member : Type := Member {
  user_id : option string;
  m_id : option string;
  name : option string;
  full_name : option string;
  skills : list string;
  capacity : option Q;
  current_workload : option Q;
  on_vacation : bool;
}.

(** Truth value of an optional list: [None] and [[]] are falsy. *)
Definition list_truthy {A} (l : option (list A)) : bool :=
  match l with
  | Some (_ :: _) => true
  | _ => false
  end.

(** [story.get("story_points", 0) or story.get("points", 0)] *)
Definition story_points_of (s : story) : Q :=
  num_or (default 0 (story_points s)) (default 0 (points s)).

(** [story.get("story_id") or story.get("id")] *)
Definition story_key (s : story) : option string :=
  str_or (story_id s) (id s).

Definition priority_bonus (s : story) : Q :=
  let p := default "medium"%string (priority s) in
  if String.eqb p "high" then 1.5
  else if String.eqb p "medium" then 1.0
  else if String.eqb p "low" then 0.7
  else 1.0.

Definition normalize (s : story) : story :=
  let sid := default ""%string (_id s) in
  let or_sid (k : option string) : string :=
    if str_truthy k then default sid k else sid in
  {| story_id := Some (or_sid (str_or (story_id s) (id s)));
     id := Some (or_sid (str_or (id s) (story_id s)));
     _id := None;
     title := Some (default ""%string (title s));
     story_points :=
       Some (num_or (default 0 (story_points s)) (num_or (default 0 (points s)) 0));
     points :=
       Some (num_or (default 0 (points s)) (num_or (default 0 (story_points s)) 0));
     priority := Some (default "medium"%string (priority s));
     complexity := Some (default "medium"%string (complexity s));
     business_value := Some (default 1 (business_value s));
     blocked_by := blocked_by s;
     dependencies := Some (default [] (dependencies s));
     required_skills := Some (default [] (required_skills s)) |}.

Definition _calculate_team_capacity (team_members : list member)
    (fallback : Q) : Q :=
  let total :=
    fold_left
      (fun total m =>
         let remaining :=
           default 0 (capacity m) - default 0 (current_workload m) in
         let remaining :=
           if on_vacation m then remaining * 0.5 else remaining in
         total + py_max remaining 0)
      team_members 0 in
  num_or total fallback.

Definition _calculate_value (stories : list story) : Q :=
  fold_left
    (fun value s => value + default 1 (business_value s) * priority_bonus s)
    stories 0.

Definition complexity_weight (s : story) : Q :=
  let c := default "medium"%string (complexity s) in
  if String.eqb c "low" then 0.2
  else if String.eqb c "medium" then 0.5
  else if String.eqb c "high" then 0.8
  else 0.5.

Definition _calculate_complexity_risk (stories : list story) : Q :=
  match stories with
  | [] => 0
  | _ => np_mean (map complexity_weight stories)
  end.

(** *** The stochastic selection

    The draws come from the two process-wide generators, Python's
    [random] and NumPy's: their states are threaded through the calls.
    The generators themselves are outside the engine; [randbelow n] is the
    draw below [n] behind [random.shuffle] and [np_beta a b] is
    [np.random.beta(a, b)]. *)
Section selector.
Context {PyRandom NpRandom : Type}.
Variable randbelow : nat -> PyRandom -> nat * PyRandom.
Variable np_beta : Q -> Q -> NpRandom -> Q * NpRandom.

(** [x[i], x[j] = x[j], x[i]] *)
Definition swap (x : list story) (i j : nat) : list story :=
  match x !! i, x !! j with
  | Some xi, Some xj => <[j := xi]> (<[i := xj]> x)
  | _, _ => x
  end.

(** [random.shuffle(x)]: for [i] from [len(x) - 1] down to 1, swap
    [x[i]] with [x[randbelow(i + 1)]].  The draw is reduced modulo
    [i + 1], the range that [randbelow] promises. *)
Fixpoint shuffle_from (i : nat) (x : list story) (rng : PyRandom)
  : list story * PyRandom :=
  match i with
  | O => (x, rng)
  | S i' =>
      let '(j, rng') := randbelow (S i) rng in
      shuffle_from i' (swap x i (j mod S i)) rng'
  end.

Definition shuffle (x : list story) (rng : PyRandom)
  : list story * PyRandom :=
  shuffle_from (length x - 1) x rng.

(** The acceptance loop of [_thompson_sample]. *)
Fixpoint accept (stories : list story) (capacity : Q)
    (selection : list story) (total : Q) (rng : NpRandom)
  : list story * NpRandom :=
  match stories with
  | [] => (selection, rng)
  | s :: stories' =>
      let pts := story_points_of s in
      let '(probability, rng') := np_beta (priority_bonus s * 2) 2 rng in
      if Qle_bool (total + pts) capacity && Qlt_bool 0.4 probability
      then accept stories' capacity (selection ++ [s]) (total + pts) rng'
      else accept stories' capacity selection total rng'
  end.

(** [_thompson_sample]: the list [stories] is shuffled in place, so the
    shuffled list is returned with the sample ([[]] stands for [None]). *)
Definition _thompson_sample (stories : list story) (capacity : Q)
    (w : PyRandom * NpRandom)
  : list story * list story * (PyRandom * NpRandom) :=
  let '(stories', py) := shuffle stories w.1 in
  let '(selection, np) := accept stories' capacity [] 0 w.2 in
  (selection, stories', (py, np)).

Fixpoint sample_loop (iterations : nat) (stories : list story)
    (capacity : Q) (best_sets : list (list story))
    (w : PyRandom * NpRandom)
  : list (list story) * (PyRandom * NpRandom) :=
  match iterations with
  | O => (best_sets, w)
  | S n =>
      let '(sample, stories', w') := _thompson_sample stories capacity w in
      sample_loop n stories' capacity
        (match sample with [] => best_sets | _ => best_sets ++ [sample] end)
        w'
  end.

(** The sort key [(value, -risk)] and the order of Python tuples. *)
Definition selection_key (selection : list story) : Q * Q :=
  (_calculate_value selection, - _calculate_complexity_risk selection).
Definition key_ltb (a b : Q * Q) : bool :=
  Qlt_bool a.1 b.1 || (Qeq_bool a.1 b.1 && Qlt_bool a.2 b.2).

Definition optimize_story_selection (backlog : list story) (capacity : Q)
    (team_members : list member) (iterations : nat)
    (w : PyRandom * NpRandom)
  : list (list story) * (PyRandom * NpRandom) :=
  let stories :=
    List.filter (fun s => negb (list_truthy (blocked_by s))) backlog in
  let '(best_sets, w') := sample_loop iterations stories capacity [] w in
  (take 5 (sorted_desc selection_key key_ltb best_sets), w').
End selector.

(** *** calculate_sprint_load *)

Definition _remaining_capacity (m : member) : Q :=
  py_max (default 0 (capacity m) - default 0 (current_workload m)) 0.

Definition _skill_match (required skills : list string) : Q :=
  match required with
  | [] => 0.5
  | _ =>
      let set_required : gset string := list_to_set (map lower required) in
      let set_skills : gset string := list_to_set (map lower skills) in
      if decide (set_skills = ∅) then 0
      else inject_Z (Z.of_nat (size (set_required ∩ set_skills)))
           / inject_Z (Z.of_nat (size set_required))
  end.

Fixpoint find_best (s : story) (members : odict member) (best_score : Q)
    (best_candidate : option (string * member)) : option (string * member) :=
  match members with
  | [] => best_candidate
  | (uid, m) :: members' =>
      let remaining := _remaining_capacity m in
      if Qlt_bool remaining (default 0 (story_points s))
      then find_best s members' best_score best_candidate
      else
        let skill_match :=
          _skill_match (default [] (required_skills s)) (skills m) in
        let capacity_bonus := remaining / py_max (default 1 (capacity m)) 1 in
        let score := 0.7 * skill_match + 0.3 * capacity_bonus in
        if Qlt_bool best_score score
        then find_best s members' score (Some (uid, m))
        else find_best s members' best_score best_candidate
  end.

Definition _find_best_assignee (s : story) (members : odict member)
  : option (string * member) :=
  find_best s members (-1) None.

(** An entry of ["suggested_stories"]; [reason] is the text
    ["<assignee> has <remaining> points remaining"], kept as its two
    parts. *)
Record suggestion : Type := Suggestion {
  s_story_id : option string;
  s_title : option string;
  s_story_points : Q;
  s_priority : string;
  suggested_assignee : string;
  reason_remaining : Q;
}.

Definition option_eqb {A} (eqb : A -> A -> bool) (x y : option A) : bool :=
  match x, y with
  | Some a, Some b => eqb a b
  | None, None => true
  | _, _ => false
  end.

(** Equality of member dicts, as [list.index] tests it. *)
Definition member_eqb (a b : member) : bool :=
  option_eqb String.eqb (user_id a) (user_id b)
  && option_eqb String.eqb (m_id a) (m_id b)
  && option_eqb String.eqb (name a) (name b)
  && option_eqb String.eqb (full_name a) (full_name b)
  && bool_decide (skills a = skills b)
  && option_eqb Qeq_bool (capacity a) (capacity b)
  && option_eqb Qeq_bool (current_workload a) (current_workload b)
  && Bool.eqb (on_vacation a) (on_vacation b).

Fixpoint member_index (m : member) (l : list member) : nat :=
  match l with
  | [] => 0
  | x :: l' => if member_eqb x m then 0 else S (member_index m l')
  end.

(** [m.get("user_id") or m.get("_id") or str(team_members.index(m))] *)
Definition member_key (team_members : list member) (m : member) : string :=
  default (pretty (member_index m team_members))
    (let k := str_or (user_id m) (m_id m) in
     if str_truthy k then k else None).

Definition member_states (team_members : list member) : odict member :=
  fold_left (fun d m => od_set (member_key team_members m) m d)
    team_members [].

Definition with_workload (m : member) (w : Q) : member :=
  {| user_id := user_id m; m_id := m_id m; name := name m;
     full_name := full_name m; skills := skills m; capacity := capacity m;
     current_workload := Some w; on_vacation := on_vacation m |}.

Definition load_story (st : odict member * list suggestion) (s : story)
  : odict member * list suggestion :=
  match _find_best_assignee s st.1 with
  | None => st
  | Some (uid, m) =>
      let m' :=
        with_workload m
          (default 0 (current_workload m) + default 0 (story_points s)) in
      (od_set uid m' st.1,
       st.2 ++ [ {| s_story_id := story_key s;
                    s_title := title s;
                    s_story_points := default 0 (story_points s);
                    s_priority := default "medium"%string (priority s);
                    suggested_assignee :=
                      (let k := str_or (name m') (full_name m') in
                       default uid (if str_truthy k then k else None));
                    reason_remaining := _remaining_capacity m' |} ])
  end.

Definition calculate_sprint_load (selected_stories : list story)
    (team_members : list member) : list suggestion :=
  (fold_left load_story selected_stories (member_states team_members, [])).2.

Definition simulate_sprint_outcome (stories : list story)
    (assignments : list suggestion) : Q :=
  match stories with
  | [] => 0.0
  | _ =>
      let base_probability := 0.6 in
      let complexity_risk := _calculate_complexity_risk stories in
      let dependency_penalty :=
        py_sum (map (fun _ => 0.05)
                  (List.filter (fun s => list_truthy (dependencies s)) stories)) in
      py_max 0.1
        (py_min 0.95
           (base_probability + 0.2 - complexity_risk - dependency_penalty))
  end.

(** The risk messages, by kind. *)
Inductive risk : Type :=
| HighComplexity (count : nat)
| HaveDependencies (count : nat)
| DevelopersAtCapacity
| NoMajorRisks.

(** ["100%" in assignment["reason"]]: of the text of a reason only the
    assignee's name can hold a percent sign. *)
Definition _assess_risks (stories : list story)
    (assignments : list suggestion) : list risk :=
  let high_complexity :=
    List.filter
      (fun s => option_eqb String.eqb (complexity s) (Some "high"%string))
      stories in
  let with_dependencies :=
    List.filter (fun s => list_truthy (dependencies s)) stories in
  let overloaded :=
    List.filter (fun a => str_contains "100%" (suggested_assignee a))
      assignments in
  let risks :=
    (if Qlt_bool (inject_Z (Z.of_nat (length stories)) * 0.4)
          (inject_Z (Z.of_nat (length high_complexity)))
     then [HighComplexity (length high_complexity)] else [])
    ++ (match with_dependencies with
        | [] => []
        | _ => [HaveDependencies (length with_dependencies)]
        end)
    ++ (match overloaded with [] => [] | _ => [DevelopersAtCapacity] end) in
  match risks with
  | [] => [NoMajorRisks]
  | _ => risks
  end.

(** *** suggest_stories_for_sprint *)

Record alternative : Type := Alternative {
  story_ids : list (option string);
  total_points : Q;
}.

(** The result; [capacity_utilization] is the percentage that the code
    formats with no decimals. *)
Record sprint_plan : Type := SprintPlan {
  suggested_stories : list suggestion;
  total_story_points : Q;
  team_capacity : Q;
  capacity_utilization : Q;
  predicted_completion_probability : Q;
  risk_factors : list risk;
  alternative_selections : list alternative;
}.

Definition sum_points (selection : list story) : Q :=
  py_sum (map story_points_of selection).

Section suggest.
Context {PyRandom NpRandom : Type}.
Variable randbelow : nat -> PyRandom -> nat * PyRandom.
Variable np_beta : Q -> Q -> NpRandom -> Q * NpRandom.

Definition suggest_stories_for_sprint (backlog : list story)
    (team_capacity : Q) (team_members : list member)
    (w : PyRandom * NpRandom)
  : pyresult sprint_plan * (PyRandom * NpRandom) :=
  let normalized_backlog := map normalize backlog in
  let effective_capacity :=
    _calculate_team_capacity team_members team_capacity in
  let '(candidate_sets, w') :=
    optimize_story_selection randbelow np_beta normalized_backlog
      effective_capacity team_members 200 w in
  let best_selection := default [] (head candidate_sets) in
  let total_points := sum_points best_selection in
  let utilization :=
    if Qeq_bool effective_capacity 0 then 0
    else total_points / effective_capacity in
  let assignments := calculate_sprint_load best_selection team_members in
  (Ok {| suggested_stories := assignments;
         total_story_points := total_points;
         team_capacity := effective_capacity;
         capacity_utilization := py_round (utilization * 100) 0;
         predicted_completion_probability :=
           simulate_sprint_outcome best_selection assignments;
         risk_factors := _assess_risks best_selection assignments;
         alternative_selections :=
           map (fun combo =>
                  {| story_ids := map story_key combo;
                     total_points := sum_points combo |})
               (take 3 (drop 1 candidate_sets)) |},
   w').
End suggest.

End SprintPlanner.

(** * Part II: properties of the engine *)


(** * Properties of the ordered dictionaries *)

Section odict_facts.
Context {V : Type}.
Implicit Types (d : odict V) (k : string) (v : V).

Lemma od_get_set k k' v d :
  od_get k (od_set k' v d) = if decide (k = k') then Some v else od_get k d.
Proof.
  induction d as [|[k0 v0] d IH]; simpl.
  - repeat case_decide; congruence.
  - repeat (case_decide; simpl); try congruence.
Qed.

Lemma od_keys_set k v d :
  od_keys (od_set k v d) =
  if decide (k ∈ od_keys d) then od_keys d else od_keys d ++ [k].
Proof.
  unfold od_keys. induction d as [|[k0 v0] d IH]; simpl.
  - done.
  - destruct (decide (k = k0)) as [->|Hne]; simpl.
    + rewrite decide_True; [done | left].
    + rewrite IH. destruct (decide (k ∈ map fst d)) as [Hin|Hnin].
      * rewrite decide_True; [done | by right].
      * rewrite decide_False; [done |].
        intros [?|?]%elem_of_cons; done.
Qed.

Lemma od_get_Some_key k v d : od_get k d = Some v → k ∈ od_keys d.
Proof.
  induction d as [|[k0 v0] d IH]; simpl; [done |].
  case_decide; subst; [left | right; auto].
Qed.
End odict_facts.

Lemma index_of_Some x l : x ∈ l → is_Some (index_of x l).
Proof.
  induction l as [|y l IH]; [by inversion 1 |].
  intros Hin. simpl. case_decide; [by eexists |].
  apply elem_of_cons in Hin as [?|Hin]; [done |].
  destruct (IH Hin) as [i ->]. by eexists.
Qed.

Lemma index_of_app_r x l1 l2 :
  x ∉ l1 → index_of x (l1 ++ l2) = (λ i, length l1 + i)%nat <$> index_of x l2.
Proof.
  induction l1 as [|y l1 IH]; simpl; intros Hnin.
  - by destruct (index_of x l2).
  - rewrite decide_False; [|set_solver].
    rewrite IH; [|set_solver]. by destruct (index_of x l2).
Qed.

Lemma index_of_app_l x l1 l2 :
  x ∈ l1 → index_of x (l1 ++ l2) = index_of x l1.
Proof.
  induction l1 as [|y l1 IH]; simpl; [by inversion 1 |].
  intros Hin. case_decide; [done |].
  rewrite IH; [done | set_solver].
Qed.

Lemma index_of_lt x l i : index_of x l = Some i → (i < length l)%nat.
Proof.
  revert i. induction l as [|y l IH]; simpl; [done |].
  intros i. case_decide; [intros [= <-]; lia |].
  destruct (index_of x l) eqn:E; simpl; [|done].
  intros [= <-]. specialize (IH _ eq_refl). lia.
Qed.


Module DependencyAnalyzerSpec.
Import DependencyAnalyzer.
Local Open Scope Z_scope.

(** * The dependency relation of a task list *)

(** Edge [A -> B]: some listed task with id [B] names [A] as a dependency. *)
Definition depends_on (ts : list task) (A B : string) : Prop :=
  ∃ t, t ∈ ts ∧ task_id t = B ∧ A ∈ dependencies t.

Definition acyclic (ts : list task) : Prop :=
  ∀ x, ¬ tc (depends_on ts) x x.

Definition dependencies_listed (ts : list task) : Prop :=
  ∀ t d, t ∈ ts → d ∈ dependencies t → ∃ t', t' ∈ ts ∧ task_id t' = d.

Definition edges (ts : list task) : list (string * string) :=
  flat_map (λ t, map (λ d, (d, task_id t)) (dependencies t)) ts.

Definition build_from (g : odict (list string)) (es : list (string * string))
  : odict (list string) :=
  fold_left (λ g e, graph_append e.1 e.2 g) es g.

Definition count_occ_str (v : string) (l : list string) : nat :=
  length (filter (λ x, x = v) l).

Section graph_facts.
Implicit Types (ts : list task) (g : odict (list string)).

Lemma elem_of_edges ts A B : (A, B) ∈ edges ts ↔ depends_on ts A B.
Proof.
  unfold edges, depends_on. rewrite list_elem_of_In, in_flat_map. split.
  - intros (t & Ht & Hin). apply in_map_iff in Hin as (d & [= <- <-] & Hd).
    exists t. by rewrite !list_elem_of_In.
  - intros (t & Ht & <- & Hd). exists t. rewrite <-list_elem_of_In. split; [done |].
    apply in_map_iff. exists A. by rewrite <-list_elem_of_In.
Qed.

Lemma build_graph_edges ts : _build_graph ts = build_from [] (edges ts).
Proof.
  unfold _build_graph, build_from. generalize ([] : odict (list string)).
  induction ts as [|t ts IH]; intros g; simpl; [done |].
  rewrite fold_left_app, IH. f_equal.
  generalize (dependencies t) g. clear.
  intros l. induction l as [|d l IH]; intros g; simpl; [done | by rewrite IH].
Qed.

Lemma neighbors_graph_append d t g u :
  neighbors (graph_append d t g) u =
  if decide (u = d) then neighbors g u ++ [t] else neighbors g u.
Proof.
  unfold neighbors, graph_append. rewrite od_get_set.
  case_decide; by subst.
Qed.

Lemma neighbors_build_from g es u :
  neighbors (build_from g es) u =
  neighbors g u ++ map snd (filter (λ e, e.1 = u) es).
Proof.
  unfold build_from. revert g.
  induction es as [|[a b] es IH]; intros g; simpl.
  - by rewrite app_nil_r.
  - rewrite IH, neighbors_graph_append, filter_cons. simpl.
    destruct (decide (u = a)) as [->|Hne].
    + rewrite decide_True by done. by rewrite <-app_assoc.
    + by rewrite decide_False by done.
Qed.

Lemma neighbors_build_graph ts u :
  neighbors (_build_graph ts) u = map snd (filter (λ e, e.1 = u) (edges ts)).
Proof. by rewrite build_graph_edges, neighbors_build_from. Qed.

Lemma deg_get_add k n m v :
  deg_get (deg_add k n m) v =
  if decide (v = k) then deg_get m v + n else deg_get m v.
Proof.
  unfold deg_add, deg_get at 1. rewrite lookup_insert.
  repeat case_decide; subst; done.
Qed.

Lemma deg_get_fold_add l m v :
  deg_get (fold_left (λ m nb, deg_add nb 1 m) l m) v =
  deg_get m v + Z.of_nat (count_occ_str v l).
Proof.
  unfold count_occ_str. revert m.
  induction l as [|x l IH]; intros m; simpl; [rewrite ?filter_nil; simpl; lia |].
  rewrite IH, deg_get_add, filter_cons.
  destruct (decide (v = x)) as [->|Hne].
  - rewrite decide_True by done. simpl. lia.
  - rewrite decide_False by done. lia.
Qed.

Lemma deg_get_calculate g v :
  deg_get (_calculate_in_degrees g) v =
  Z.of_nat (count_occ_str v (concat (map snd g))).
Proof.
  unfold _calculate_in_degrees.
  assert (∀ m, deg_get
    (fold_left (λ m '(node, nbs), fold_left (λ m nb, deg_add nb 1 m) nbs m) g m) v
    = deg_get m v + Z.of_nat (count_occ_str v (concat (map snd g)))) as H.
  { induction g as [|[k l] g IH]; intros m; simpl; [unfold count_occ_str; simpl; rewrite ?filter_nil; simpl; lia |].
    rewrite IH, deg_get_fold_add. unfold count_occ_str.
    rewrite filter_app, length_app. lia. }
  rewrite H. unfold deg_get. rewrite lookup_empty. simpl. lia.
Qed.

Lemma count_graph_append d t g v :
  count_occ_str v (concat (map snd (graph_append d t g))) =
  (count_occ_str v (concat (map snd g)) + if decide (t = v) then 1 else 0)%nat.
Proof.
  unfold graph_append, count_occ_str.
  induction g as [|[k l] g IH]; simpl.
  - rewrite filter_cons, filter_nil. by case_decide.
  - destruct (decide (d = k)) as [->|Hne]; simpl.
    + rewrite !filter_app, !length_app, filter_cons, filter_nil.
      case_decide; simpl; lia.
    + rewrite !filter_app, !length_app, IH. lia.
Qed.

Lemma count_build_from g es v :
  count_occ_str v (concat (map snd (build_from g es))) =
  (count_occ_str v (concat (map snd g)) + length (filter (λ e, e.2 = v) es))%nat.
Proof.
  unfold build_from. revert g.
  induction es as [|[a b] es IH]; intros g; simpl; [lia |].
  rewrite IH, count_graph_append, filter_cons. simpl.
  case_decide; simpl; lia.
Qed.

(** The stored in-degree of an id is the number of dependency edges that
    point to it. *)
Lemma in_degree_init ts v :
  deg_get (in_degree (init ts)) v =
  Z.of_nat (length (filter (λ e, e.2 = v) (edges ts))).
Proof.
  simpl. rewrite deg_get_calculate, build_graph_edges, count_build_from.
  unfold count_occ_str. simpl. lia.
Qed.

Lemma tasks_keys_fold ts (d : odict task) :
  NoDup (od_keys d) →
  let d' := fold_left (λ d t, od_set (task_id t) t d) ts d in
  NoDup (od_keys d') ∧
  ∀ x, x ∈ od_keys d' ↔ x ∈ od_keys d ∨ ∃ t, t ∈ ts ∧ task_id t = x.
Proof.
  revert d. induction ts as [|t ts IH]; intros d Hnd; simpl.
  - split; [done |]. intros x. split; [auto |].
    intros [?|(t & Ht & _)]; [done | by inversion Ht].
  - destruct (IH (od_set (task_id t) t d)) as [Hnd' Hin].
    { rewrite od_keys_set. case_decide; [done |].
      apply NoDup_app. split_and!; [done | | apply NoDup_singleton].
      intros x Hx Hx'%list_elem_of_singleton. by subst. }
    split; [done |]. intros x. rewrite Hin, od_keys_set. split.
    + intros [Hx|(t' & Ht' & <-)].
      * case_decide; [by left |].
        apply elem_of_app in Hx as [?|Hx%list_elem_of_singleton]; [by left | subst x].
        right. exists t. split; [left | done].
      * right. exists t'. split; [by right | done].
    + intros [Hx|(t' & Ht' & <-)].
      * left. case_decide; [done | apply elem_of_app; by left].
      * apply elem_of_cons in Ht' as [->|Ht'].
        -- left. case_decide; [done |]. apply elem_of_app. right. left.
        -- right. by exists t'.
Qed.

Lemma tasks_keys_NoDup ts : NoDup (od_keys (tasks_by_id ts)).
Proof. apply (tasks_keys_fold ts []). constructor. Qed.

Lemma elem_of_tasks_keys ts x :
  x ∈ od_keys (tasks_by_id ts) ↔ ∃ t, t ∈ ts ∧ task_id t = x.
Proof.
  destruct (tasks_keys_fold ts []) as [_ H]; [constructor |].
  unfold tasks_by_id. simpl in *. rewrite H. split; [|auto].
  intros [Hx|?]; [by inversion Hx | done].
Qed.
End graph_facts.

(** * Kahn's algorithm *)

Section kahn.
Variable ts : list task.
Local Abbreviation E := (edges ts).
Local Abbreviation K := (od_keys (tasks_by_id ts)).
Local Abbreviation g := (_build_graph ts).

(** Edges into [v] whose source has not been emitted yet. *)
Definition pending (order : list string) (v : string) : nat :=
  length (filter (λ e, e.2 = v ∧ e.1 ∉ order) E).

Lemma edge_target_key A B : (A, B) ∈ E → B ∈ K.
Proof.
  intros (t & Ht & <- & _)%elem_of_edges.
  apply elem_of_tasks_keys. eauto.
Qed.

Lemma pending_snoc order c v :
  c ∉ order →
  pending order v =
  (pending (order ++ [c]) v + count_occ_str v (neighbors g c))%nat.
Proof.
  intros Hc. rewrite neighbors_build_graph.
  unfold pending, count_occ_str.
  induction (edges ts) as [|[a b] es IH]; [done |].
  rewrite !filter_cons. simpl.
  destruct (decide (b = v)) as [->|Hb].
  - destruct (decide (a = c)) as [->|Ha].
    + rewrite decide_True by done.
      rewrite (decide_False (P := _ ∧ c ∉ _ ++ _)) by set_solver.
      simpl. rewrite filter_cons, decide_True by done. simpl. lia.
    + destruct (decide (a ∈ order)).
      * rewrite !(decide_False (P := _ ∧ _)) by set_solver. done.
      * rewrite !(decide_True (P := _ ∧ _)) by set_solver. simpl. lia.
  - rewrite !(decide_False (P := _ ∧ _)) by (intros []; done).
    case_decide; simpl; [|done].
    rewrite filter_cons, decide_False by done. done.
Qed.

Lemma pending_zero order v :
  pending order v = 0%nat → ∀ A, (A, v) ∈ E → A ∈ order.
Proof.
  unfold pending. intros H0 A HA.
  destruct (decide (A ∈ order)) as [|Hn]; [done |].
  assert ((A, v) ∈ filter (λ e, e.2 = v ∧ e.1 ∉ order) E) as Hin.
  { apply list_elem_of_filter. by split. }
  apply length_zero_iff_nil in H0. rewrite H0 in Hin. by inversion Hin.
Qed.

Lemma pending_pos order v :
  pending order v ≠ 0%nat → ∃ A, (A, v) ∈ E ∧ A ∉ order.
Proof.
  unfold pending. intros Hp.
  destruct (filter (λ e, e.2 = v ∧ e.1 ∉ order) E) as [|[a b] l] eqn:Hf;
    [done |].
  assert ((a, b) ∈ filter (λ e, e.2 = v ∧ e.1 ∉ order) E) as Hin
    by (rewrite Hf; left).
  apply list_elem_of_filter in Hin as [[Hb Ha] Hin]. simpl in *. subst b.
  eauto.
Qed.

(** The loop invariant; [rest] is the part of the current id's neighbor
    list that the inner loop has still to visit. *)
Record kahn_inv (rest : list string) (m : gmap string Z)
    (queue order : list string) : Prop := {
  inv_deg : ∀ v, deg_get m v = Z.of_nat (pending order v + count_occ_str v rest);
  inv_nodup : NoDup (order ++ queue);
  inv_zero : ∀ v, v ∈ K → (v ∈ order ++ queue ↔ deg_get m v = 0);
  inv_keys : ∀ v, v ∈ order ++ queue → v ∈ K;
  inv_before : ∀ l1 B l2 A, order = l1 ++ B :: l2 → (A, B) ∈ E → A ∈ l1;
}.

Lemma kahn_inv_relax rest m queue order :
  (∀ v, v ∈ rest → v ∈ K) →
  kahn_inv rest m queue order →
  kahn_inv [] (fold_left relax rest (m, queue)).1
    (fold_left relax rest (m, queue)).2 order.
Proof.
  revert m queue. induction rest as [|n rest IH]; intros m queue Hsub Hinv;
    [done |].
  simpl. destruct Hinv as [Hdeg Hnd Hzero Hkeys Hbefore].
  assert (n ∈ K) as HnK by (apply Hsub; left).
  assert (deg_get (deg_add n (-1) m) n =
          Z.of_nat (pending order n + count_occ_str n rest)) as Hn.
  { rewrite deg_get_add, decide_True by done. rewrite Hdeg.
    unfold count_occ_str. rewrite filter_cons, decide_True by done.
    simpl. lia. }
  assert (n ∉ order ++ queue) as Hfresh.
  { rewrite Hzero, Hdeg by done. unfold count_occ_str.
    rewrite filter_cons, decide_True by done. simpl. lia. }
  assert (∀ v, v ≠ n → deg_get (deg_add n (-1) m) v = deg_get m v) as Hother.
  { intros v Hv. by rewrite deg_get_add, decide_False. }
  assert (∀ v, v ≠ n → count_occ_str v (n :: rest) = count_occ_str v rest)
    as Hcount.
  { intros v Hv. unfold count_occ_str.
    by rewrite filter_cons, decide_False by done. }
  destruct (relax (m, queue) n) as [m1 q1] eqn:Hr.
  apply IH; [set_solver |].
  unfold relax in Hr. simpl in Hr. injection Hr as <- <-.
  split; simpl.
  - intros v. destruct (decide (v = n)) as [->|Hv]; [done |].
    by rewrite (Hother v), Hdeg, (Hcount v).
  - case_decide; [|done].
    rewrite app_assoc. apply NoDup_app. split_and!; [done | | apply NoDup_singleton].
    intros x Hx Hx'%list_elem_of_singleton. by subst.
  - intros v Hv. destruct (decide (v = n)) as [->|Hne].
    + case_decide as Hz; [|set_solver].
      split; [by intros _ |]. intros _. rewrite app_assoc. set_solver.
    + rewrite (Hother v) by done. rewrite <-(Hzero v) by done.
      case_decide; [|done]. rewrite !elem_of_app, list_elem_of_singleton.
      naive_solver.
  - intros v. case_decide; [|apply Hkeys].
    rewrite app_assoc, elem_of_app, list_elem_of_singleton.
    intros [?| ->]; auto.
  - done.
Qed.

Lemma kahn_inv_pop m c queue order :
  kahn_inv [] m (c :: queue) order →
  kahn_inv (neighbors g c) m queue (order ++ [c]).
Proof.
  intros [Hdeg Hnd Hzero Hkeys Hbefore].
  assert (c ∉ order) as Hc.
  { apply NoDup_app in Hnd as (_ & Hnd & _). intros Hin.
    apply (Hnd _ Hin). left. }
  assert (c ∈ K) as HcK by (apply Hkeys; set_solver).
  split.
  - intros v. rewrite Hdeg, (pending_snoc order c v Hc).
    change (count_occ_str v []) with 0%nat. lia.
  - by rewrite <-app_assoc.
  - intros v Hv. rewrite <-app_assoc. simpl. by apply Hzero.
  - intros v. rewrite <-app_assoc. simpl. apply Hkeys.
  - intros l1 B l2 A Heq HAB.
    destruct l2 as [|x l2 _] using rev_ind.
    + apply app_inj_tail in Heq as [<- <-].
      apply (pending_zero order c); [|done].
      assert (deg_get m c = 0) as H0 by (apply Hzero; set_solver).
      rewrite Hdeg in H0. unfold count_occ_str in H0. simpl in H0. lia.
    + rewrite app_comm_cons, app_assoc in Heq.
      apply app_inj_tail in Heq as [-> _]. eauto.
Qed.

Lemma kahn_inv_length m queue order :
  kahn_inv [] m queue order → (length order + length queue ≤ length K)%nat.
Proof.
  intros [_ Hnd _ Hkeys _]. rewrite <-length_app.
  apply submseteq_length, NoDup_submseteq; auto.
Qed.

Lemma kahn_loop_total fuel m queue order :
  kahn_inv [] m queue order →
  (length K ≤ fuel + length order)%nat →
  ∃ order' m', kahn_loop fuel g (KahnState m queue order) = Some order' ∧
               kahn_inv [] m' [] order'.
Proof.
  revert m queue order.
  induction fuel as [|fuel IH]; intros m queue order Hinv Hfuel.
  - destruct queue as [|c queue]; [simpl; eauto |].
    apply kahn_inv_length in Hinv. simpl in *. lia.
  - destruct queue as [|c queue]; [simpl; eauto |].
    simpl.
    destruct (fold_left relax (neighbors g c) (m, queue)) as [m' q'] eqn:Hfold.
    apply IH; [|rewrite length_app; simpl; lia].
    apply kahn_inv_pop, kahn_inv_relax in Hinv.
    + by rewrite Hfold in Hinv.
    + intros v Hv. rewrite neighbors_build_graph in Hv.
      apply list_elem_of_In, in_map_iff in Hv as ([a b] & <- & Hin).
      apply list_elem_of_In, list_elem_of_filter in Hin as [_ Hin].
      by apply (edge_target_key a).
Qed.

Lemma kahn_inv_init :
  kahn_inv [] (in_degree (init ts))
    (initial_queue (init ts) (in_degree (init ts))) [].
Proof.
  split.
  - intros v. rewrite in_degree_init. unfold pending, count_occ_str. simpl.
    rewrite Nat.add_0_r. do 2 f_equal. apply list_filter_iff.
    intros [a b]. simpl. set_solver.
  - simpl. apply NoDup_filter, tasks_keys_NoDup.
  - intros v Hv. simpl. unfold initial_queue.
    rewrite list_elem_of_filter. naive_solver.
  - intros v. simpl. unfold initial_queue.
    rewrite list_elem_of_filter. naive_solver.
  - intros [|??] ????; done.
Qed.
End kahn.

Section topological_sort_correct.
Variable ts : list task.

Lemma tc_flip_source x y :
  tc (flip (depends_on ts)) x y → ∃ z, depends_on ts y z.
Proof. induction 1; eauto. Qed.

Lemma tc_flip_depends x y :
  tc (flip (depends_on ts)) x y → tc (depends_on ts) y x.
Proof.
  induction 1 as [x y H|x y z H _ IH]; [by apply tc_once |].
  eapply tc_r; eauto.
Qed.

(** In an acyclic task list every chain of dependencies is finite. *)
Lemma depends_on_wf : acyclic ts → ∀ x, Acc (depends_on ts) x.
Proof.
  intros Hacyc x.
  change (sn (flip (depends_on ts)) x). apply tc_finite_sn.
  - intros y Hy. apply (Hacyc y). by apply tc_flip_depends.
  - exists (map fst (edges ts)). intros y (z & Hyz)%tc_flip_source.
    apply elem_of_edges in Hyz.
    apply list_elem_of_In, in_map_iff. exists (y, z).
    by rewrite <-list_elem_of_In.
Qed.

Lemma kahn_complete m order :
  acyclic ts → dependencies_listed ts →
  kahn_inv ts [] m [] order →
  ∀ v, v ∈ od_keys (tasks_by_id ts) → v ∈ order.
Proof.
  intros Hacyc Hlisted [Hdeg _ Hzero _ _] v.
  induction (depends_on_wf Hacyc v) as [v _ IH]. intros Hv.
  destruct (decide (v ∈ order)) as [|Hnot]; [done | exfalso].
  assert (pending ts order v ≠ 0%nat) as Hp.
  { intros H0. apply Hnot. rewrite <-(app_nil_r order).
    apply Hzero; [done |]. rewrite Hdeg, H0. done. }
  apply pending_pos in Hp as (A & HA & HAo).
  apply elem_of_edges in HA. apply HAo, IH; [done |].
  destruct HA as (t & Ht & _ & Hd).
  apply elem_of_tasks_keys. by apply (Hlisted t).
Qed.

Lemma kahn_inv_index m queue order A B :
  kahn_inv ts [] m queue order →
  depends_on ts A B → B ∈ order →
  ∃ i j, index_of A order = Some i ∧ index_of B order = Some j ∧ (i < j)%nat.
Proof.
  intros [_ Hnd _ _ Hbefore] HAB%elem_of_edges HB.
  apply NoDup_app in Hnd as (Hnd & _ & _).
  apply list_elem_of_split in HB as (l1 & l2 & ->).
  assert (A ∈ l1) as HA by eauto.
  assert (B ∉ l1) as HB.
  { apply NoDup_app in Hnd as (_ & Hd & _). intros Hin.
    apply (Hd _ Hin). left. }
  destruct (index_of_Some A l1 HA) as [i Hi].
  exists i, (length l1 + 0)%nat. split_and!.
  - by rewrite index_of_app_l.
  - rewrite index_of_app_r by done. simpl. by rewrite decide_True.
  - apply index_of_lt in Hi. lia.
Qed.
End topological_sort_correct.

(** C2: on an acyclic task list whose dependency ids are all listed,
    [topological_sort] returns (without raising) an order that holds every
    task id exactly once and in which every dependency comes strictly
    before the tasks that depend on it. *)
Theorem topological_sort_dag (ts : list task) :
  acyclic ts → dependencies_listed ts →
  ∃ order,
    topological_sort (init ts) = Some (Ok order) ∧
    order ≡ₚ od_keys (tasks (init ts)) ∧
    NoDup order ∧
    (∀ x, x ∈ order ↔ ∃ t, t ∈ ts ∧ task_id t = x) ∧
    (∀ A B, depends_on ts A B →
       ∃ i j, index_of A order = Some i ∧ index_of B order = Some j ∧
              (i < j)%nat).
Proof.
  intros Hacyc Hlisted.
  destruct (kahn_loop_total ts
              (length (od_keys (tasks_by_id ts)) + size (in_degree (init ts)))
              _ _ _ (kahn_inv_init ts)) as (order & m & Hloop & Hinv);
    [simpl; lia |].
  assert (NoDup order) as Hnd.
  { destruct Hinv as [_ Hnd _ _ _]. by rewrite app_nil_r in Hnd. }
  assert (∀ x, x ∈ order ↔ x ∈ od_keys (tasks_by_id ts)) as Hmem.
  { intros x. split; [|by eapply kahn_complete].
    intros Hx. destruct Hinv as [_ _ _ Hkeys _]. apply Hkeys.
    by rewrite app_nil_r. }
  assert (order ≡ₚ od_keys (tasks_by_id ts)) as Hperm.
  { apply NoDup_Permutation; auto using tasks_keys_NoDup. }
  exists order. split_and!; [|done..| |].
  - unfold topological_sort.
    change (tasks (init ts)) with (tasks_by_id ts).
    change (graph (init ts)) with (_build_graph ts).
    rewrite Hloop. rewrite decide_False; [done |].
    intros Hlen. apply Hlen. rewrite (Permutation_length Hperm).
    unfold od_keys. by rewrite length_map.
  - intros x. by rewrite Hmem, elem_of_tasks_keys.
  - intros A B HAB. eapply kahn_inv_index; [done..|].
    apply Hmem, elem_of_tasks_keys. destruct HAB as (t & ? & ? & _). eauto.
Qed.

Local Open Scope nat_scope.

(** * Depth-first cycle detection *)

(** Edge [u -> v] of a stored graph: [v] is in the neighbor list of [u]. *)
Definition gedge (g : odict (list string)) (u v : string) : Prop :=
  v ∈ neighbors g u.

Section dfs.
Variable g : odict (list string).
Local Abbreviation U := (graph_nodes g).

(** Ids whose [dfs] call has returned: visited and off the recursion
    stack. *)
Definition finished (st : dfs_state) : gset string :=
  visited st ∖ rec_stack st.

(** Ids of the graph that [dfs] has not visited yet. *)
Definition unvisited (st : dfs_state) : gset string :=
  list_to_set U ∖ visited st.

Record dfs_inv (st : dfs_state) : Prop := {
  inv_stack : rec_stack st ⊆ visited st;
  inv_closed : ∀ u v, u ∈ finished st → gedge g u v → v ∈ finished st;
  inv_acyclic : ∀ u, u ∈ finished st → ¬ tc (gedge g) u u;
}.

Lemma neighbors_nodes u v : gedge g u v → v ∈ U.
Proof.
  unfold gedge, neighbors, graph_nodes.
  induction g as [|[k l] g' IH]; simpl; [by inversion 1 |].
  case_decide; simpl.
  - intros Hv. right. apply elem_of_app. by left.
  - intros Hv. right. apply elem_of_app. right. apply list_elem_of_In.
    apply list_elem_of_In in IH; [done.. |done].
Qed.

Lemma gedge_key u v : gedge g u v → u ∈ od_keys g.
Proof.
  unfold gedge, neighbors. destruct (od_get u g) eqn:Hget; simpl.
  - intros _. by eapply od_get_Some_key.
  - by inversion 1.
Qed.

Lemma keys_nodes u : u ∈ od_keys g → u ∈ U.
Proof.
  unfold od_keys, graph_nodes.
  induction g as [|[k l] g' IH]; simpl; [by inversion 1 |].
  intros [->|Hin]%elem_of_cons; [left |].
  right. apply elem_of_app. right. auto.
Qed.

Lemma closed_tc (S : gset string) x y :
  (∀ u v, u ∈ S → gedge g u v → v ∈ S) →
  x ∈ S → tc (gedge g) x y → y ∈ S.
Proof. intros Hcl Hx Htc. induction Htc; eauto. Qed.

Lemma unvisited_mono st st' :
  visited st ⊆ visited st' → size (unvisited st') ≤ size (unvisited st).
Proof. intros ?. apply subseteq_size. unfold unvisited. set_solver. Qed.

Lemma unvisited_visit node st st' :
  node ∈ U → node ∉ visited st → {[node]} ∪ visited st ⊆ visited st' →
  size (unvisited st') < size (unvisited st).
Proof.
  intros HU Hn Hsub. apply subset_size. unfold unvisited. split.
  - set_solver.
  - intros Hsub'. assert (node ∈ list_to_set U ∖ visited st) as Hin
      by set_solver.
    apply Hsub' in Hin. set_solver.
Qed.

Lemma size_unvisited_le st : size (unvisited st) ≤ length U.
Proof.
  unfold unvisited.
  etrans; [apply (subseteq_size _ (list_to_set U)); set_solver |].
  generalize U. intros l. induction l as [|x l IH].
  - by rewrite list_to_set_nil, size_empty.
  - rewrite list_to_set_cons, size_union_alt, size_singleton.
    assert (size (list_to_set l ∖ {[x]} : gset string) ≤ size (list_to_set l : gset string))
      by (apply subseteq_size; set_solver).
    simpl. lia.
Qed.

(** What a call that returns [False] leaves behind. *)
Definition dfs_post (node : string) (st st' : dfs_state) : Prop :=
  dfs_inv st' ∧ visited st ⊆ visited st' ∧ node ∈ visited st' ∧
  rec_stack st' = rec_stack st.

Lemma dfs_loop_spec (call : string → dfs_state → option (bool * dfs_state))
    (bound : nat) nbs st :
  (∀ n s, dfs_inv s → n ∉ visited s → n ∈ U → size (unvisited s) ≤ bound →
          ∃ b s', call n s = Some (b, s') ∧ (b = false → dfs_post n s s')) →
  (∀ n, n ∈ nbs → n ∈ U) →
  dfs_inv st → size (unvisited st) ≤ bound →
  ∃ b st', dfs_loop call nbs st = Some (b, st') ∧
    (b = false →
       dfs_inv st' ∧ visited st ⊆ visited st' ∧
       rec_stack st' = rec_stack st ∧
       ∀ n, n ∈ nbs → n ∈ finished st').
Proof.
  intros Hcall. revert st.
  induction nbs as [|nb nbs IH]; intros st HU Hinv Hsize; simpl.
  - exists false, st. split; [done |]. intros _. split_and!; [done..|].
    intros n Hn. by inversion Hn.
  - assert (∀ s, dfs_inv s → visited st ⊆ visited s →
              rec_stack s = rec_stack st → nb ∈ finished s →
              ∃ b st', dfs_loop call nbs s = Some (b, st') ∧
                (b = false →
                   dfs_inv st' ∧ visited st ⊆ visited st' ∧
                   rec_stack st' = rec_stack st ∧
                   ∀ n, n ∈ nb :: nbs → n ∈ finished st')) as Hrest.
    { intros s Hs Hvis Hrec Hnb.
      destruct (IH s) as (b & st' & Heq & Hpost);
        [set_solver | done | |].
      { pose proof (unvisited_mono st s Hvis). lia. }
      exists b, st'. split; [done |]. intros ->.
      destruct (Hpost eq_refl) as (Hinv' & Hvis' & Hrec' & Hfin).
      split_and!; [done | set_solver | congruence |].
      intros n [->|Hn]%elem_of_cons; [|auto].
      unfold finished in *. rewrite Hrec'. set_solver. }
    destruct (decide (nb ∉ visited st)) as [Hnv|Hv].
    + destruct (Hcall nb st) as (b & s' & -> & Hpost);
        [done | done | apply HU; left | done |].
      destruct b; [by eexists _, _ |].
      destruct (Hpost eq_refl) as (Hinv' & Hvis' & Hin' & Hrec').
      apply Hrest; [done..|].
      unfold finished. rewrite Hrec'.
      pose proof (inv_stack _ Hinv). set_solver.
    + destruct (decide (nb ∈ rec_stack st)) as [Hr|Hr]; [by eexists _, _ |].
      apply Hrest; [done..|]. unfold finished.
      apply dec_stable in Hv. set_solver.
Qed.

Lemma dfs_spec fuel node st :
  dfs_inv st → node ∉ visited st → node ∈ U →
  size (unvisited st) ≤ fuel →
  ∃ b st', dfs fuel g node st = Some (b, st') ∧
           (b = false → dfs_post node st st').
Proof.
  revert node st.
  induction fuel as [|fuel IH]; intros node st Hinv Hnode HU Hfuel.
  { exfalso.
    assert (node ∈ unvisited st) as Hin by (unfold unvisited; set_solver).
    assert (size (unvisited st) ≠ 0); [|lia].
    intros H0%size_empty_inv. set_solver. }
  simpl.
  set (st1 := {| visited := {[node]} ∪ visited st;
                 rec_stack := {[node]} ∪ rec_stack st |}).
  pose proof (inv_stack _ Hinv) as Hstack.
  assert (finished st1 = finished st) as Hfin1.
  { unfold finished. simpl. set_solver. }
  assert (dfs_inv st1) as Hinv1.
  { split; [simpl; set_solver | rewrite Hfin1; apply Hinv..]. }
  destruct (dfs_loop_spec (dfs fuel g) fuel (neighbors g node) st1)
    as (b & st' & -> & Hpost); [exact IH | | done | |].
  { intros n Hn. by eapply neighbors_nodes. }
  { assert (size (unvisited st1) < size (unvisited st)); [|lia].
    by apply (unvisited_visit node). }
  destruct b; [by eexists _, _ |].
  destruct (Hpost eq_refl) as (Hinv' & Hvis' & Hrec' & Hnbs).
  eexists false, _. split; [done |]. intros _.
  assert (rec_stack st' ∖ {[node]} = rec_stack st) as Hrec.
  { rewrite Hrec'. simpl. set_solver. }
  assert (node ∉ finished st') as Hnf.
  { unfold finished. rewrite Hrec'. simpl. set_solver. }
  assert (∀ u, u ∈ visited st' ∖ rec_stack st →
               u = node ∨ u ∈ finished st') as Hcase.
  { intros u Hu. destruct (decide (u = node)); [by left | right].
    unfold finished. rewrite Hrec'. simpl. set_solver. }
  assert (finished st' ⊆ visited st' ∖ rec_stack st) as Hsub.
  { unfold finished. rewrite Hrec'. simpl. set_solver. }
  split_and!; simpl; [|set_solver..].
  split; unfold finished; simpl; rewrite Hrec.
  - set_solver.
  - intros u v [->|Hu]%Hcase Huv; apply Hsub.
    + by apply Hnbs.
    + by eapply (inv_closed _ Hinv').
  - intros u [->|Hu]%Hcase Hcyc; [|by eapply (inv_acyclic _ Hinv')].
    apply Hnf. inversion Hcyc as [?? Hedge|? v ? Hedge Htc]; subst.
    + by apply Hnbs.
    + eapply closed_tc; [apply (inv_closed _ Hinv') | | done].
      by apply Hnbs.
Qed.

Lemma detect_loop_spec fuel nodes st :
  length U ≤ fuel → (∀ n, n ∈ nodes → n ∈ U) →
  dfs_inv st → rec_stack st = ∅ →
  ∃ b, detect_loop fuel g nodes st = Some b ∧
    (b = false →
       ∃ st', dfs_inv st' ∧ rec_stack st' = ∅ ∧
              visited st ⊆ visited st' ∧
              ∀ n, n ∈ nodes → n ∈ visited st').
Proof.
  intros Hfuel. revert st.
  induction nodes as [|node nodes IH]; intros st HU Hinv Hrec; simpl.
  - exists false. split; [done |]. intros _. exists st.
    split_and!; [done..|]. intros n Hn. by inversion Hn.
  - assert (∀ s, dfs_inv s → rec_stack s = ∅ → visited st ⊆ visited s →
              node ∈ visited s →
              ∃ b, detect_loop fuel g nodes s = Some b ∧
                (b = false →
                   ∃ st', dfs_inv st' ∧ rec_stack st' = ∅ ∧
                          visited st ⊆ visited st' ∧
                          ∀ n, n ∈ node :: nodes → n ∈ visited st')) as Hrest.
    { intros s Hs Hrs Hvis Hnode.
      destruct (IH s) as (b & Heq & Hpost); [set_solver | done..|].
      exists b. split; [done |]. intros ->.
      destruct (Hpost eq_refl) as (st' & ? & ? & ? & Hall).
      exists st'. split_and!; [done | done | set_solver |].
      intros n [->|Hn]%elem_of_cons; [set_solver | auto]. }
    destruct (decide (node ∉ visited st)) as [Hnv|Hv].
    + destruct (dfs_spec fuel node st) as (b & s' & -> & Hpost);
        [done | done | apply HU; left | |].
      { pose proof (size_unvisited_le st). lia. }
      destruct b; [by eexists |].
      destruct (Hpost eq_refl) as (Hinv' & Hvis' & Hin' & Hrec').
      apply Hrest; [done | congruence | done..].
    + apply Hrest; [done..|]. by apply dec_stable in Hv.
Qed.

(** [detect_cycles] always returns, and it returns [False] only on a graph
    without a cycle. *)
Lemma detect_loop_complete :
  ∃ b, detect_loop (length U) g (od_keys g) (DfsState ∅ ∅) = Some b ∧
       (b = false → ∀ x, ¬ tc (gedge g) x x).
Proof.
  destruct (detect_loop_spec (length U) (od_keys g) (DfsState ∅ ∅))
    as (b & Heq & Hpost); [done | apply keys_nodes | | done |].
  { split; unfold finished; simpl; set_solver. }
  exists b. split; [done |]. intros ->.
  destruct (Hpost eq_refl) as (st' & Hinv & Hrec & _ & Hall).
  intros x Hcyc. apply (inv_acyclic _ Hinv x); [|done].
  unfold finished. rewrite Hrec.
  assert (x ∈ od_keys g) as Hx.
  { inversion Hcyc; subst; by eapply gedge_key. }
  apply Hall in Hx. set_solver.
Qed.
End dfs.

Lemma gedge_build_graph ts u v :
  gedge (_build_graph ts) u v ↔ depends_on ts u v.
Proof.
  unfold gedge. rewrite neighbors_build_graph, <-elem_of_edges.
  rewrite list_elem_of_In, in_map_iff. split.
  - intros ([a b] & <- & Hin).
    apply list_elem_of_In, list_elem_of_filter in Hin as [<- Hin]. done.
  - intros Hin. exists (u, v). split; [done |].
    apply list_elem_of_In, list_elem_of_filter. done.
Qed.

Lemma tc_gedge_build_graph ts x y :
  tc (gedge (_build_graph ts)) x y ↔ tc (depends_on ts) x y.
Proof.
  split; induction 1 as [?? H|??? H _ IH].
  - apply tc_once. by apply gedge_build_graph.
  - eapply tc_l; [by apply gedge_build_graph | done].
  - apply tc_once. by apply gedge_build_graph.
  - eapply tc_l; [by apply gedge_build_graph | done].
Qed.

(** C6 (amended): the answer of [detect_cycles] is a boolean, and on a task
    list whose dependency relation has a directed cycle it is [True]. *)
Theorem detect_cycles_true (ts : list task) :
  (∃ x, tc (depends_on ts) x x) → detect_cycles (init ts) = Some true.
Proof.
  intros (x & Hcyc). unfold detect_cycles. simpl.
  destruct (detect_loop_complete (_build_graph ts)) as (b & -> & Hb).
  destruct b; [done |]. exfalso.
  apply (Hb eq_refl x). by apply tc_gedge_build_graph.
Qed.

(** * Sample task lists *)

(** A task list whose dependencies all go up a rank has no cycle. *)
Lemma ranked_acyclic (ts : list task) (rank : string → nat) :
  (∀ A B, depends_on ts A B → rank A < rank B) → acyclic ts.
Proof.
  intros Hrank.
  assert (∀ x y, tc (depends_on ts) x y → rank x < rank y) as Hlt.
  { induction 1 as [x y H|x y z H _ IH]; [auto |].
    apply Hrank in H. lia. }
  intros x Hx%Hlt. lia.
Qed.

Lemma tc_first_step {A} (R : relation A) x y : tc R x y → ∃ z, R x z.
Proof. destruct 1; eauto. Qed.

(** [b] and [c] build on [a], and [c] on [b] as well. *)
Definition layered_tasks : list task :=
  [ Task "b" ["a"]; Task "a" []; Task "c" ["a"; "b"] ]%string.

Definition layered_rank (s : string) : nat :=
  if String.eqb s "a" then 0 else if String.eqb s "b" then 1 else 2.

Lemma layered_tasks_acyclic : acyclic layered_tasks.
Proof.
  apply (ranked_acyclic _ layered_rank).
  intros A B (t & Ht & <- & HA). unfold layered_tasks in Ht.
  repeat (apply elem_of_cons in Ht as [->|Ht]);
    [..|by inversion Ht]; simpl in HA;
    repeat (apply elem_of_cons in HA as [->|HA]);
    try (by inversion HA); vm_compute; lia.
Qed.

Lemma layered_tasks_listed : dependencies_listed layered_tasks.
Proof.
  intros t d Ht Hd. unfold layered_tasks in Ht.
  assert (d = "a"%string ∨ d = "b"%string) as [-> | ->].
  { repeat (apply elem_of_cons in Ht as [->|Ht]);
      [..|by inversion Ht]; simpl in Hd;
      repeat (apply elem_of_cons in Hd as [->|Hd]);
      try (by inversion Hd); auto. }
  - exists (Task "a" []). split; [|done]. unfold layered_tasks. set_solver.
  - exists (Task "b" ["a"%string]). split; [|done]. unfold layered_tasks. set_solver.
Qed.

(** C2, on the layered task list. *)
Lemma topological_sort_dag_witness :
  ∃ order,
    topological_sort (init layered_tasks) = Some (Ok order) ∧
    order ≡ₚ od_keys (tasks (init layered_tasks)) ∧
    NoDup order ∧
    (∀ x, x ∈ order ↔ ∃ t, t ∈ layered_tasks ∧ task_id t = x) ∧
    (∀ A B, depends_on layered_tasks A B →
       ∃ i j, index_of A order = Some i ∧ index_of B order = Some j ∧ i < j).
Proof.
  exact (topological_sort_dag layered_tasks layered_tasks_acyclic
           layered_tasks_listed).
Defined.

(** Two tasks that wait for each other, under two pairs of names. *)
Definition deadlock_ab : list task := [ Task "a" ["b"]; Task "b" ["a"] ]%string.
Definition deadlock_cd : list task := [ Task "c" ["d"]; Task "d" ["c"] ]%string.

Lemma deadlock_ab_cycle : ∃ x, tc (depends_on deadlock_ab) x x.
Proof.
  exists "a"%string. apply (tc_l _ _ "b"%string); [|apply tc_once].
  - exists (Task "b" ["a"%string]). unfold deadlock_ab. set_solver.
  - exists (Task "a" ["b"%string]). unfold deadlock_ab. set_solver.
Qed.

Lemma deadlock_cd_cycle : ∃ x, tc (depends_on deadlock_cd) x x.
Proof.
  exists "c"%string. apply (tc_l _ _ "d"%string); [|apply tc_once].
  - exists (Task "d" ["c"%string]). unfold deadlock_cd. set_solver.
  - exists (Task "c" ["d"%string]). unfold deadlock_cd. set_solver.
Qed.

(** C6 (amended), on two tasks that wait for each other. *)
Lemma detect_cycles_true_witness : detect_cycles (init deadlock_ab) = Some true.
Proof. exact (detect_cycles_true deadlock_ab deadlock_ab_cycle). Defined.

(** The involved cycle can be read off the value that [detect_cycles]
    returns: some reading of the returned value gives, for every task list
    with a cycle, a non-empty list of ids that all lie on a cycle of it. *)
Definition returns_cycle_path : Prop :=
  ∃ path_of : bool → list string,
    ∀ ts, (∃ x, tc (depends_on ts) x x) →
      ∃ b, detect_cycles (init ts) = Some b ∧
           path_of b ≠ [] ∧
           ∀ x, x ∈ path_of b → tc (depends_on ts) x x.

(** C6, as stated, fails: [detect_cycles] returns [True] on both deadlocked
    lists, whose cycles have no id in common. *)
Lemma returns_cycle_path_fails : ¬ returns_cycle_path.
Proof.
  intros [path_of H].
  destruct (H deadlock_ab deadlock_ab_cycle) as (b1 & Hb1 & Hne & Hab).
  destruct (H deadlock_cd deadlock_cd_cycle) as (b2 & Hb2 & _ & Hcd).
  vm_compute in Hb1, Hb2. injection Hb1 as <-. injection Hb2 as <-.
  destruct (path_of true) as [|x path]; [done |].
  destruct (tc_first_step _ _ _ (Hab x ltac:(left))) as (z & t & Ht & _ & Hx).
  destruct (tc_first_step _ _ _ (Hcd x ltac:(left))) as (z' & t' & Ht' & _ & Hx').
  unfold deadlock_ab in Ht. unfold deadlock_cd in Ht'.
  repeat (apply elem_of_cons in Ht as [->|Ht]); [..|by inversion Ht];
    simpl in Hx; apply list_elem_of_singleton in Hx as ->;
    repeat (apply elem_of_cons in Ht' as [->|Ht']); try (by inversion Ht');
    simpl in Hx'; apply list_elem_of_singleton in Hx'; discriminate Hx'.
Qed.

(** * The stored in-degrees *)

(** [b] depends on [a], and is listed first. *)
Definition b_then_a : list task := [ Task "b" ["a"]; Task "a" [] ]%string.

(** C9: on a fresh analyzer [topological_sort] puts [a] before [b];
    [parallel_execution] leaves the stored in-degree of [b] at 0 instead of
    1, and a [topological_sort] after it returns [b] before [a], against the
    dependency. *)
Lemma parallel_execution_changes_topological_sort :
  let self := init b_then_a in
  topological_sort self = Some (Ok ["a"; "b"]%string) ∧
  deg_get (in_degree self) "b" = 1%Z ∧
  ∃ levels self',
    parallel_execution self = Some (levels, self') ∧
    deg_get (in_degree self') "b" = 0%Z ∧
    topological_sort self' = Some (Ok ["b"; "a"]%string).
Proof.
  cbv zeta. split_and!; [by vm_compute | by vm_compute |].
  destruct (parallel_execution (init b_then_a)) as [[levels self']|] eqn:Hpar;
    [|by vm_compute in Hpar].
  exists levels, self'. split; [done |].
  assert (topological_sort self' = Some (Ok ["b"; "a"]%string) ∧
          deg_get (in_degree self') "b" = 0%Z) as [? ?]; [|done].
  assert (snd <$> parallel_execution (init b_then_a) = Some self') as Hself
    by (by rewrite Hpar).
  clear Hpar. vm_compute in Hself. injection Hself as <-. by vm_compute.
Qed.
End DependencyAnalyzerSpec.


(** * The capacity allocator *)

Module PIOptimizerSpec.
Import PIOptimizer.
Local Open Scope nat_scope.

(** Edge of the dependency graph the optimizer builds: feature [a]
    depends on [b]. *)
Definition dep_edge (g : gmap string (list string)) (a b : string) : Prop :=
  b ∈ default [] (g !! a).

Definition is_dag (g : gmap string (list string)) : Prop :=
  ∀ x, ¬ tc (dep_edge g) x x.




Section choice.
Variables (sprints : list sprint) (g : gmap string (list string)).
Variables (st : alloc_state) (f : feature).



End choice.


Lemma find_none (P : sprint → bool) l :
  List.find P l = None → ∀ s, s ∈ l → P s = false.
Proof.
  intros H s Hs. apply list_elem_of_In in Hs.
  by apply (List.find_none _ _ H).
Qed.

Lemma scan_sprints_find caps allocated pts dep_sprints sprints best :
  scan_sprints caps allocated pts dep_sprints sprints best =
  match List.find (λ s, has_capacity caps allocated pts s &&
                        bool_decide (sprint_id s ∈ dep_sprints)) sprints with
  | Some s => Some s
  | None =>
      match best with
      | Some b => Some b
      | None => List.find (has_capacity caps allocated pts) sprints
      end
  end.
Proof.
  revert best. induction sprints as [|s sprints IH]; intros best; simpl.
  - by destruct best.
  - destruct (has_capacity caps allocated pts s) eqn:Hcap; simpl.
    + destruct (decide (sprint_id s ∈ dep_sprints)) as [Hin|Hnin].
      * by rewrite bool_decide_eq_true_2.
      * rewrite bool_decide_eq_false_2 by done. rewrite IH.
        destruct (List.find _ sprints); [done |]. by destruct best.
    + apply IH.
Qed.



Lemma allocate_fold_assignments sprints g fs st a :
  a ∈ assignments (fold_left (allocate_step sprints g) fs st) →
  a ∈ assignments st ∨
  ∃ pre f post s, fs = pre ++ f :: post ∧
    choose_sprint sprints g (fold_left (allocate_step sprints g) pre st) f
      = Some s ∧
    a = make_assignment f s.
Proof.
  revert st. induction fs as [|f fs IH]; intros st; simpl; [by left |].
  intros [Ha|(pre & f' & post & s & -> & Hs & ->)]%IH.
  - unfold allocate_step in Ha.
    destruct (choose_sprint sprints g st f) as [s|] eqn:Hs; [|by left].
    simpl in Ha. apply elem_of_app in Ha as [?|Ha]; [by left |].
    apply list_elem_of_singleton in Ha as ->. right.
    by exists [], f, fs, s.
  - right. by exists (f :: pre), f', post, s.
Qed.

(** ** Termination of the dependency-first visit *)

Section visit.
Variables (features : list feature) (g : gmap string (list string)).

Lemma visit_all_spec (call : string → visit_state → option visit_state)
    (T : gset string) deps st :
  (∀ d s, temp_visited s = T →
          ∃ s', call d s = Some s' ∧ temp_visited s' = T) →
  temp_visited st = T →
  ∃ st', visit_all call deps st = Some st' ∧ temp_visited st' = T.
Proof.
  intros Hcall. revert st.
  induction deps as [|d deps IH]; intros st Hst; simpl; [eauto |].
  destruct (Hcall d st Hst) as (s' & -> & Hs'). by apply IH.
Qed.

Lemma visit_spec fuel fid st :
  size (dom g ∖ temp_visited st) < fuel →
  ∃ st', visit fuel features g fid st = Some st' ∧
         temp_visited st' = temp_visited st.
Proof.
  revert fid st. induction fuel as [|fuel IH]; intros fid st Hfuel; [lia |].
  simpl. destruct (decide (fid ∈ temp_visited st)) as [|Htemp]; [eauto |].
  destruct (decide (fid ∈ visited st)); [eauto |].
  set (st1 := {| sorted_list := sorted_list st; visited := visited st;
                 temp_visited := {[fid]} ∪ temp_visited st |}).
  assert (∃ st2, visit_all (visit fuel features g)
                   (default [] (g !! fid)) st1 = Some st2 ∧
                 temp_visited st2 = {[fid]} ∪ temp_visited st)
    as (st2 & -> & Hst2).
  { destruct (g !! fid) as [deps|] eqn:Hg; simpl; [|eauto].
    apply visit_all_spec; [|done].
    intros d s Hs. rewrite <-Hs. apply IH. rewrite Hs.
    assert (dom g ∖ ({[fid]} ∪ temp_visited st) ⊂ dom g ∖ temp_visited st)
      as Hsub%subset_size; [|lia].
    assert (fid ∈ dom g) by (apply elem_of_dom; eauto).
    split; [set_solver |]. intros Hsub.
    assert (fid ∈ dom g ∖ temp_visited st) as Hin by set_solver.
    apply Hsub in Hin. set_solver. }
  eexists. split; [done |]. simpl. rewrite Hst2. set_solver.
Qed.

Lemma visit_in_order_total fuel ids st :
  size (dom g) < fuel → temp_visited st = ∅ →
  is_Some (visit_in_order fuel features g ids st).
Proof.
  intros Hfuel. revert st.
  induction ids as [|fid ids IH]; intros st Hst; simpl; [done |].
  destruct (decide (fid ∉ visited st)); [|by apply IH].
  destruct (visit_spec fuel fid st) as (st' & -> & Hst').
  { rewrite Hst. assert (dom g ∖ ∅ = dom g) as -> by set_solver. done. }
  apply IH. congruence.
Qed.
End visit.

Lemma dom_add_dependency g d : dom (add_dependency g d) = dom g.
Proof.
  unfold add_dependency.
  destruct (str_truthy _ && str_truthy _); [|done].
  destruct (str_or (fromFeature d) _) as [f|]; [|done].
  destruct (str_or (toFeature d) _) as [t|]; [|done].
  destruct (g !! f) as [tos|] eqn:Hg; [|done].
  rewrite dom_insert_L. assert (f ∈ dom g) by (apply elem_of_dom; eauto).
  set_solver.
Qed.

Lemma size_dom_graph features dependencies :
  size (dom (_build_dependency_graph features dependencies)) ≤ length features.
Proof.
  unfold _build_dependency_graph.
  assert (∀ g0, dom (fold_left add_dependency dependencies g0) = dom g0) as ->.
  { induction dependencies as [|d ds IH]; intros g0; simpl; [done |].
    by rewrite IH, dom_add_dependency. }
  assert (∀ g0 : gmap string (list string),
            size (dom (fold_left (λ g f, <[feature_id f := []]> g) features g0))
            ≤ size (dom g0) + length features) as H.
  { induction features as [|f fs IH]; intros g0; simpl; [lia |].
    etrans; [apply IH |]. rewrite dom_insert_L, size_union_alt, size_singleton.
    assert (size (dom g0 ∖ {[feature_id f]}) ≤ size (dom g0))
      by (apply subseteq_size; set_solver).
    lia. }
  etrans; [apply H |]. rewrite dom_empty_L, size_empty. lia.
Qed.

(** [optimize] always returns: a plan, or the exception of the score
    computation. *)
Lemma optimize_total features sprints dependencies :
  is_Some (optimize features sprints dependencies).
Proof.
  unfold optimize.
  destruct (_calculate_priority_scores features) as [scores|e]; [|done].
  unfold _sort_features_by_priority.
  pose proof (size_dom_graph features dependencies) as Hsize.
  destruct (visit_in_order_total features
              (_build_dependency_graph features dependencies)
              (S (length features))
              (sorted_desc (λ x, default 0%Q (scores !! x)) Qlt_bool
                 (map feature_id features))
              {| sorted_list := []; visited := ∅; temp_visited := ∅ |}
              ltac:(lia) eq_refl)
    as [st ->].
  simpl. by eexists.
Qed.

(** A graph whose edges all go down a rank has no cycle. *)
Lemma ranked_is_dag (g : gmap string (list string)) (rank : string → nat) :
  map_Forall (λ a deps, Forall (λ b, rank b < rank a) deps) g → is_dag g.
Proof.
  intros Hrank.
  assert (∀ x y, tc (dep_edge g) x y → rank y < rank x) as Hlt.
  { assert (∀ x y, dep_edge g x y → rank y < rank x) as Hstep.
    { intros x y. unfold dep_edge. destruct (g !! x) as [deps|] eqn:Hg; simpl.
      - intros Hy. specialize (Hrank x deps Hg).
        rewrite Forall_forall in Hrank. auto.
      - by inversion 1. }
    induction 1 as [x y H|x y z H _ IH]; [auto |].
    apply Hstep in H. lia. }
  intros x Hx%Hlt. lia.
Qed.

(** Sprints of capacity 5 and 10; [B] depends on [A]. *)
Definition ex_features : list feature :=
  [ Feature "A" None (Some 8%Q) None None None;
    Feature "B" None (Some 3%Q) None None None ].
Definition ex_sprints : list sprint :=
  [ Sprint "S0" None (Some 5%Q); Sprint "S1" None (Some 10%Q) ].
Definition ex_dependencies : list dependency :=
  [ Dependency (Some "B"%string) None (Some "A"%string) None ].

End PIOptimizerSpec.

(** * Facts about the Python number operations *)

Section number_facts.
Local Open Scope Q_scope.

Lemma Qlt_bool_true a b : Qlt_bool a b = true → a < b.
Proof.
  unfold Qlt_bool. intros H%negb_true_iff.
  apply Qnot_le_lt. intros Hle%Qle_bool_iff. congruence.
Qed.

Lemma Qlt_bool_false a b : Qlt_bool a b = false → b <= a.
Proof. unfold Qlt_bool. intros H%negb_false_iff. by apply Qle_bool_iff. Qed.

Lemma py_max_cases a b : (a < b ∧ py_max a b = b) ∨ (b <= a ∧ py_max a b = a).
Proof.
  unfold py_max. destruct (Qlt_bool a b) eqn:H.
  - left. split; [by apply Qlt_bool_true | done].
  - right. split; [by apply Qlt_bool_false | done].
Qed.

Lemma py_min_cases a b : (b < a ∧ py_min a b = b) ∨ (a <= b ∧ py_min a b = a).
Proof.
  unfold py_min. destruct (Qlt_bool b a) eqn:H.
  - left. split; [by apply Qlt_bool_true | done].
  - right. split; [by apply Qlt_bool_false | done].
Qed.

(** [min(hi, max(lo, x))] lies between [lo] and [hi]. *)
Lemma clamp_bounds lo hi x :
  lo <= hi → lo <= py_min hi (py_max lo x) <= hi.
Proof.
  intros Hle.
  destruct (py_max_cases lo x) as [[? ->]|[? ->]];
    destruct (py_min_cases hi x) as [[? Hm]|[? Hm]];
    destruct (py_min_cases hi lo) as [[? Hm']|[? Hm']];
    rewrite ?Hm, ?Hm'; split; lra.
Qed.

(** [max(lo, min(hi, x))] lies between [lo] and [hi]. *)
Lemma clamp_bounds' lo hi x :
  lo <= hi → lo <= py_max lo (py_min hi x) <= hi.
Proof.
  intros Hle.
  destruct (py_min_cases hi x) as [[? ->]|[? ->]];
    destruct (py_max_cases lo x) as [[? Hm]|[? Hm]];
    destruct (py_max_cases lo hi) as [[? Hm']|[? Hm']];
    rewrite ?Hm, ?Hm'; split; lra.
Qed.

Lemma ratio_bounds (a b : nat) :
  (a ≤ b)%nat → (0 < b)%nat →
  0 <= inject_Z (Z.of_nat a) / inject_Z (Z.of_nat b) <= 1.
Proof.
  intros Hab Hb.
  assert (0 < inject_Z (Z.of_nat b)) as Hpos.
  { change 0 with (inject_Z 0). rewrite <-Zlt_Qlt. lia. }
  assert (0 <= inject_Z (Z.of_nat a)) as Ha.
  { change 0 with (inject_Z 0). rewrite <-Zle_Qle. lia. }
  assert (inject_Z (Z.of_nat a) <= inject_Z (Z.of_nat b)) as Hle.
  { rewrite <-Zle_Qle. lia. }
  split.
  - apply Qle_shift_div_l; [done | lra].
  - apply Qle_shift_div_r; [done | lra].
Qed.
End number_facts.

(** * The assignee scorer *)

Module TaskAssignmentSpec.
Import TaskAssignment.
Local Open Scope Q_scope.

Lemma blend_confidence_bounds w p : 0.3 <= blend_confidence w p <= 1.
Proof.
  unfold blend_confidence.
  destruct (_ && _);
    [pose proof (clamp_bounds 0.3 1.0 (0.35 + w * 0.3))
    |pose proof (clamp_bounds 0.3 1.0 (0.6 * w + 0.4 * p))]; lra.
Qed.

Lemma skill_match_bounds required developer_skills :
  required ≠ [] →
  0.2 <= calculate_skill_match required developer_skills <= 1.
Proof.
  intros Hreq. unfold calculate_skill_match.
  destruct required as [|r required]; [done |].
  destruct (decide (lowered developer_skills = ∅)); [lra |].
  destruct (decide (size _ = 0%nat)) as [|Hunion]; [lra |].
  set (req := lowered (r :: required)). set (dev := lowered developer_skills).
  fold req dev in Hunion.
  destruct (ratio_bounds (size (req ∩ dev)) (size (req ∪ dev))) as [H0 H1].
  { apply subseteq_size. set_solver. }
  { lia. }
  destruct (py_max_cases 0.2 (inject_Z (Z.of_nat (size (req ∩ dev)))
                              / inject_Z (Z.of_nat (size (req ∪ dev)))))
    as [[? ->]|[? ->]]; lra.
Qed.

(** C3: a recommendation that [_score_developer] returns has its
    confidence in [[0.3, 1.0]], and the skill match of a non-empty list of
    required skills is in [[0.2, 1.0]]. *)
Theorem confidence_and_skill_match_bounds (model : trained_model)
    (t : task) (d : developer) :
  (∀ rec, _score_developer model t d = Ok rec →
          0.3 <= confidence rec <= 1.0) ∧
  (∀ required developer_skills, required ≠ [] →
     0.2 <= calculate_skill_match required developer_skills <= 1.0).
Proof.
  split.
  - intros rec. unfold _score_developer.
    destruct (calculate_workload_score d) as [[ws u] av].
    destruct (str_or _ _); [|done]. intros [= <-]. simpl.
    pose proof (blend_confidence_bounds (weighted_score t d)
      (_predict_probability model (feature_vector t d))).
    unfold score_confidence. lra.
  - intros required developer_skills Hreq.
    pose proof (skill_match_bounds required developer_skills Hreq). lra.
Qed.

Definition sample_task : task :=
  Task (Some "T-1"%string) None ["Python"; "Go"]%string None (Some 3) None.
Definition sample_developer : developer :=
  Developer (Some "u1"%string) None None ["python"; "rust"]%string
    (Some 40) None (Some 8) None None None None None None None None None.

(** C3, on a sample task and developer. *)
Lemma confidence_and_skill_match_bounds_witness :
  (∃ rec, _score_developer None sample_task sample_developer = Ok rec ∧
          0.3 <= confidence rec <= 1.0) ∧
  0.2 <= calculate_skill_match (required_skills sample_task)
           (skills sample_developer) <= 1.0.
Proof.
  destruct (confidence_and_skill_match_bounds None sample_task
              sample_developer) as [Hconf Hskill].
  split.
  - destruct (_score_developer None sample_task sample_developer)
      as [rec|] eqn:Hrec; [|by vm_compute in Hrec].
    exists rec. split; [done |]. by apply Hconf.
  - apply Hskill. done.
Defined.

(** ** The workload score *)

Definition light_developer : developer :=
  Developer (Some "u1"%string) None None [] (Some 40) None (Some 8)
    None None None None None None None None None.

(** C4: for a developer at utilization 0.2 the code returns
    [0.8 * 1.2 = 0.96]; with the 1.3 multiplier that the claim (and the
    comment of the unreachable branch) gives for utilization at most 0.3
    the score would be [min(1, 0.8 * 1.3) = 1]. *)
Lemma workload_score_low_utilization :
  let '(score, utilization, _) := calculate_workload_score light_developer in
  utilization == 0.2 ∧ score == 0.96 ∧
  ¬ score == py_max 0.0 (py_min 1.0 ((1 - utilization) * 1.3)).
Proof. vm_compute. split_and!; [done | done | discriminate]. Qed.

(** The score the code computes: the boost for utilizations up to 0.5 is
    1.2 on the whole range, the branch for 0.3 is never taken. *)
Lemma workload_score_branches (d : developer) :
  let '(score, utilization, _) := calculate_workload_score d in
  score =
  py_max 0.0
    (py_min 1.0
       (if Qle_bool 0.9 utilization then (1.0 - utilization) * 0.2
        else if Qle_bool utilization 0.5 then (1.0 - utilization) * 1.2
        else 1.0 - utilization)).
Proof.
  unfold calculate_workload_score. simpl.
  set (u := _ / _).
  destruct (Qle_bool 0.9 u); [done |].
  destruct (Qle_bool u 0.5) eqn:H5; [done |].
  destruct (Qle_bool u 0.3) eqn:H3; [|done].
  apply Qle_bool_iff in H3.
  assert (u <= 0.5) as H%Qle_bool_iff by lra. congruence.
Qed.

(** ** The fallback probability *)

(** The confidence that [_score_developer] returns without a loaded
    model is the clamp of the heuristic score alone. *)
Definition heuristic_alone (t : task) (d : developer) : Prop :=
  ∀ r, _score_developer None t d = Ok r →
    let skill_match :=
      calculate_skill_match (effective_required_skills t) (skills d) in
    let heuristic :=
      0.3 * skill_match
      + 0.25 * calculate_performance_score d
      + 0.2 * (calculate_workload_score d).1.1
      + 0.1 * calculate_time_pattern_score d
      + 0.1 * _calculate_complexity_alignment
                (default "medium"%string (complexity t)) d
      + 0.05 * default 0.5 (collaboration_index d) in
    confidence r == py_min 1.0 (py_max 0.3 heuristic).

Definition plain_task : task := Task None None [] None None None.

(** C5, as stated, fails: for a developer of capacity 40 the mean of the
    feature vector is above 4, the confidence that [_score_developer]
    returns is 1 and the clamp of the heuristic score is 0.636. *)
Lemma heuristic_alone_fails : ¬ heuristic_alone plain_task light_developer.
Proof.
  intros H.
  destruct (_score_developer None plain_task light_developer) as [r|] eqn:Hr;
    [|by vm_compute in Hr].
  specialize (H r Hr).
  vm_compute in Hr. injection Hr as <-. vm_compute in H. discriminate H.
Qed.

(** C5 (amended): without a loaded model [_predict_probability] returns
    the mean of the nine entries of the feature vector that
    [_score_developer] hands it, and the confidence that
    [_score_developer] returns blends it with the heuristic score:
    [clamp(0.6 * heuristic + 0.4 * probability)], or the baseline
    [clamp(0.35 + 0.3 * heuristic)] when both are below 0.2. *)
Theorem fallback_confidence_blend (t : task) (d : developer)
    (r : recommendation) :
  _score_developer None t d = Ok r →
  let task_complexity := default "medium"%string (complexity t) in
  let skill_match :=
    calculate_skill_match (effective_required_skills t) (skills d) in
  let utilization := (calculate_workload_score d).1.2 in
  let heuristic :=
    0.3 * skill_match
    + 0.25 * calculate_performance_score d
    + 0.2 * (calculate_workload_score d).1.1
    + 0.1 * calculate_time_pattern_score d
    + 0.1 * _calculate_complexity_alignment task_complexity d
    + 0.05 * default 0.5 (collaboration_index d) in
  let probability := _predict_probability None (feature_vector t d) in
  probability ==
    (skill_match
     + inject_Z (Z.of_nat (length (skills d)))
     + utilization
     + default 1 (capacity d)
     + default 0.0 (velocity d)
     + default 0.0 (completion_rate d)
     + default 0.0 (time_accuracy d)
     + default 0.5 (collaboration_index d)
     + _complexity_to_numeric task_complexity) / 9 ∧
  confidence r =
    if Qlt_bool heuristic 0.2 && Qlt_bool probability 0.2
    then py_min 1.0 (py_max 0.3 (0.35 + heuristic * 0.3))
    else py_min 1.0 (py_max 0.3 (0.6 * heuristic + 0.4 * probability)).
Proof.
  intros Hr task_complexity skill_match utilization heuristic probability.
  split.
  - unfold probability, feature_vector, _predict_probability, np_mean, py_sum.
    unfold skill_match, utilization, task_complexity.
    cbv zeta. cbn [fold_left length]. change (inject_Z (Z.of_nat 9)) with 9.
    field.
  - unfold _score_developer in Hr.
    destruct (calculate_workload_score d) as [[workload_score u] availability]
      eqn:Hw.
    destruct (str_or (user_id d) (_id d)) as [uid|]; [|done].
    injection Hr as <-. cbn [confidence].
    unfold heuristic, probability, utilization, skill_match, task_complexity.
    unfold score_confidence, blend_confidence, weighted_score, feature_vector.
    by rewrite Hw.
Qed.

(** The recommendation of the light developer for the plain task. *)
Definition light_recommendation : recommendation :=
  match _score_developer None plain_task light_developer with
  | Ok r => r
  | Raise _ => Recommendation "" 0 0 0 0 0 0
  end.

(** C5 (amended), for the plain task and the light developer: the
    probability is the mean 41.7 / 9 of the feature vector, and the
    confidence is the blend, clamped to 1. *)
Lemma fallback_confidence_blend_witness :
  _predict_probability None (feature_vector plain_task light_developer)
  == 41.7 / 9 ∧
  confidence light_recommendation == 1.
Proof.
  destruct (fallback_confidence_blend plain_task light_developer
              light_recommendation) as [Hp Hc]; [by vm_compute |].
  split.
  - etrans; [exact Hp |]. by vm_compute.
  - rewrite Hc. by vm_compute.
Defined.
End TaskAssignmentSpec.

(** * Sums, means and variances *)

Section variance.
Local Open Scope Q_scope.

Fixpoint qsum (xs : list Q) : Q :=
  match xs with
  | [] => 0
  | x :: xs' => x + qsum xs'
  end.

Definition qlen (xs : list Q) : Q := inject_Z (Z.of_nat (length xs)).

Lemma py_sum_qsum xs : py_sum xs == qsum xs.
Proof.
  unfold py_sum.
  assert (∀ a, fold_left Qplus xs a == a + qsum xs) as H.
  { induction xs as [|x xs IH]; intros a; simpl; [ring |].
    rewrite IH. ring. }
  rewrite H. ring.
Qed.

Lemma qlen_cons x xs : qlen (x :: xs) == 1 + qlen xs.
Proof.
  unfold qlen. cbn [length]. rewrite Nat2Z.inj_succ. unfold Z.succ.
  rewrite inject_Z_plus. ring.
Qed.

Lemma qlen_pos xs : xs ≠ [] → 0 < qlen xs.
Proof.
  intros Hne. destruct xs as [|x xs]; [done |].
  unfold qlen. change 0 with (inject_Z 0). rewrite <-Zlt_Qlt.
  cbn [length]. lia.
Qed.

Lemma qsq_nonneg (y : Q) : 0 <= y * y.
Proof.
  destruct (Qlt_le_dec y 0).
  - assert (y * y == (- y) * (- y)) as -> by ring.
    apply Qmult_le_0_compat; lra.
  - apply Qmult_le_0_compat; lra.
Qed.

Lemma sq_dev_nonneg xs m : 0 <= qsum (map (λ x, (x - m) * (x - m)) xs).
Proof.
  induction xs as [|x xs IH]; cbn [map qsum]; [lra |].
  pose proof (qsq_nonneg (x - m)). lra.
Qed.

Lemma sq_dev_bound xs m :
  (∀ x, x ∈ xs → 0 <= x <= 1) →
  qsum (map (λ x, (x - m) * (x - m)) xs)
  <= qsum xs - 2 * m * qsum xs + qlen xs * (m * m).
Proof.
  induction xs as [|x xs IH]; intros Hxs.
  - unfold qlen. cbn [map qsum length]. change (inject_Z (Z.of_nat 0)) with 0. lra.
  - rewrite qlen_cons. cbn [map qsum].
    assert (0 <= x <= 1) as Hx by (apply Hxs; left).
    assert (∀ y, y ∈ xs → 0 <= y <= 1) as Hxs' by (intros; apply Hxs; by right).
    specialize (IH Hxs').
    assert (0 <= x * (1 - x)) by (apply Qmult_le_0_compat; lra).
    lra.
Qed.

(** The population variance of numbers between 0 and 1 is at most 1/4. *)
Lemma np_var_unit_interval xs :
  xs ≠ [] → (∀ x, x ∈ xs → 0 <= x <= 1) → 0 <= np_var xs <= 1 # 4.
Proof.
  intros Hne Hxs. pose proof (qlen_pos xs Hne) as Hn.
  unfold np_var. set (m := np_mean xs).
  assert (m * qlen xs == qsum xs) as Hm.
  { unfold m, np_mean. fold (qlen xs). rewrite py_sum_qsum. field. lra. }
  assert (np_mean (map (λ x, (x - m) * (x - m)) xs) ==
          qsum (map (λ x, (x - m) * (x - m)) xs) / qlen xs) as ->.
  { unfold np_mean. by rewrite py_sum_qsum, length_map. }
  pose proof (sq_dev_nonneg xs m) as H0.
  pose proof (sq_dev_bound xs m Hxs) as H1.
  split.
  - apply Qle_shift_div_l; [exact Hn | lra].
  - apply Qle_shift_div_r; [exact Hn |].
    rewrite <-Hm in H1.
    assert (0 <= qlen xs * ((m - (1 # 2)) * (m - (1 # 2))))
      by (apply Qmult_le_0_compat; [lra | apply qsq_nonneg]).
    lra.
Qed.
End variance.

(** * The workload balancer *)

Module WorkloadBalancerSpec.
Import TaskAssignment WorkloadBalancer.
Local Open Scope Q_scope.

(** The balance score never falls below 0.75. *)
Definition balance_score_floor (team_state : odict developer) : Prop :=
  0.75 <= calculate_balance_score team_state <= 1.

Definition member_with (uid : string) (cap workload : Q) : developer :=
  Developer (Some uid) None None [] (Some cap) None (Some workload)
    None None None None None None None None None.

(** Two members of capacity 40, one with workload 40 and one whose
    recorded workload is -40: the utilizations are 1 and -1, their
    variance is 1 and the score is 0. *)
Definition skewed_team : odict developer :=
  [ ("u1"%string, member_with "u1" 40 40);
    ("u2"%string, member_with "u2" 40 (-40)) ].

(** C10, as stated, fails on that team. *)
Lemma balance_score_floor_fails :
  skewed_team ≠ [] ∧ ¬ balance_score_floor skewed_team.
Proof.
  split; [done |]. unfold balance_score_floor. intros [H _].
  revert H. vm_compute. intros H. by apply H.
Qed.

Lemma utilization_unit_interval (m : developer) :
  0 <= default 0 (current_workload m) →
  0 <= py_min (default 0 (current_workload m)
               / py_max (default 0.001 (capacity m)) 0.001) 1.0 <= 1.
Proof.
  intros Hw. set (w := default 0 (current_workload m)) in *.
  set (den := py_max _ _).
  assert (0 < den) as Hden.
  { unfold den. destruct (py_max_cases (default 0.001 (capacity m)) 0.001)
      as [[? ->]|[? ->]]; lra. }
  assert (0 <= w / den) as Hq.
  { apply Qle_shift_div_l; [done | lra]. }
  destruct (py_min_cases (w / den) 1.0) as [[? ->]|[? ->]]; lra.
Qed.

(** C10 (amended): on a non-empty team state whose recorded workloads are
    not negative, the balance score is in [[0.75, 1]]. *)
Theorem balance_score_bounds (team_state : odict developer) :
  team_state ≠ [] →
  (∀ uid m, (uid, m) ∈ team_state → 0 <= default 0 (current_workload m)) →
  0.75 <= calculate_balance_score team_state <= 1.
Proof.
  intros Hne Hw. unfold calculate_balance_score.
  set (util := λ '((_, member) : string * developer),
         py_min (default 0 (current_workload member)
                 / py_max (default 0.001 (capacity member)) 0.001) 1.0).
  change (map _ team_state) with (map util team_state).
  destruct (map util team_state) as [|x xs] eqn:Hmap.
  { destruct team_state; done. }
  rewrite <-Hmap.
  destruct (np_var_unit_interval (map util team_state)) as [H0 H1].
  { by rewrite Hmap. }
  { intros y Hy. apply list_elem_of_In, in_map_iff in Hy as ([uid m] & <- & Hin).
    apply list_elem_of_In in Hin. simpl.
    apply utilization_unit_interval. by eapply Hw. }
  destruct (py_max_cases 0.0 (1.0 - np_var (map util team_state)))
    as [[? ->]|[? ->]]; lra.
Qed.

Definition even_team : odict developer :=
  [ ("u1"%string, member_with "u1" 40 10);
    ("u2"%string, member_with "u2" 40 30) ].

(** C10 (amended), on a team with workloads 10 and 30 of 40. *)
Lemma balance_score_bounds_witness :
  0.75 <= calculate_balance_score even_team <= 1.
Proof.
  apply balance_score_bounds; [done |].
  intros uid m Hin. unfold even_team in Hin.
  repeat (apply elem_of_cons in Hin as [[= -> ->]|Hin]; [by vm_compute |]).
  by inversion Hin.
Defined.

(** ** Empty inputs *)

Definition empty_result : balance_result :=
  {| balanced_assignments := []; balance_score := 0.0;
     team_utilization := [] |}.

Lemma balance_workload_empty model tasks team_members :
  tasks = [] ∨ team_members = [] →
  balance_workload model tasks team_members = Ok empty_result.
Proof.
  intros [-> | ->]; [done |]. by destruct tasks.
Qed.
End WorkloadBalancerSpec.

(** * The sprint planner *)

Module SprintPlannerSpec.
Import SprintPlanner.
Local Open Scope Q_scope.

(** ** Sample generators *)

(** A generator that counts its draws: [randbelow n] is the count modulo
    [n], and the beta draws alternate between 0.9 and 0.1. *)
Definition counting_randbelow (n : nat) (s : nat) : nat * nat :=
  (s mod n, S s).
Definition alternating_beta (a b : Q) (s : nat) : Q * nat :=
  (if Nat.even s then 0.9 else 0.1, S s).

Definition one_point_story : story :=
  {| story_id := Some "S-1"%string; id := None; _id := None; title := None;
     story_points := Some 1; points := None; priority := None;
     complexity := None; business_value := None; blocked_by := None;
     dependencies := None; required_skills := None |}.

(** ** Empty inputs *)

Section empty_inputs.
Context {PyRandom NpRandom : Type}.
Variable randbelow : nat → PyRandom → nat * PyRandom.
Variable np_beta : Q → Q → NpRandom → Q * NpRandom.

Lemma sample_loop_nil iterations capacity w :
  sample_loop randbelow np_beta iterations [] capacity [] w = ([], w).
Proof.
  induction iterations as [|n IH]; [done |].
  simpl. destruct w as [py np]. simpl. apply IH.
Qed.

Lemma calculate_sprint_load_no_members selection :
  calculate_sprint_load selection [] = [].
Proof.
  unfold calculate_sprint_load. simpl.
  induction selection as [|s selection IH]; [done |]. apply IH.
Qed.

Lemma suggest_empty_backlog team_capacity team_members w :
  ∃ plan,
    suggest_stories_for_sprint randbelow np_beta [] team_capacity
      team_members w = (Ok plan, w) ∧
    suggested_stories plan = [] ∧
    alternative_selections plan = [] ∧
    total_story_points plan == 0 ∧
    risk_factors plan = [NoMajorRisks].
Proof.
  unfold suggest_stories_for_sprint, optimize_story_selection.
  cbn [map List.filter]. rewrite sample_loop_nil.
  cbn [sorted_desc foldr take drop head default map fst snd].
  eexists. split; [reflexivity |].
  cbn [suggested_stories alternative_selections total_story_points
       risk_factors].
  split_and!; reflexivity.
Qed.

Lemma suggest_empty_roster backlog team_capacity w :
  ∃ plan w',
    suggest_stories_for_sprint randbelow np_beta backlog team_capacity
      [] w = (Ok plan, w') ∧
    suggested_stories plan = [].
Proof.
  unfold suggest_stories_for_sprint.
  destruct (optimize_story_selection _ _ _ _ _ _ _) as [sets w'].
  eexists _, _. split; [done |]. simpl.
  apply calculate_sprint_load_no_members.
Qed.
End empty_inputs.
End SprintPlannerSpec.

(** * Empty inputs across the engine *)

Section empty_input_handling.
Import TaskAssignment WorkloadBalancer SprintPlanner.
Import WorkloadBalancerSpec SprintPlannerSpec.
Local Open Scope Q_scope.

(** An empty task list, backlog or roster makes the call fail with a
    [ValidationError]. *)
Definition rejects_empty_input : Prop :=
  (∀ model tasks team_members,
     tasks = [] ∨ team_members = [] →
     ∃ msg, balance_workload model tasks team_members
            = Raise (ValidationError msg)) ∧
  (∀ (PyRandom NpRandom : Type)
     (randbelow : nat → PyRandom → nat * PyRandom)
     (np_beta : Q → Q → NpRandom → Q * NpRandom)
     (backlog : list story) team_capacity (team_members : list member) w,
     backlog = [] ∨ team_members = [] →
     ∃ msg, (suggest_stories_for_sprint randbelow np_beta
               backlog team_capacity team_members w).1
            = Raise (ValidationError msg)).

(** C7, as stated, fails: [balance_workload] on no task and no member
    returns its empty result. *)
Lemma rejects_empty_input_fails : ¬ rejects_empty_input.
Proof.
  intros [H _]. destruct (H None [] [] (or_introl eq_refl)) as [msg Hmsg].
  discriminate Hmsg.
Qed.

(** C7 (amended): with an empty task list or an empty roster
    [balance_workload] returns the empty result without raising; with an
    empty backlog [suggest_stories_for_sprint] returns a plan with no
    suggested story, no alternative and no points, and with an empty
    roster a plan with no suggested story. *)
Theorem empty_input_returns_empty_plan :
  (∀ model tasks team_members,
     tasks = [] ∨ team_members = [] →
     balance_workload model tasks team_members = Ok empty_result) ∧
  (∀ (PyRandom NpRandom : Type)
     (randbelow : nat → PyRandom → nat * PyRandom)
     (np_beta : Q → Q → NpRandom → Q * NpRandom)
     team_capacity team_members w,
     ∃ plan,
       suggest_stories_for_sprint randbelow np_beta [] team_capacity
         team_members w = (Ok plan, w) ∧
       suggested_stories plan = [] ∧
       alternative_selections plan = [] ∧
       total_story_points plan == 0 ∧
       risk_factors plan = [NoMajorRisks]) ∧
  (∀ (PyRandom NpRandom : Type)
     (randbelow : nat → PyRandom → nat * PyRandom)
     (np_beta : Q → Q → NpRandom → Q * NpRandom)
     backlog team_capacity w,
     ∃ plan w',
       suggest_stories_for_sprint randbelow np_beta backlog team_capacity
         [] w = (Ok plan, w') ∧
       suggested_stories plan = []).
Proof.
  split_and!.
  - apply balance_workload_empty.
  - intros. apply suggest_empty_backlog.
  - intros. apply suggest_empty_roster.
Qed.

(** C7 (amended), on no task and a roster of one member. *)
Lemma empty_input_returns_empty_plan_witness :
  balance_workload None [] [WorkloadBalancerSpec.member_with "u1" 40 8]
  = Ok empty_result.
Proof.
  apply (proj1 empty_input_returns_empty_plan). by left.
Defined.
End empty_input_handling.

(** * Part III: further properties of the engine *)

(** ** The descending sort and ordered dictionaries *)

Section sorted_desc_facts.
Context {A K : Type} (key : A → K) (ltb : K → K → bool).

Lemma insert_desc_perm x l : insert_desc key ltb x l ≡ₚ x :: l.
Proof.
  induction l as [|y l IH]; simpl; [done |].
  destruct (ltb (key x) (key y)); [|done].
  rewrite IH. apply Permutation_swap.
Qed.

Lemma sorted_desc_perm l : sorted_desc key ltb l ≡ₚ l.
Proof.
  induction l as [|x l IH]; simpl; [done |].
  by rewrite insert_desc_perm, IH.
Qed.

Lemma sorted_desc_length l : length (sorted_desc key ltb l) = length l.
Proof. by rewrite sorted_desc_perm. Qed.

(** [x] does not come after [y]: the key of [x] is not below that of
    [y]. *)
Definition not_below (x y : A) : Prop := ltb (key x) (key y) = false.

Hypothesis ltb_asym : ∀ a b, ltb a b = true → ltb b a = false.
Hypothesis not_ltb_trans :
  ∀ a b c, ltb a b = false → ltb b c = false → ltb a c = false.

Lemma insert_desc_sorted x l :
  StronglySorted not_below l →
  StronglySorted not_below (insert_desc key ltb x l).
Proof using ltb_asym not_ltb_trans.
  induction 1 as [|y l Hl IH Hy]; simpl.
  - by repeat constructor.
  - destruct (ltb (key x) (key y)) eqn:Hxy.
    + constructor; [done |].
      rewrite insert_desc_perm. constructor; [|done].
      by apply ltb_asym.
    + constructor; [by constructor |]. constructor; [done |].
      eapply Forall_impl; [exact Hy |]. intros z Hz.
      by eapply not_ltb_trans.
Qed.

Lemma sorted_desc_sorted l : StronglySorted not_below (sorted_desc key ltb l).
Proof using ltb_asym not_ltb_trans.
  induction l as [|x l IH]; simpl; [constructor |].
  by apply insert_desc_sorted.
Qed.
End sorted_desc_facts.

Lemma Qlt_bool_asym a b : Qlt_bool a b = true → Qlt_bool b a = false.
Proof.
  intros H%Qlt_bool_true. unfold Qlt_bool.
  apply negb_false_iff, Qle_bool_iff. by apply Qlt_le_weak.
Qed.

Lemma Qlt_bool_not_trans a b c :
  Qlt_bool a b = false → Qlt_bool b c = false → Qlt_bool a c = false.
Proof.
  intros H1%Qlt_bool_false H2%Qlt_bool_false. unfold Qlt_bool.
  apply negb_false_iff, Qle_bool_iff. by apply Qle_trans with b.
Qed.

Section more_odict_facts.
Context {V : Type}.
Implicit Types (d : odict V) (k : string) (v : V).

Lemma od_set_NoDup k v d : NoDup (od_keys d) → NoDup (od_keys (od_set k v d)).
Proof.
  intros Hnd. rewrite od_keys_set. case_decide; [done |].
  apply NoDup_app. split_and!; [done | | apply NoDup_singleton].
  intros x Hx Hx'%list_elem_of_singleton. by subst.
Qed.

Lemma od_get_elem k v d : od_get k d = Some v → (k, v) ∈ d.
Proof.
  induction d as [|[k0 v0] d IH]; simpl; [done |].
  case_decide; [intros [= ->]; subst; left | right; auto].
Qed.

Lemma od_elem_get k v d : NoDup (od_keys d) → (k, v) ∈ d → od_get k d = Some v.
Proof.
  unfold od_keys. induction d as [|[k0 v0] d IH]; simpl; [by inversion 2 |].
  intros [Hk0 Hnd]%NoDup_cons [[= -> ->]|Hin]%elem_of_cons.
  - by rewrite decide_True.
  - rewrite decide_False; [auto |]. intros ->. apply Hk0.
    apply list_elem_of_In, in_map_iff. exists (k0, v).
    by rewrite <-list_elem_of_In.
Qed.
End more_odict_facts.

Lemma filter_all {A} (P : A → Prop) `{!∀ x, Decision (P x)} (l : list A) :
  (∀ x, P x) → filter P l = l.
Proof.
  intros HP. induction l as [|x l IH]; [done |].
  rewrite filter_cons, decide_True by done. by rewrite IH.
Qed.

Lemma StronglySorted_take {A} (R : relation A) n l :
  StronglySorted R l → StronglySorted R (take n l).
Proof.
  intros Hl. revert n. induction Hl as [|x l Hl IH Hx]; intros [|n]; simpl;
    try constructor; [apply IH |].
  apply Forall_take, Hx.
Qed.

Lemma StronglySorted_impl {A} (R1 R2 : relation A) l :
  (∀ a b, R1 a b → R2 a b) → StronglySorted R1 l → StronglySorted R2 l.
Proof.
  intros HR. induction 1 as [|x l Hl IH Hx]; constructor; [done |].
  eapply Forall_impl; [exact Hx |]. intros y. apply HR.
Qed.

Section ratio_facts.
Local Open Scope Q_scope.

Lemma ratio_eq_one (a b : nat) :
  (0 < b)%nat →
  inject_Z (Z.of_nat a) / inject_Z (Z.of_nat b) == 1 ↔ a = b.
Proof.
  intros Hb.
  assert (¬ inject_Z (Z.of_nat b) == 0) as Hnz.
  { change 0 with (inject_Z 0). rewrite inject_Z_injective. lia. }
  split.
  - intros H1.
    assert (inject_Z (Z.of_nat a) == inject_Z (Z.of_nat b)) as Heq.
    { rewrite <-(Qmult_1_l (inject_Z (Z.of_nat b))), <-H1. by field. }
    unfold Qeq in Heq. simpl in Heq. lia.
  - intros ->. by field.
Qed.

End ratio_facts.

(** * The dependency analyzer: errors, reachability and stored state *)

Module DependencyAnalyzerFacts.
Import DependencyAnalyzer DependencyAnalyzerSpec.
Local Open Scope nat_scope.

Lemma index_of_elem x l i : index_of x l = Some i → x ∈ l.
Proof.
  revert i. induction l as [|y l IH]; intros i; simpl; [done |].
  case_decide as Hxy; [subst; left |].
  destruct (index_of x l) eqn:Hi; [|done]. intros _. right. by eapply IH.
Qed.

(** ** What Kahn's loop leaves on a fresh analyzer *)

Section kahn_result.
Variable ts : list task.
Local Abbreviation K := (od_keys (tasks_by_id ts)).

Lemma kahn_loop_init :
  ∃ order m,
    kahn_loop (length K + size (in_degree (init ts))) (_build_graph ts)
      (KahnState (in_degree (init ts))
         (initial_queue (init ts) (in_degree (init ts))) []) = Some order ∧
    kahn_inv ts [] m [] order.
Proof.
  destruct (kahn_loop_total ts (length K + size (in_degree (init ts)))
              _ _ _ (kahn_inv_init ts)) as (order & m & Hloop & Hinv);
    [simpl; lia |].
  by exists order, m.
Qed.

Lemma length_tasks_keys : length (tasks_by_id ts) = length K.
Proof. unfold od_keys. by rewrite length_map. Qed.

(** An order as long as the task dict holds every task id. *)
Lemma kahn_full_order m order :
  kahn_inv ts [] m [] order → length order = length K →
  ∀ v, v ∈ K → v ∈ order.
Proof.
  intros [_ Hnd _ Hkeys _] Hlen. rewrite app_nil_r in Hnd.
  assert (order ≡ₚ K) as Hperm.
  { apply submseteq_length_Permutation; [|lia].
    apply NoDup_submseteq; [done |].
    intros x Hx. apply Hkeys. by rewrite app_nil_r. }
  intros v Hv. by rewrite Hperm.
Qed.

Lemma full_order_acyclic m order :
  kahn_inv ts [] m [] order → (∀ v, v ∈ K → v ∈ order) → acyclic ts.
Proof.
  intros Hinv Hall.
  assert (∀ A B, depends_on ts A B → B ∈ order) as Htarget.
  { intros A B (t & Ht & <- & _). apply Hall, elem_of_tasks_keys. eauto. }
  assert (∀ x y, tc (depends_on ts) x y →
            ∃ i j, index_of x order = Some i ∧ index_of y order = Some j ∧
                   i < j) as Hlt.
  { induction 1 as [x y H|x y z H _ (j & k & Hj & Hk & Hjk)].
    - eapply kahn_inv_index; eauto.
    - destruct (kahn_inv_index ts m [] order x y Hinv H (Htarget _ _ H))
        as (i & j' & Hi & Hj' & Hij).
      exists i, k. split_and!; [done..|].
      rewrite Hj in Hj'. injection Hj' as <-. lia. }
  intros x (i & j & Hi & Hj & Hij)%Hlt.
  rewrite Hi in Hj. injection Hj as <-. lia.
Qed.

Lemma full_order_listed m order :
  kahn_inv ts [] m [] order → (∀ v, v ∈ K → v ∈ order) →
  dependencies_listed ts.
Proof.
  intros Hinv Hall t d Ht Hd.
  assert (depends_on ts d (task_id t)) as Hdep by (exists t; eauto).
  assert (task_id t ∈ order) as Hin.
  { apply Hall, elem_of_tasks_keys. eauto. }
  destruct (kahn_inv_index ts m [] order d (task_id t) Hinv Hdep Hin)
    as (i & _ & Hi & _).
  apply index_of_elem in Hi. apply elem_of_tasks_keys.
  destruct Hinv as [_ _ _ Hkeys _]. apply Hkeys. by rewrite app_nil_r.
Qed.
End kahn_result.

(** X1: [topological_sort] on a fresh analyzer raises its [ValueError]
    exactly when the task list has a dependency cycle or names a
    dependency that is not a listed task: an unlisted dependency is
    reported as a cycle. *)
Theorem topological_sort_raises_iff (ts : list task) :
  topological_sort (init ts)
  = Some (Raise (ValueError "Cycle detected in dependencies"))
  ↔ ¬ (acyclic ts ∧ dependencies_listed ts).
Proof.
  destruct (kahn_loop_init ts) as (order & m & Hloop & Hinv).
  unfold topological_sort.
  change (tasks (init ts)) with (tasks_by_id ts).
  change (graph (init ts)) with (_build_graph ts).
  rewrite Hloop, length_tasks_keys.
  destruct (decide (length order ≠ length (od_keys (tasks_by_id ts))))
    as [Hne|Heq].
  - split; [|done]. intros _ [Hacyc Hlisted]. apply Hne.
    apply Permutation_length, NoDup_Permutation.
    + destruct Hinv as [_ Hnd _ _ _]. by rewrite app_nil_r in Hnd.
    + apply tasks_keys_NoDup.
    + intros x. split; [|by eapply kahn_complete].
      destruct Hinv as [_ _ _ Hkeys _]. intros Hx. apply Hkeys.
      by rewrite app_nil_r.
  - apply dec_stable in Heq. split; [done |]. intros Hnot. exfalso.
    pose proof (kahn_full_order ts m order Hinv Heq) as Hall.
    apply Hnot. split.
    + by eapply full_order_acyclic.
    + by eapply full_order_listed.
Qed.

(** ** Soundness of the cycle detection *)

Section dfs_sound.
Variable g : odict (list string).

Definition cyclic : Prop := ∃ x, tc (gedge g) x x.

(** What a call of [dfs] on [n] from state [s] guarantees when every id
    on the recursion stack reaches [n]. *)
Definition dfs_sound_at (call : string → dfs_state → option (bool * dfs_state))
  : Prop :=
  ∀ n s b s',
    call n s = Some (b, s') →
    (∀ y, y ∈ rec_stack s → rtc (gedge g) y n) →
    (b = true → cyclic) ∧ (b = false → rec_stack s' ⊆ rec_stack s).

Lemma dfs_loop_sound call nbs node st b st' :
  dfs_sound_at call →
  (∀ n, n ∈ nbs → gedge g node n) →
  (∀ y, y ∈ rec_stack st → rtc (gedge g) y node) →
  dfs_loop call nbs st = Some (b, st') →
  (b = true → cyclic) ∧ (b = false → rec_stack st' ⊆ rec_stack st).
Proof.
  intros Hcall. revert st.
  induction nbs as [|nb nbs IH]; intros st Hnbs Hstack; simpl.
  { intros [= <- <-]. done. }
  assert (gedge g node nb) as Hedge by (apply Hnbs; left).
  destruct (decide (nb ∉ visited st)) as [Hnv|Hv].
  - destruct (call nb st) as [[[] s1]|] eqn:Hc; [| |done].
    + intros [= <- <-]. split; [|done]. intros _.
      apply (Hcall _ _ _ _ Hc); [|done].
      intros y Hy. eapply rtc_r; [by apply Hstack | done].
    + destruct (Hcall _ _ _ _ Hc) as [_ Hsub].
      { intros y Hy. eapply rtc_r; [by apply Hstack | done]. }
      specialize (Hsub eq_refl). intros Hloop.
      destruct (IH s1) as [Ht Hf]; [set_solver | set_solver | done |].
      split; [done |]. intros Hb. specialize (Hf Hb). set_solver.
  - destruct (decide (nb ∈ rec_stack st)) as [Hr|Hr].
    + intros [= <- <-]. split; [|done]. intros _. exists node.
      eapply tc_rtc_r; [by apply tc_once | by apply Hstack].
    + apply IH; [set_solver | done].
Qed.

Lemma dfs_sound fuel : dfs_sound_at (dfs fuel g).
Proof.
  induction fuel as [|fuel IH]; intros n s b s'; simpl; [done |].
  set (st1 := {| visited := {[n]} ∪ visited s;
                 rec_stack := {[n]} ∪ rec_stack s |}).
  destruct (dfs_loop (dfs fuel g) (neighbors g n) st1) as [[b1 s1]|] eqn:Hl;
    [|done].
  intros Heq Hstack.
  destruct (dfs_loop_sound (dfs fuel g) (neighbors g n) n st1 b1 s1 IH)
    as [Ht Hf]; [done | | done |].
  { intros y [->%elem_of_singleton|Hy]%elem_of_union; [done | by apply Hstack]. }
  destruct b1; injection Heq as <- <-.
  - split; [done | done].
  - split; [done |]. intros _. specialize (Hf eq_refl). simpl in *.
    set_solver.
Qed.

Lemma detect_loop_sound fuel nodes st :
  rec_stack st = ∅ → detect_loop fuel g nodes st = Some true → cyclic.
Proof.
  revert st. induction nodes as [|node nodes IH]; intros st Hrec; simpl;
    [done |].
  destruct (decide (node ∉ visited st)); [|by apply IH].
  destruct (dfs fuel g node st) as [[[] s1]|] eqn:Hd; [| |done].
  - intros _. apply (dfs_sound fuel _ _ _ _ Hd); [|done].
    intros y. rewrite Hrec. set_solver.
  - apply IH. destruct (dfs_sound fuel _ _ _ _ Hd) as [_ Hsub].
    { intros y. rewrite Hrec. set_solver. }
    specialize (Hsub eq_refl). set_solver.
Qed.
End dfs_sound.

(** X2: [detect_cycles] on a fresh analyzer answers [True] exactly when the
    dependency relation of the task list has a directed cycle; it never
    reports a cycle on an acyclic list. *)
Theorem detect_cycles_iff_cycle (ts : list task) :
  ∃ b, detect_cycles (init ts) = Some b ∧
       (b = true ↔ ∃ x, tc (depends_on ts) x x).
Proof.
  unfold detect_cycles. simpl.
  destruct (detect_loop_complete (_build_graph ts)) as (b & Hb & Hfalse).
  exists b. split; [done |]. split.
  - intros ->. destruct (detect_loop_sound _ _ _ (DfsState ∅ ∅) eq_refl Hb) as [x Hx].
    exists x. by apply tc_gedge_build_graph.
  - intros [x Hx]. destruct b; [done |]. exfalso.
    apply (Hfalse eq_refl x). by apply tc_gedge_build_graph.
Qed.

(** ** impact_analysis *)

Section impact.
Variable g : odict (list string).
Local Abbreviation U := (graph_nodes g).

Definition unaffected (A : gset string) : gset string := list_to_set U ∖ A.

(** What a call of the inner [dfs] on [cur] that starts with [A] leaves. *)
Definition impact_post (cur : string) (nbs : list string)
    (A A' : gset string) : Prop :=
  A ⊆ A' ∧ (∀ n, n ∈ nbs → n ∈ A') ∧
  ∀ u, u ∈ A' → u ∉ A →
    tc (gedge g) cur u ∧ ∀ v, gedge g u v → v ∈ A'.

Lemma size_unaffected_lt nb (A : gset string) :
  nb ∈ U → nb ∉ A → size (unaffected ({[nb]} ∪ A)) < size (unaffected A).
Proof.
  intros HU Hnb. apply subset_size. unfold unaffected. split; [set_solver |].
  intros Hsub. assert (nb ∈ list_to_set U ∖ A) as Hin by set_solver.
  apply Hsub in Hin. set_solver.
Qed.

Lemma size_unaffected_le (A B : gset string) :
  A ⊆ B → size (unaffected B) ≤ size (unaffected A).
Proof. intros ?. apply subseteq_size. unfold unaffected. set_solver. Qed.

Lemma impact_loop_spec call bound cur nbs A :
  (∀ n B, n ∈ U → size (unaffected B) < bound →
          ∃ B', call n B = Some B' ∧ impact_post n (neighbors g n) B B') →
  (∀ n, n ∈ nbs → gedge g cur n) →
  size (unaffected A) ≤ bound →
  ∃ A', impact_loop call nbs A = Some A' ∧ impact_post cur nbs A A'.
Proof.
  intros Hcall. revert A.
  induction nbs as [|nb nbs IH]; intros A Hnbs Hsize; simpl.
  { exists A. split; [done |]. split_and!; [done | by inversion 1 | done]. }
  assert (gedge g cur nb) as Hedge by (apply Hnbs; left).
  assert (nb ∈ U) as HU by (by eapply neighbors_nodes).
  destruct (decide (nb ∉ A)) as [Hnew|Hold].
  - destruct (Hcall nb ({[nb]} ∪ A)) as (B & -> & HAB & Hn & Hnewer);
      [done | |].
    { pose proof (size_unaffected_lt nb A HU Hnew). lia. }
    destruct (IH B) as (A' & -> & HBA' & Hrest & Hnewest); [set_solver | |].
    { pose proof (size_unaffected_le A B). etrans; [|exact Hsize].
      apply size_unaffected_le. set_solver. }
    exists A'. split; [done |]. split_and!; [set_solver | |].
    { intros n [->|Hin]%elem_of_cons; [set_solver | auto]. }
    intros u Hu HuA.
    destruct (decide (u ∈ B)) as [HuB|HuB]; [|by apply Hnewest].
    destruct (decide (u = nb)) as [->|Hne].
    + split; [by apply tc_once |]. intros v Hv. apply HBA'. by apply Hn.
    + destruct (Hnewer u) as [Htc Hcl]; [done | set_solver |].
      split; [by eapply tc_l | ]. intros v Hv. apply HBA'. by apply Hcl.
  - apply dec_stable in Hold.
    destruct (IH A) as (A' & -> & HAA' & Hrest & Hnewest); [set_solver | done |].
    exists A'. split; [done |]. split_and!; [done | | done].
    intros n [->|Hin]%elem_of_cons; [set_solver | auto].
Qed.

Lemma impact_dfs_spec fuel cur A :
  size (unaffected A) < fuel →
  ∃ A', impact_dfs fuel g cur A = Some A' ∧
        impact_post cur (neighbors g cur) A A'.
Proof.
  revert cur A. induction fuel as [|fuel IH]; intros cur A Hfuel; [lia |].
  simpl. apply (impact_loop_spec _ fuel); [|done | lia].
  intros n B _ HB. by apply IH.
Qed.

Lemma size_unaffected_empty : size (unaffected ∅) ≤ length U.
Proof.
  unfold unaffected. generalize U. intros l.
  etrans; [apply (subseteq_size _ (list_to_set l)); set_solver |].
  induction l as [|x l IH].
  - by rewrite list_to_set_nil, size_empty.
  - rewrite list_to_set_cons, size_union_alt, size_singleton.
    assert (size (list_to_set l ∖ {[x]} : gset string)
            ≤ size (list_to_set l : gset string))
      by (apply subseteq_size; set_solver).
    simpl. lia.
Qed.

Lemma impact_dfs_reachable x :
  ∃ A, impact_dfs (S (length U)) g x ∅ = Some A ∧
       ∀ y, y ∈ A ↔ tc (gedge g) x y.
Proof.
  destruct (impact_dfs_spec (S (length U)) x ∅) as (A & HA & _ & Hnbs & Hnew).
  { pose proof size_unaffected_empty. lia. }
  exists A. split; [done |]. intros y. split.
  - intros Hy. by apply Hnew.
  - assert (∀ u v, u ∈ A → gedge g u v → v ∈ A) as Hclosed.
    { intros u v Hu. by apply Hnew. }
    intros Htc. inversion Htc as [?? Hedge|? z ? Hedge Hrest]; subst.
    + by apply Hnbs.
    + eapply closed_tc; [exact Hclosed | by apply Hnbs | done].
Qed.
End impact.

(** X3: [impact_analysis] returns exactly the ids of the tasks that depend on
    the given task, directly or through other tasks; the task itself is
    among them only when it lies on a dependency cycle. *)
Theorem impact_analysis_reachable (ts : list task) (x : string) :
  ∃ A, impact_analysis (init ts) x = Some A ∧
       ∀ y, y ∈ A ↔ tc (depends_on ts) x y.
Proof.
  unfold impact_analysis. simpl.
  destruct (impact_dfs_reachable (_build_graph ts) x) as (A & HA & Hiff).
  exists A. split; [done |]. intros y.
  by rewrite Hiff, tc_gedge_build_graph.
Qed.

(** ** The in-degrees that parallel_execution leaves *)

Section stored_in_degrees.
Variable ts : list task.
Local Abbreviation K := (od_keys (tasks_by_id ts)).
Local Abbreviation g := (_build_graph ts).

(** The inner loop of [parallel_execution] updates the in-degrees and the
    queue as that of [topological_sort] does. *)
Lemma par_relax_fold node nbs st :
  (p_in_degree (fold_left (par_relax node) nbs st),
   p_queue (fold_left (par_relax node) nbs st))
  = fold_left relax nbs (p_in_degree st, p_queue st).
Proof.
  revert st. induction nbs as [|nb nbs IH]; intros st; [done |].
  simpl. by rewrite IH.
Qed.

Lemma par_loop_total fuel st order :
  kahn_inv ts [] (p_in_degree st) (p_queue st) order →
  length K ≤ fuel + length order →
  ∃ st' order', par_loop fuel g st = Some st' ∧
                kahn_inv ts [] (p_in_degree st') [] order'.
Proof.
  revert st order.
  induction fuel as [|fuel IH]; intros [lvl m queue] order Hinv Hfuel;
    simpl in Hinv.
  - destruct queue as [|c queue]; [simpl; eauto |].
    apply kahn_inv_length in Hinv. simpl in *. lia.
  - destruct queue as [|c queue]; [simpl; eauto |].
    cbn [par_loop p_queue p_level p_in_degree].
    apply (IH _ (order ++ [c])); [|rewrite length_app; simpl; lia].
    pose proof (par_relax_fold c (neighbors g c) (ParState lvl m queue)) as Hf.
    simpl in Hf.
    apply kahn_inv_pop, kahn_inv_relax in Hinv.
    + rewrite <-Hf in Hinv. exact Hinv.
    + intros v Hv. rewrite neighbors_build_graph in Hv.
      apply list_elem_of_In, in_map_iff in Hv as ([a b] & <- & Hin).
      apply list_elem_of_In, list_elem_of_filter in Hin as [_ Hin].
      by apply (edge_target_key ts a).
Qed.

Lemma pending_all_emitted order v :
  (∀ A, (A, v) ∈ edges ts → A ∈ order) → pending ts order v = 0.
Proof.
  intros Hall. destruct (decide (pending ts order v = 0)) as [|Hne]; [done |].
  apply pending_pos in Hne as (A & HA & Hnot). by apply Hall in HA.
Qed.
End stored_in_degrees.

(** Once no in-degree is positive a decrement never gives 0: the loop of
    [topological_sort] emits its initial queue and nothing else. *)
Lemma relax_nonpositive nbs (m : gmap string Z) (queue : list string) :
  (∀ v, deg_get m v ≤ 0)%Z →
  ∃ m', fold_left relax nbs (m, queue) = (m', queue) ∧
        (∀ v, deg_get m' v ≤ 0)%Z.
Proof.
  revert m. induction nbs as [|nb nbs IH]; intros m Hm; simpl; [eauto |].
  assert (∀ v, deg_get (deg_add nb (-1) m) v ≤ 0)%Z as Hm'.
  { intros v. rewrite deg_get_add. case_decide; [|done].
    specialize (Hm v). lia. }
  unfold relax at 2. simpl. rewrite decide_False; [by apply IH |].
  rewrite deg_get_add, decide_True by done. specialize (Hm nb). lia.
Qed.

Lemma kahn_loop_nonpositive fuel g (m : gmap string Z) queue order :
  (∀ v, deg_get m v ≤ 0)%Z → length queue ≤ fuel →
  kahn_loop fuel g (KahnState m queue order) = Some (order ++ queue).
Proof.
  revert m queue order.
  induction fuel as [|fuel IH]; intros m queue order Hm Hfuel.
  - destruct queue; [simpl; by rewrite app_nil_r | simpl in Hfuel; lia].
  - destruct queue as [|c queue]; [simpl; by rewrite app_nil_r |].
    simpl.
    destruct (relax_nonpositive (neighbors g c) m queue Hm) as (m' & -> & Hm').
    rewrite IH; [|done | simpl in Hfuel; lia].
    by rewrite <-app_assoc.
Qed.

(** X4: On an acyclic task list whose dependencies are all listed,
    [parallel_execution] returns and leaves every stored in-degree at 0,
    the tasks and the graph as they were; a [topological_sort] on the
    same analyzer afterwards returns the task ids in the order they were
    listed, whatever their dependencies. *)
Theorem parallel_execution_then_topological_sort (ts : list task) :
  acyclic ts → dependencies_listed ts →
  ∃ levels self',
    parallel_execution (init ts) = Some (levels, self') ∧
    tasks self' = tasks (init ts) ∧ graph self' = graph (init ts) ∧
    (∀ v, deg_get (in_degree self') v = 0%Z) ∧
    topological_sort self' = Some (Ok (od_keys (tasks (init ts)))).
Proof.
  intros Hacyc Hlisted.
  destruct (par_loop_total ts
              (length (od_keys (tasks_by_id ts)) + size (in_degree (init ts)))
              (ParState [] (in_degree (init ts))
                 (initial_queue (init ts) (in_degree (init ts)))) [])
    as (st' & order' & Hloop & Hinv);
    [apply kahn_inv_init | simpl; lia |].
  assert (∀ v, deg_get (p_in_degree st') v = 0%Z) as Hzero.
  { intros v. rewrite (inv_deg _ _ _ _ _ Hinv).
    rewrite pending_all_emitted; [done |].
    intros A (t & Ht & _ & Hd)%elem_of_edges.
    eapply kahn_complete; [done.. |].
    apply elem_of_tasks_keys. by apply (Hlisted t). }
  unfold parallel_execution.
  change (tasks (init ts)) with (tasks_by_id ts).
  change (graph (init ts)) with (_build_graph ts).
  rewrite Hloop. eexists _, _. split; [done |]. simpl.
  split_and!; [done.. |].
  unfold topological_sort. simpl.
  assert (initial_queue
            {| tasks := tasks_by_id ts; graph := _build_graph ts;
               in_degree := p_in_degree st' |} (p_in_degree st')
          = od_keys (tasks_by_id ts)) as ->.
  { unfold initial_queue. simpl. by apply filter_all. }
  rewrite kahn_loop_nonpositive; [|intros v; by rewrite Hzero | lia].
  simpl. rewrite decide_False; [done |].
  intros Hne. apply Hne. unfold od_keys. by rewrite length_map.
Qed.

(** On the layered task list. *)
Lemma parallel_execution_then_topological_sort_witness :
  ∃ levels self',
    parallel_execution (init layered_tasks) = Some (levels, self') ∧
    tasks self' = tasks (init layered_tasks) ∧
    graph self' = graph (init layered_tasks) ∧
    (∀ v, deg_get (in_degree self') v = 0%Z) ∧
    topological_sort self' = Some (Ok (od_keys (tasks (init layered_tasks)))).
Proof.
  exact (parallel_execution_then_topological_sort layered_tasks
           layered_tasks_acyclic layered_tasks_listed).
Defined.

End DependencyAnalyzerFacts.

(** * The capacity allocator: errors, coverage and overloads *)

Module PIOptimizerFacts.
Import PIOptimizer PIOptimizerSpec.
Local Open Scope nat_scope.

(** ** The division in the priority score *)

Lemma calculate_priority_scores_from_cases scores features :
  (Exists (λ f, (points_of f + 1 == 0)%Q) features ∧
   _calculate_priority_scores_from scores features = Raise ZeroDivisionError)
  ∨ (Forall (λ f, ¬ (points_of f + 1 == 0)%Q) features ∧
     ∃ scores', _calculate_priority_scores_from scores features = Ok scores').
Proof.
  revert scores. induction features as [|f fs IH]; intros scores; simpl.
  { right. split; [constructor | eauto]. }
  unfold priority_score.
  destruct (Qeq_bool (points_of f + 1) 0) eqn:Hq.
  - left. split; [|done]. left. by apply Qeq_bool_iff.
  - cbn [mbind pyresult_bind].
    destruct (IH (<[feature_id f :=
                     (priority_weight
                        (lower (default "medium"%string (feature_priority f)))
                      * num_or (default 5 (feature_businessValue f)) 5
                      / (points_of f + 1))%Q]> scores))
      as [[Hex Hr]|[Hall [scores' Hr]]].
    + left. split; [by right | done].
    + right. split; [|eauto]. constructor; [|done].
      intros H%Qeq_bool_iff. congruence.
Qed.

(** On features and sprints that have their keys, [optimize] raises
    [ZeroDivisionError] when some feature has -1 points and returns a plan
    otherwise. *)
Lemma optimize_cases features sprints dependencies :
  (Exists (λ f, (points_of f + 1 == 0)%Q) features ∧
   optimize features sprints dependencies = Some (Raise ZeroDivisionError))
  ∨ (Forall (λ f, ¬ (points_of f + 1 == 0)%Q) features ∧
     ∃ p, optimize features sprints dependencies = Some (Ok p)).
Proof.
  destruct (optimize_total features sprints dependencies) as [r Hr].
  unfold optimize, _calculate_priority_scores in *.
  destruct (calculate_priority_scores_from_cases ∅ features)
    as [[Hex Hs]|[Hall [scores Hs]]]; rewrite Hs in *.
  - left. by split.
  - right. split; [done |].
    destruct (_sort_features_by_priority features scores _); [|done].
    eauto.
Qed.

(** ** The exceptions of [optimize] on dicts *)

Lemma subscript_ids_cases {A} (get_id : A → option string) ds :
  (Exists (λ d, get_id d = None) ds ∧
   subscript_ids get_id ds = Raise (KeyError "id"))
  ∨ (Forall (λ d, is_Some (get_id d)) ds ∧
     ∃ ids, subscript_ids get_id ds = Ok ids).
Proof.
  induction ds as [|d ds IH]; simpl.
  { right. split; [constructor | eauto]. }
  destruct (get_id d) as [i|] eqn:Hd.
  - destruct IH as [[Hex ->]|[Hall [ids ->]]]; cbn [mbind pyresult_bind].
    + left. split; [by right | done].
    + right. split; [|eauto]. constructor; [by rewrite Hd | done].
  - left. split; [by left | done].
Qed.

(** The score loop passes a feature: its priority is not [None] and its
    points are not -1. *)
Definition scores_fine (d : feature_dict) : Prop :=
  fd_priority d ≠ Null ∧ ¬ (points_of (feature_of d) + 1 == 0)%Q.

Lemma calculate_priority_scores_dicts_cases scores features :
  (∃ pre d post, features = pre ++ d :: post ∧ Forall scores_fine pre ∧
     ((fd_priority d = Null ∧
       _calculate_priority_scores_dicts scores features
       = Raise (AttributeError "lower"))
      ∨ (fd_priority d ≠ Null ∧ (points_of (feature_of d) + 1 == 0)%Q ∧
         _calculate_priority_scores_dicts scores features
         = Raise ZeroDivisionError)))
  ∨ (Forall scores_fine features ∧
     ∃ scores', _calculate_priority_scores_dicts scores features = Ok scores').
Proof.
  revert scores. induction features as [|d ds IH]; intros scores.
  { right. split; [constructor | by eexists]. }
  assert (fd_priority d ≠ Null →
          _calculate_priority_scores_dicts scores (d :: ds) =
          score ← priority_score (feature_of d);
          _calculate_priority_scores_dicts
            (<[feature_id (feature_of d) := score]> scores) ds) as Hstep.
  { simpl. by destruct (fd_priority d). }
  assert (fd_priority d = Null ∨ fd_priority d ≠ Null) as [Hnull|Hprio]
    by (destruct (fd_priority d); auto).
  { left. exists [], d, ds. split_and!; [done | constructor |].
    left. split; [done |]. simpl. by rewrite Hnull. }
  rewrite (Hstep Hprio). unfold priority_score.
  destruct (Qeq_bool (points_of (feature_of d) + 1) 0) eqn:Hq;
    cbn [mbind pyresult_bind].
  { left. exists [], d, ds. split_and!; [done | constructor |].
    right. split_and!; [done | by apply Qeq_bool_iff | done]. }
  assert (scores_fine d) as Hfine.
  { split; [done |]. intros H%Qeq_bool_iff. congruence. }
  match goal with
  | |- context [_calculate_priority_scores_dicts ?m ds] =>
      destruct (IH m) as [(pre & d' & post & -> & Hpre & Hd')|[Hall Hok]]
  end.
  - left. exists (d :: pre), d', post. split_and!; [done | by constructor |].
    done.
  - right. split; [by constructor | done].
Qed.

(** X5: What leaves [optimize] on dicts, in the order of the source:
    [KeyError('id')] when a feature has no ["id"]; otherwise the exception
    of the first feature that the score loop does not pass,
    [AttributeError] when its priority is [None] and [ZeroDivisionError]
    when its points are -1; otherwise [KeyError('id')] when a sprint has no
    ["id"]; and on every other input a plan, that of [optimize] on the
    features and sprints read with [.get]. *)
Theorem optimize_dicts_outcome features sprints dependencies :
  (Exists (λ d, fd_id d = None) features ∧
   optimize_dicts features sprints dependencies
   = Some (Raise (KeyError "id")))
  ∨ (Forall (λ d, is_Some (fd_id d)) features ∧
     ∃ pre d post, features = pre ++ d :: post ∧ Forall scores_fine pre ∧
       ((fd_priority d = Null ∧
         optimize_dicts features sprints dependencies
         = Some (Raise (AttributeError "lower")))
        ∨ (fd_priority d ≠ Null ∧ (points_of (feature_of d) + 1 == 0)%Q ∧
           optimize_dicts features sprints dependencies
           = Some (Raise ZeroDivisionError))))
  ∨ (Forall (λ d, is_Some (fd_id d)) features ∧
     Forall scores_fine features ∧
     Exists (λ d, sd_id d = None) sprints ∧
     optimize_dicts features sprints dependencies
     = Some (Raise (KeyError "id")))
  ∨ (Forall (λ d, is_Some (fd_id d)) features ∧
     Forall scores_fine features ∧
     Forall (λ d, is_Some (sd_id d)) sprints ∧
     ∃ p, optimize_dicts features sprints dependencies = Some (Ok p) ∧
          optimize (map feature_of features) (map sprint_of sprints)
            dependencies = Some (Ok p)).
Proof.
  unfold optimize_dicts.
  destruct (subscript_ids_cases fd_id features) as [[Hex ->]|[Hids [ids ->]]].
  { left. by split. }
  right.
  destruct (calculate_priority_scores_dicts_cases ∅ features)
    as [(pre & d & post & Hsplit & Hpre & [[Hnull Hr]|(Hprio & Hq & Hr)])
       |[Hfine [scores ->]]].
  { left. split; [done |]. exists pre, d, post. split_and!; [done..|].
    left. by rewrite Hr. }
  { left. split; [done |]. exists pre, d, post. split_and!; [done..|].
    right. by rewrite Hr. }
  right.
  destruct (subscript_ids_cases sd_id sprints) as [[Hex ->]|[Hsids [sids ->]]].
  { left. by split_and!. }
  right. split_and!; [done..|].
  destruct (optimize_cases (map feature_of features) (map sprint_of sprints)
              dependencies) as [[Hex _]|[_ [p Hp]]].
  - apply Exists_exists in Hex as (f & Hin & Hq).
    apply list_elem_of_In, in_map_iff in Hin as (d & <- & Hd).
    apply list_elem_of_In in Hd.
    rewrite Forall_forall in Hfine. by destruct (Hfine d Hd).
  - by exists p.
Qed.

(** ** The order in which the features are placed *)

Lemma find_feature_Some features fid f :
  find_feature features fid = Some f → f ∈ features ∧ feature_id f = fid.
Proof.
  intros [Hin Heq]%List.find_some. split; [by apply list_elem_of_In |].
  by apply String.eqb_eq.
Qed.

Lemma find_feature_None features fid :
  find_feature features fid = None → fid ∉ map feature_id features.
Proof.
  intros Hnone Hin. apply list_elem_of_In, in_map_iff in Hin as (f & <- & Hf).
  pose proof (List.find_none _ _ Hnone f Hf) as Hf'. simpl in Hf'.
  by rewrite String.eqb_refl in Hf'.
Qed.

Section visit_facts.
Variables (features : list feature) (g : gmap string (list string)).

Definition sorted_ids (st : visit_state) : list string :=
  map feature_id (sorted_list st).

(** The sorted list holds, once each, the features whose ids have been
    visited. *)
Record visit_inv (st : visit_state) : Prop := {
  vi_nodup : NoDup (sorted_ids st);
  vi_features : ∀ f, f ∈ sorted_list st → f ∈ features;
  vi_ids : ∀ x, x ∈ sorted_ids st ↔
                x ∈ visited st ∧ x ∈ map feature_id features;
}.

(** Every feature of the sorted list comes after the features it depends
    on. *)
Definition dependencies_first (l : list feature) : Prop :=
  ∀ pre f post d,
    l = pre ++ f :: post → dep_edge g (feature_id f) d →
    d ∈ map feature_id features → d ∈ map feature_id pre.

Definition visit_post (st st' : visit_state) : Prop :=
  visit_inv st' ∧ visited st ⊆ visited st' ∧
  temp_visited st' = temp_visited st ∧
  ∀ x, x ∈ visited st' → x ∉ visited st → x ∉ temp_visited st.

Definition visit_ok (call : string → visit_state → option visit_state)
  : Prop :=
  ∀ d s s', call d s = Some s' → visit_inv s →
    visit_post s s' ∧ (d ∈ temp_visited s ∨ d ∈ visited s') ∧
    (is_dag g → (∀ x, x ∈ temp_visited s → rtc (dep_edge g) x d) →
     dependencies_first (sorted_list s) →
     dependencies_first (sorted_list s')).

Lemma visit_all_ok call deps fid st st' :
  visit_ok call →
  visit_all call deps st = Some st' → visit_inv st →
  visit_post st st' ∧
  (∀ d, d ∈ deps → d ∈ temp_visited st ∨ d ∈ visited st') ∧
  (is_dag g → (∀ d, d ∈ deps → dep_edge g fid d) →
   (∀ x, x ∈ temp_visited st → rtc (dep_edge g) x fid) →
   dependencies_first (sorted_list st) →
   dependencies_first (sorted_list st')).
Proof.
  intros Hcall. revert st.
  induction deps as [|d deps IH]; intros st; simpl.
  { intros [= <-] Hinv. unfold visit_post.
    split_and!; try done. by inversion 1. }
  destruct (call d st) as [s1|] eqn:Hc; [|done]. intros Hrest Hinv.
  destruct (Hcall _ _ _ Hc Hinv)
    as ((Hinv1 & Hvis1 & Htemp1 & Hnew1) & Hd & Hord1).
  destruct (IH s1 Hrest Hinv1)
    as ((Hinv2 & Hvis2 & Htemp2 & Hnew2) & Hdeps & Hord2).
  unfold visit_post. split_and!.
  - done.
  - set_solver.
  - congruence.
  - intros x Hx Hnx. destruct (decide (x ∈ visited s1)) as [Hx1|Hx1].
    + by apply Hnew1.
    + rewrite <-Htemp1. by apply Hnew2.
  - intros d' [->|Hd']%elem_of_cons.
    + destruct Hd as [?|?]; [by left | right; set_solver].
    + destruct (Hdeps d' Hd') as [?|?]; [left; congruence | by right].
  - intros Hdag Hedges Hstack Hfirst.
    apply Hord2; [done | | |].
    + intros d' Hd'. apply Hedges. by right.
    + intros x Hx. apply Hstack. congruence.
    + apply Hord1; [done | | done].
      intros x Hx. eapply rtc_r; [by apply Hstack |].
      apply Hedges. left.
Qed.

Lemma visit_is_ok fuel : visit_ok (visit fuel features g).
Proof.
  induction fuel as [|fuel IH]; intros fid st st'; simpl; [done |].
  destruct (decide (fid ∈ temp_visited st)) as [Htemp|Htemp].
  { intros [= <-] Hinv. unfold visit_post.
    split_and!; try done. by left. }
  destruct (decide (fid ∈ visited st)) as [Hvis|Hvis].
  { intros [= <-] Hinv. unfold visit_post.
    split_and!; try done. by right. }
  set (st1 := {| sorted_list := sorted_list st; visited := visited st;
                 temp_visited := {[fid]} ∪ temp_visited st |}).
  destruct (visit_all (visit fuel features g) (default [] (g !! fid)) st1)
    as [st2|] eqn:Hall; [|done].
  intros [= <-] Hinv.
  assert (visit_inv st1) as Hinv1 by (by destruct Hinv).
  destruct (visit_all_ok _ _ fid _ _ IH Hall Hinv1)
    as ((Hinv2 & Hvis2 & Htemp2 & Hnew2) & Hdeps & Hord2).
  simpl in Hvis2, Htemp2, Hnew2.
  assert (fid ∉ visited st2) as Hfresh.
  { intros Hin. apply (Hnew2 fid Hin Hvis). set_solver. }
  assert (fid ∉ sorted_ids st2) as Hfresh'.
  { intros Hin%(vi_ids _ Hinv2). by destruct Hin. }
  unfold visit_post. split_and!.
  - destruct (find_feature features fid) as [f|] eqn:Hfind.
    + apply find_feature_Some in Hfind as [Hf Hid].
      split; unfold sorted_ids; simpl.
      * rewrite map_app. simpl. rewrite Hid. apply NoDup_app.
        split_and!; [apply Hinv2 | | apply NoDup_singleton].
        intros x Hx Hx'%list_elem_of_singleton. by subst.
      * intros f' [Hf'|Hf']%elem_of_app; [by apply (vi_features _ Hinv2) |].
        apply list_elem_of_singleton in Hf'. by subst.
      * intros x. rewrite map_app, elem_of_app. simpl.
        rewrite list_elem_of_singleton, Hid.
        pose proof (vi_ids _ Hinv2 x) as Hx. unfold sorted_ids in Hx.
        rewrite Hx. split.
        -- intros [[? ?]| ->]; [set_solver |].
           split; [set_solver |]. rewrite <-Hid.
           apply list_elem_of_In, in_map. by apply list_elem_of_In.
        -- intros [[->%elem_of_singleton|?]%elem_of_union ?]; auto.
    + apply find_feature_None in Hfind.
      split; unfold sorted_ids; simpl.
      * apply Hinv2.
      * apply Hinv2.
      * intros x. pose proof (vi_ids _ Hinv2 x) as Hx.
        unfold sorted_ids in Hx. rewrite Hx. split; [set_solver |].
        intros [[->%elem_of_singleton|?]%elem_of_union ?]; done.
  - simpl. set_solver.
  - simpl. rewrite Htemp2. set_solver.
  - simpl. intros x [->%elem_of_singleton|Hx]%elem_of_union Hnx; [done |].
    specialize (Hnew2 x Hx Hnx). set_solver.
  - right. simpl. set_solver.
  - intros Hdag Hstack Hfirst. simpl.
    assert (dependencies_first (sorted_list st2)) as Hfirst2.
    { apply Hord2; [done | | | done].
      - intros d Hd. exact Hd.
      - simpl. intros x [->%elem_of_singleton|Hx]%elem_of_union;
          [done | by apply Hstack]. }
    destruct (find_feature features fid) as [f|] eqn:Hfind; [|done].
    apply find_feature_Some in Hfind as [Hf Hid].
    intros pre f' post d Hsplit Hedge Hd.
    destruct post as [|x post _] using rev_ind.
    + apply app_inj_tail in Hsplit as [<- <-].
      rewrite Hid in Hedge.
      destruct (Hdeps d Hedge) as [Hd'|Hd'].
      * exfalso. simpl in Hd'. apply (Hdag fid).
        apply elem_of_union in Hd' as [->%elem_of_singleton|Hd'].
        -- by apply tc_once.
        -- eapply tc_rtc_r; [by apply tc_once | by apply Hstack].
      * apply (vi_ids _ Hinv2). by split.
    + rewrite app_comm_cons, app_assoc in Hsplit.
      apply app_inj_tail in Hsplit as [Hsplit _]. by eapply Hfirst2.
Qed.

Lemma visit_in_order_ok fuel ids st st' :
  visit_in_order fuel features g ids st = Some st' →
  visit_inv st → temp_visited st = ∅ →
  visit_inv st' ∧ temp_visited st' = ∅ ∧ visited st ⊆ visited st' ∧
  (∀ x, x ∈ ids → x ∈ visited st') ∧
  (is_dag g → dependencies_first (sorted_list st) →
   dependencies_first (sorted_list st')).
Proof.
  revert st. induction ids as [|fid ids IH]; intros st; simpl.
  { intros [= <-] Hinv Htemp. split_and!; try done. by inversion 1. }
  destruct (decide (fid ∉ visited st)) as [Hnv|Hv].
  - destruct (visit fuel features g fid st) as [s1|] eqn:Hvisit; [|done].
    intros Hrest Hinv Htemp.
    destruct (visit_is_ok fuel _ _ _ Hvisit Hinv)
      as ((Hinv1 & Hvis1 & Htemp1 & _) & Hfid & Hord1).
    destruct (IH s1 Hrest Hinv1) as (Hinv2 & Htemp2 & Hvis2 & Hall & Hord2);
      [congruence |].
    split_and!; [done | done | set_solver | |].
    + intros x [->|Hx]%elem_of_cons; [|auto].
      destruct Hfid as [Hfid|Hfid]; [set_solver | set_solver].
    + intros Hdag Hfirst. apply Hord2; [done |].
      apply Hord1; [done | | done]. intros x. rewrite Htemp. set_solver.
  - apply dec_stable in Hv. intros Hrest Hinv Htemp.
    destruct (IH st Hrest Hinv Htemp) as (Hinv2 & Htemp2 & Hvis2 & Hall & Hord2).
    split_and!; [done.. | | done].
    intros x [->|Hx]%elem_of_cons; [set_solver | auto].
Qed.
End visit_facts.

(** What [_sort_features_by_priority] returns: every distinct feature id
    once, and on a graph without a cycle each feature after the features
    it depends on. *)
Lemma sort_features_spec features scores g sorted :
  _sort_features_by_priority features scores g = Some sorted →
  NoDup (map feature_id sorted) ∧
  (∀ f, f ∈ sorted → f ∈ features) ∧
  (∀ x, x ∈ map feature_id sorted ↔ x ∈ map feature_id features) ∧
  (is_dag g → dependencies_first features g sorted).
Proof.
  unfold _sort_features_by_priority.
  destruct (visit_in_order _ _ _ _ _) as [st|] eqn:Hvisit; [|done].
  intros [= <-].
  destruct (visit_in_order_ok _ _ _ _ _ _ Hvisit)
    as (Hinv & _ & _ & Hall & Hord); [|done |].
  { split; simpl; [constructor | by inversion 1 |].
    intros x. unfold sorted_ids. simpl. set_solver. }
  split_and!; [apply Hinv | apply Hinv | |].
  - intros x. pose proof (vi_ids _ _ Hinv x) as Hx. unfold sorted_ids in Hx.
    rewrite Hx. split; [by intros [_ ?] |]. intros Hin. split; [|done].
    apply Hall. by rewrite sorted_desc_perm.
  - intros Hdag. apply Hord; [done |].
    intros [|??] ????; done.
Qed.

(** ** The allocation loop *)

Lemma choose_sprint_is_Some sprints g st f :
  sprints ≠ [] → is_Some (choose_sprint sprints g st f).
Proof.
  intros Hne. unfold choose_sprint. destruct (scan_sprints _ _ _ _ _ _); [done |].
  destruct sprints; [done | by eexists].
Qed.

Lemma allocate_fold_ids sprints g fs st :
  sprints ≠ [] →
  map featureId (assignments (fold_left (allocate_step sprints g) fs st))
  = map featureId (assignments st) ++ map feature_id fs.
Proof.
  intros Hne. revert st. induction fs as [|f fs IH]; intros st; simpl.
  { by rewrite app_nil_r. }
  rewrite IH. unfold allocate_step.
  destruct (choose_sprint_is_Some sprints g st f Hne) as [s ->]. simpl.
  by rewrite map_app, <-app_assoc.
Qed.

Lemma allocate_fold_nil g fs st :
  fold_left (allocate_step [] g) fs st = st.
Proof. revert st. induction fs as [|f fs IH]; intros st; simpl; [done | apply IH]. Qed.

Lemma optimize_Ok_inv features sprints dependencies p :
  optimize features sprints dependencies = Some (Ok p) →
  ∃ scores sorted,
    _sort_features_by_priority features scores
      (_build_dependency_graph features dependencies) = Some sorted ∧
    plan_assignments p =
      _allocate_features_to_sprints sorted sprints
        (_build_dependency_graph features dependencies) ∧
    plan_warnings p = _check_overloads (plan_assignments p) sprints.
Proof.
  unfold optimize.
  destruct (_calculate_priority_scores features) as [scores|]; [|done].
  destruct (_sort_features_by_priority features scores _) as [sorted|] eqn:Hs;
    [|done].
  simpl. intros [= <-]. by exists scores, sorted.
Qed.





(** X6: With at least one sprint, the plan that [optimize] returns places
    every distinct feature id exactly once, also when no sprint has room
    and when the dependencies are circular. *)
Theorem every_feature_assigned_once features sprints dependencies p :
  sprints ≠ [] →
  optimize features sprints dependencies = Some (Ok p) →
  NoDup (map featureId (plan_assignments p)) ∧
  ∀ x, x ∈ map featureId (plan_assignments p) ↔ x ∈ map feature_id features.
Proof.
  intros Hne (scores & sorted & Hsort & -> & _)%optimize_Ok_inv.
  apply sort_features_spec in Hsort as (Hnd & _ & Hids & _).
  unfold _allocate_features_to_sprints. by rewrite allocate_fold_ids.
Qed.

(** X7: When the dependency graph has no cycle, the plan lists the assignment
    of a feature after those of all the features it depends on: when a
    feature is placed, its dependencies have been placed already. *)
Theorem dependencies_assigned_first features sprints dependencies p
    pre a post d :
  is_dag (_build_dependency_graph features dependencies) →
  sprints ≠ [] →
  optimize features sprints dependencies = Some (Ok p) →
  plan_assignments p = pre ++ a :: post →
  dep_edge (_build_dependency_graph features dependencies) (featureId a) d →
  d ∈ map feature_id features →
  d ∈ map featureId pre.
Proof.
  intros Hdag Hne (scores & sorted & Hsort & Hp & _)%optimize_Ok_inv
    Hsplit Hedge Hd.
  apply sort_features_spec in Hsort as (_ & _ & _ & Hfirst).
  specialize (Hfirst Hdag).
  assert (map featureId (plan_assignments p) = map feature_id sorted) as Hids.
  { rewrite Hp. unfold _allocate_features_to_sprints.
    by rewrite allocate_fold_ids. }
  rewrite Hsplit, map_app in Hids. simpl in Hids.
  symmetry in Hids. apply map_eq_app in Hids as (pre' & rest & -> & Hpre & Hrest).
  apply map_eq_cons in Hrest as (f & post' & -> & Hf & Hpost).
  rewrite <-Hpre. apply (Hfirst pre' f post' d); [done | by rewrite Hf | done].
Qed.

(** X8: Without a sprint the plan is empty: no assignment and no warning. *)
Theorem optimize_no_sprints features dependencies p :
  optimize features [] dependencies = Some (Ok p) →
  plan_assignments p = [] ∧ plan_warnings p = [].
Proof.
  intros (scores & sorted & _ & Hp & Hw)%optimize_Ok_inv.
  unfold _allocate_features_to_sprints in Hp.
  rewrite allocate_fold_nil in Hp. simpl in Hp.
  rewrite Hw, Hp. done.
Qed.

(** ** Overloads *)

(** The points that [_check_overloads] adds up per sprint id. *)
Definition sums (assigned : list assignment) : odict Q :=
  fold_left
    (λ d a, od_set (sprintId a)
              (default 0 (od_get (sprintId a) d) + points a)%Q d)
    assigned [].

Lemma sums_snoc l a :
  sums (l ++ [a])
  = od_set (sprintId a)
      (default 0 (od_get (sprintId a) (sums l)) + points a)%Q (sums l).
Proof. unfold sums. by rewrite fold_left_app. Qed.

Lemma sums_NoDup l : NoDup (od_keys (sums l)).
Proof.
  induction l as [|a l IH] using rev_ind; [constructor |].
  rewrite sums_snoc. by apply od_set_NoDup.
Qed.

Section overloads.
Variables (sprints : list sprint) (g : gmap string (list string)).

(** The loop's own totals agree with those of [_check_overloads], and
    only the first sprint of the list is ever filled beyond its
    capacity. *)
Record alloc_inv (st : alloc_state) : Prop := {
  ai_sums : ∀ sid, default 0%Q (sprint_allocated st !! sid)
                   = default 0%Q (od_get sid (sums (assignments st)));
  ai_cap : ∀ sid v,
    od_get sid (sums (assignments st)) = Some v →
    sprint_id <$> head sprints ≠ Some sid →
    Qle_bool v (default 0%Q (sprint_capacities sprints !! sid)) = true;
}.

Lemma scan_has_capacity caps allocated pts dep_sprints s :
  scan_sprints caps allocated pts dep_sprints sprints None = Some s →
  has_capacity caps allocated pts s = true.
Proof.
  rewrite scan_sprints_find.
  destruct (List.find _ sprints) as [s1|] eqn:Hboth.
  - intros [= <-]. apply List.find_some in Hboth as [_ Hs].
    by apply andb_true_iff in Hs as [? _].
  - intros Hfind. by apply List.find_some in Hfind as [_ ?].
Qed.

Lemma alloc_inv_step st f :
  alloc_inv st → alloc_inv (allocate_step sprints g st f).
Proof.
  intros [Hsums Hcap]. unfold allocate_step.
  destruct (choose_sprint sprints g st f) as [s|] eqn:Hchoose; [|done].
  split; simpl; rewrite sums_snoc; simpl.
  - intros sid. rewrite od_get_set, lookup_insert.
    destruct (decide (sid = sprint_id s)) as [->|Hne].
    + rewrite decide_True by done. simpl. by rewrite Hsums.
    + rewrite decide_False by done. apply Hsums.
  - intros sid v. rewrite od_get_set.
    destruct (decide (sid = sprint_id s)) as [->|Hne]; [|apply Hcap].
    intros [= <-] Hfirst. rewrite <-Hsums.
    unfold choose_sprint in Hchoose.
    destruct (scan_sprints _ _ _ _ _ _) as [s'|] eqn:Hscan.
    + injection Hchoose as ->. by apply scan_has_capacity in Hscan.
    + rewrite Hchoose in Hfirst. done.
Qed.

Lemma alloc_inv_fold fs st :
  alloc_inv st → alloc_inv (fold_left (allocate_step sprints g) fs st).
Proof.
  revert st. induction fs as [|f fs IH]; intros st Hst; simpl; [done |].
  by apply IH, alloc_inv_step.
Qed.

Lemma alloc_inv_initial : alloc_inv (initial_alloc sprints).
Proof.
  split; simpl; [|done].
  assert (∀ (l : list sprint) (m : gmap string Q),
            (∀ sid, default 0%Q (m !! sid) = 0%Q) →
            ∀ sid, default 0%Q
                     (fold_left (λ m s, <[sprint_id s := 0%Q]> m) l m !! sid)
                   = 0%Q) as Hzero.
  { induction l as [|s l IH]; intros m Hm; simpl; [done |].
    apply IH. intros sid. rewrite lookup_insert. by case_decide. }
  intros sid. by apply Hzero.
Qed.
End overloads.

(** X9: Only the first sprint of the list is ever reported as overloaded: a
    feature goes to another sprint only when it fits there, and to the
    first one when it fits nowhere. *)
Theorem only_first_sprint_overloaded features sprints dependencies p w :
  optimize features sprints dependencies = Some (Ok p) →
  w ∈ plan_warnings p →
  ∃ s, head sprints = Some s ∧ w_sprintId w = sprint_id s.
Proof.
  intros (scores & sorted & _ & Hp & Hw)%optimize_Ok_inv.
  rewrite Hw, Hp. unfold _allocate_features_to_sprints.
  set (g := _build_dependency_graph features dependencies).
  pose proof (alloc_inv_fold sprints g sorted _ (alloc_inv_initial sprints))
    as [_ Hcap].
  set (assigned := assignments _) in *.
  unfold _check_overloads. fold (sums assigned).
  intros ([sid alloc] & Hin & Hsome)%list_elem_of_omap.
  apply od_elem_get in Hin; [|apply sums_NoDup].
  destruct (Qlt_bool _ alloc) eqn:Hlt; [|done].
  injection Hsome as <-. simpl.
  destruct (decide (sprint_id <$> head sprints = Some sid)) as [Hfirst|Hfirst].
  - destruct (head sprints) as [s|]; [|done]. injection Hfirst as <-. eauto.
  - exfalso. specialize (Hcap sid alloc Hin Hfirst).
    unfold Qlt_bool in Hlt. by rewrite Hcap in Hlt.
Qed.

(** ** Sample plans *)

Lemma ex_is_dag : is_dag (_build_dependency_graph ex_features ex_dependencies).
Proof.
  apply (ranked_is_dag _ (λ s, if String.eqb s "B" then 1 else 0)).
  apply (bool_decide_unpack _). by vm_compute.
Qed.

Definition ex_plan : plan :=
  match optimize ex_features ex_sprints ex_dependencies with
  | Some (Ok p) => p
  | _ => Plan [] [] 0%Q
  end.

Lemma ex_plan_eq :
  optimize ex_features ex_sprints ex_dependencies = Some (Ok ex_plan).
Proof. by vm_compute. Qed.

(** Both features of the sample are placed, once each. *)
Lemma every_feature_assigned_once_witness :
  NoDup (map featureId (plan_assignments ex_plan)) ∧
  ∀ x, x ∈ map featureId (plan_assignments ex_plan)
       ↔ x ∈ map feature_id ex_features.
Proof.
  apply (every_feature_assigned_once ex_features ex_sprints ex_dependencies);
    [done | by vm_compute].
Defined.

(** In the sample [A] is placed before [B], which depends on it. *)
Lemma dependencies_assigned_first_witness :
  "A"%string ∈ map featureId [make_assignment
                                (Feature "A" None (Some 8%Q) None None None)
                                (Sprint "S1" None (Some 10%Q))].
Proof.
  apply (dependencies_assigned_first ex_features ex_sprints ex_dependencies
           ex_plan _
           (make_assignment (Feature "B" None (Some 3%Q) None None None)
              (Sprint "S0" None (Some 5%Q))) [] "A"%string).
  - exact ex_is_dag.
  - done.
  - by vm_compute.
  - by vm_compute.
  - unfold dep_edge. vm_compute. left.
  - vm_compute. left.
Defined.

(** A plan for no sprint at all. *)
Lemma optimize_no_sprints_witness :
  plan_assignments (Plan [] [] 0.85%Q) = [] ∧
  plan_warnings (Plan [] [] 0.85%Q) = [].
Proof.
  apply (optimize_no_sprints ex_features ex_dependencies). by vm_compute.
Defined.

(** One feature of 8 points and one sprint of capacity 5. *)
Definition tight_features : list feature :=
  [ Feature "A" None (Some 8%Q) None None None ].
Definition tight_sprints : list sprint := [ Sprint "S0" None (Some 5%Q) ].

Definition tight_plan : plan :=
  match optimize tight_features tight_sprints [] with
  | Some (Ok p) => p
  | _ => Plan [] [] 0%Q
  end.

Definition tight_warning : warning :=
  default (Warning "" "" 0%Q 0%Q 0%Q Medium) (head (plan_warnings tight_plan)).

(** The overload of the tight plan is that of its only sprint. *)
Lemma only_first_sprint_overloaded_witness :
  ∃ s, head tight_sprints = Some s ∧ w_sprintId tight_warning = sprint_id s.
Proof.
  apply (only_first_sprint_overloaded tight_features tight_sprints []
           tight_plan tight_warning).
  - by vm_compute.
  - vm_compute. left.
Defined.

(** ** The metrics *)

Section metrics_facts.
Local Open Scope Q_scope.

(** The assignments to one sprint, as [_calculate_metrics] selects
    them. *)
Definition in_sprint (sid : string) (assigned : list assignment)
  : list assignment :=
  List.filter (λ a, String.eqb (sprintId a) sid) assigned.

(** The entry of ["sprintUtilization"] for one sprint. *)
Definition entry_of (assigned : list assignment) (s : sprint)
  : sprint_metrics :=
  let allocated := py_sum (map points (in_sprint (sprint_id s) assigned)) in
  {| sm_allocated := allocated;
     sm_capacity := capacity_of s;
     sm_utilization :=
       py_round (if Qlt_bool 0 (capacity_of s)
                 then allocated / capacity_of s * 100 else 0) 1 |}.

Lemma sprint_utilization_fold assigned sprints features :
  sprintUtilization (_calculate_metrics assigned sprints features)
  = fold_left (λ d s, od_set (sprint_id s) (entry_of assigned s) d) sprints [].
Proof. reflexivity. Qed.

Lemma py_sum_snoc xs x : py_sum (xs ++ [x]) = py_sum xs + x.
Proof. unfold py_sum. by rewrite fold_left_app. Qed.

Lemma in_sprint_snoc sid l a :
  in_sprint sid (l ++ [a])
  = if String.eqb (sprintId a) sid then in_sprint sid l ++ [a]
    else in_sprint sid l.
Proof.
  unfold in_sprint. rewrite List.filter_app. simpl.
  destruct (String.eqb (sprintId a) sid); [done | by rewrite app_nil_r].
Qed.

Lemma in_sprint_nil sid l :
  in_sprint sid l = [] ↔ ¬ ∃ a, a ∈ l ∧ sprintId a = sid.
Proof.
  unfold in_sprint. split.
  - intros Hnil (a & Ha & Hsid).
    assert (In a (List.filter (λ a, String.eqb (sprintId a) sid) l)) as Hin.
    { apply List.filter_In. split; [by apply list_elem_of_In |].
      by apply String.eqb_eq. }
    by rewrite Hnil in Hin.
  - intros Hno. destruct (List.filter _ l) as [|a fl] eqn:Hf; [done |].
    exfalso. apply Hno. exists a.
    assert (In a (List.filter (λ a, String.eqb (sprintId a) sid) l)) as Hin
      by (rewrite Hf; left; done).
    apply List.filter_In in Hin as [Hin Heq].
    split; [by apply list_elem_of_In | by apply String.eqb_eq].
Qed.

Lemma in_sprint_elem sid l :
  in_sprint sid l ≠ [] → ∃ a, a ∈ l ∧ sprintId a = sid.
Proof.
  unfold in_sprint. destruct (List.filter _ l) as [|a fl] eqn:Hf; [done |].
  intros _. exists a.
  assert (In a (List.filter (λ a, String.eqb (sprintId a) sid) l)) as Hin
    by (rewrite Hf; left; done).
  apply List.filter_In in Hin as [Hin Heq].
  split; [by apply list_elem_of_In | by apply String.eqb_eq].
Qed.

(** The totals of [_check_overloads] are those of [_calculate_metrics]:
    a sprint id has a total when an assignment names it, and the total
    is the sum of the points of its assignments, added in the same
    order. *)
Lemma sums_get assigned sid :
  od_get sid (sums assigned) =
  match in_sprint sid assigned with
  | [] => None
  | l => Some (py_sum (map points l))
  end.
Proof.
  induction assigned as [|a l IH] using rev_ind; [done |].
  rewrite sums_snoc, od_get_set, in_sprint_snoc.
  destruct (String.eqb (sprintId a) sid) eqn:Heq.
  - apply String.eqb_eq in Heq. subst sid. rewrite decide_True by done.
    rewrite IH. destruct (in_sprint (sprintId a) l) as [|b fl]; [done |].
    change ((b :: fl) ++ [a]) with (b :: (fl ++ [a])).
    cbn [default]. f_equal.
    change (b :: (fl ++ [a])) with ((b :: fl) ++ [a]).
    rewrite map_app. change (map points [a]) with [points a].
    by rewrite py_sum_snoc.
  - apply String.eqb_neq in Heq. rewrite decide_False by done. exact IH.
Qed.

Lemma utilization_get assigned sprints sid e :
  od_get sid
    (fold_left (λ d s, od_set (sprint_id s) (entry_of assigned s) d)
       sprints []) = Some e →
  sm_allocated e = py_sum (map points (in_sprint sid assigned)) ∧
  sprint_capacities sprints !! sid = Some (sm_capacity e).
Proof.
  unfold sprint_capacities.
  induction sprints as [|s l IH] using rev_ind; [done |].
  rewrite !fold_left_app. simpl. rewrite od_get_set, lookup_insert.
  destruct (decide (sid = sprint_id s)) as [->|Hne].
  - rewrite decide_True by done. by intros [= <-].
  - rewrite decide_False by done. exact IH.
Qed.

Lemma warning_spec assigned sprints w :
  w ∈ _check_overloads assigned sprints →
  ∃ alloc,
    od_get (w_sprintId w) (sums assigned) = Some alloc ∧
    w_allocated w = alloc ∧
    w_capacity w
    = default 0 (sprint_capacities sprints !! w_sprintId w) ∧
    w_capacity w < alloc.
Proof.
  unfold _check_overloads. fold (sums assigned).
  intros ([sid alloc] & Hin & Hsome)%list_elem_of_omap.
  apply od_elem_get in Hin; [|apply sums_NoDup].
  destruct (Qlt_bool _ alloc) eqn:Hlt; [|done].
  injection Hsome as <-. simpl. exists alloc.
  split_and!; [done.. |]. by apply Qlt_bool_true.
Qed.

Lemma warning_exists assigned sprints sid alloc :
  od_get sid (sums assigned) = Some alloc →
  default 0 (sprint_capacities sprints !! sid) < alloc →
  ∃ w, w ∈ _check_overloads assigned sprints ∧ w_sprintId w = sid.
Proof.
  intros Hget Hlt. unfold _check_overloads. fold (sums assigned).
  apply od_get_elem in Hget.
  assert (Qlt_bool (default 0 (sprint_capacities sprints !! sid)) alloc = true)
    as Hb.
  { unfold Qlt_bool. apply negb_true_iff.
    destruct (Qle_bool alloc _) eqn:Hle; [|done].
    apply Qle_bool_iff in Hle. lra. }
  eexists. split.
  - apply list_elem_of_omap. exists (sid, alloc). split; [done |].
    simpl. rewrite Hb. reflexivity.
  - done.
Qed.
End metrics_facts.

(** X29: The warnings agree with the metrics.  For a sprint id with an entry
    in ["sprintUtilization"], [_check_overloads] warns about it exactly
    when the entry shows more points allocated than the capacity and
    some assignment names the sprint; the warning then carries the
    allocated points and the capacity of the entry. *)
Theorem overload_warnings_match_metrics (assigned : list assignment)
    (sprints : list sprint) (features : list feature)
    (sid : string) (e : sprint_metrics) :
  od_get sid
    (sprintUtilization (_calculate_metrics assigned sprints features))
  = Some e →
  ((∃ w, w ∈ _check_overloads assigned sprints ∧ w_sprintId w = sid) ↔
   (sm_capacity e < sm_allocated e)%Q ∧
   ∃ a, a ∈ assigned ∧ sprintId a = sid) ∧
  ∀ w, w ∈ _check_overloads assigned sprints → w_sprintId w = sid →
       w_allocated w = sm_allocated e ∧ w_capacity w = sm_capacity e.
Proof.
  rewrite sprint_utilization_fold.
  intros (Halloc & Hcap)%utilization_get.
  assert (∀ w, w ∈ _check_overloads assigned sprints → w_sprintId w = sid →
               w_allocated w = sm_allocated e ∧ w_capacity w = sm_capacity e ∧
               in_sprint sid assigned ≠ [] ∧
               (sm_capacity e < sm_allocated e)%Q) as Hw.
  { intros w (alloc & Hget & Hwa & Hwc & Hlt)%warning_spec <-.
    rewrite Hcap in Hwc. simpl in Hwc. rewrite sums_get in Hget.
    destruct (in_sprint (w_sprintId w) assigned) as [|b fl] eqn:Hin;
      [done |].
    injection Hget as <-. rewrite Halloc, Hwa, Hwc in *. done. }
  split.
  - split.
    + intros (w & Hin & Hsid).
      destruct (Hw w Hin Hsid) as (_ & _ & Hne & Hlt). split; [done |].
      by apply in_sprint_elem.
    + intros [Hlt Hex].
      apply (warning_exists assigned sprints sid (sm_allocated e)).
      * rewrite sums_get, Halloc.
        destruct (in_sprint sid assigned) as [|b fl] eqn:Hin; [|done].
        exfalso. by apply in_sprint_nil in Hin.
      * by rewrite Hcap.
  - intros w Hin Hsid. by destruct (Hw w Hin Hsid) as (? & ? & _).
Qed.

(** The sprint of the tight plan in the metrics. *)
Definition tight_entry : sprint_metrics :=
  default (SprintMetrics 0 0 0)
    (od_get "S0"%string
       (sprintUtilization
          (_calculate_metrics (plan_assignments tight_plan) tight_sprints
             tight_features))).

Lemma overload_warnings_match_metrics_witness :
  ((∃ w, w ∈ _check_overloads (plan_assignments tight_plan) tight_sprints ∧
         w_sprintId w = "S0"%string) ↔
   (sm_capacity tight_entry < sm_allocated tight_entry)%Q ∧
   ∃ a, a ∈ plan_assignments tight_plan ∧ sprintId a = "S0"%string) ∧
  ∀ w, w ∈ _check_overloads (plan_assignments tight_plan) tight_sprints →
       w_sprintId w = "S0"%string →
       w_allocated w = sm_allocated tight_entry ∧
       w_capacity w = sm_capacity tight_entry.
Proof.
  apply (overload_warnings_match_metrics _ tight_sprints tight_features).
  by vm_compute.
Defined.

(** ** No point is lost *)

Section conservation.
Local Open Scope Q_scope.

Lemma qsum_perm l l' : l ≡ₚ l' → qsum l == qsum l'.
Proof. induction 1; simpl; lra. Qed.

Lemma NoDup_map_1 {A B} (f : A → B) l : NoDup (map f l) → NoDup l.
Proof.
  induction l as [|x l IH]; simpl; [constructor |].
  intros [Hx Hl]%NoDup_cons. constructor; [|auto].
  intros Hin. apply Hx, list_elem_of_In, in_map. by apply list_elem_of_In.
Qed.

Lemma NoDup_map_inj {A B} (f : A → B) l x y :
  NoDup (map f l) → x ∈ l → y ∈ l → f x = f y → x = y.
Proof.
  induction l as [|z l IH]; simpl; [by inversion 2 |].
  intros [Hz Hl]%NoDup_cons [->|Hx]%elem_of_cons [->|Hy]%elem_of_cons Heq;
    [done | | | by apply IH].
  - exfalso. apply Hz. rewrite Heq. apply list_elem_of_In, in_map.
    by apply list_elem_of_In.
  - exfalso. apply Hz. rewrite <-Heq. apply list_elem_of_In, in_map.
    by apply list_elem_of_In.
Qed.

(** With distinct feature ids the features are placed in a permutation
    of their list. *)
Lemma sorted_features_perm features scores g sorted :
  NoDup (map feature_id features) →
  _sort_features_by_priority features scores g = Some sorted →
  sorted ≡ₚ features.
Proof.
  intros Hnd (Hnds & Hsub & Hids & _)%sort_features_spec.
  apply NoDup_Permutation; [by eapply NoDup_map_1.. |].
  intros f. split; [apply Hsub |]. intros Hf.
  assert (feature_id f ∈ map feature_id sorted) as Hid.
  { apply Hids, list_elem_of_In, in_map. by apply list_elem_of_In. }
  apply list_elem_of_In, in_map_iff in Hid as (f' & Heq & Hf').
  apply list_elem_of_In in Hf'.
  rewrite <-(NoDup_map_inj feature_id features f' f Hnd); auto.
Qed.

Lemma od_set_fresh {V} k (v : V) (d : odict V) :
  k ∉ od_keys d → od_set k v d = d ++ [(k, v)].
Proof.
  unfold od_keys. induction d as [|[k0 v0] d IH]; simpl; [done |].
  intros Hk. rewrite decide_False by set_solver. f_equal. apply IH. set_solver.
Qed.

Lemma utilization_map assigned sprints d :
  NoDup (od_keys d ++ map sprint_id sprints) →
  fold_left (λ d s, od_set (sprint_id s) (entry_of assigned s) d) sprints d
  = d ++ map (λ s, (sprint_id s, entry_of assigned s)) sprints.
Proof.
  revert d. induction sprints as [|s sprints IH]; intros d Hnd; simpl.
  { by rewrite app_nil_r. }
  rewrite od_set_fresh.
  - rewrite IH; [by rewrite <-app_assoc |].
    unfold od_keys in *. rewrite map_app. simpl. by rewrite <-app_assoc.
  - apply NoDup_app in Hnd as (_ & Hdis & _). intros Hin.
    apply (Hdis _ Hin). left.
Qed.

(** The points that the assignments give one sprint. *)
Definition allocated_in (assigned : list assignment) (s : sprint) : Q :=
  qsum (map points (in_sprint (sprint_id s) assigned)).

Lemma allocated_in_cons a l s :
  allocated_in (a :: l) s
  == (if String.eqb (sprintId a) (sprint_id s) then points a else 0)
     + allocated_in l s.
Proof.
  unfold allocated_in, in_sprint. simpl.
  destruct (String.eqb (sprintId a) (sprint_id s)); simpl; lra.
Qed.

Lemma allocated_other a l sprints :
  sprintId a ∉ map sprint_id sprints →
  qsum (map (allocated_in (a :: l)) sprints)
  == qsum (map (allocated_in l) sprints).
Proof.
  induction sprints as [|s sprints IH]; simpl; [done |].
  intros Hnot. rewrite allocated_in_cons, IH by set_solver.
  destruct (String.eqb (sprintId a) (sprint_id s)) eqn:Heq; [|lra].
  apply String.eqb_eq in Heq. exfalso. apply Hnot. rewrite Heq. left.
Qed.

Lemma allocated_bump a l sprints :
  NoDup (map sprint_id sprints) → sprintId a ∈ map sprint_id sprints →
  qsum (map (allocated_in (a :: l)) sprints)
  == points a + qsum (map (allocated_in l) sprints).
Proof.
  induction sprints as [|s sprints IH]; simpl; [by inversion 2 |].
  intros [Hs Hnd]%NoDup_cons Hin. rewrite allocated_in_cons.
  destruct (String.eqb (sprintId a) (sprint_id s)) eqn:Heq.
  - apply String.eqb_eq in Heq. rewrite allocated_other; [lra |].
    by rewrite Heq.
  - apply String.eqb_neq in Heq.
    apply elem_of_cons in Hin as [?|Hin]; [done |].
    rewrite IH by done. lra.
Qed.

Lemma allocated_partition assigned sprints :
  NoDup (map sprint_id sprints) →
  (∀ a, a ∈ assigned → sprintId a ∈ map sprint_id sprints) →
  qsum (map (allocated_in assigned) sprints) == qsum (map points assigned).
Proof.
  intros Hnd. induction assigned as [|a l IH]; intros Hin; simpl.
  - clear. induction sprints as [|s sprints IH]; simpl; [done |].
    rewrite IH. unfold allocated_in. simpl. lra.
  - rewrite allocated_bump; [|done | apply Hin; left].
    rewrite IH; [done |]. intros a' Ha'. apply Hin. by right.
Qed.

Lemma choose_sprint_elem sprints g st f s :
  choose_sprint sprints g st f = Some s → s ∈ sprints.
Proof.
  unfold choose_sprint. rewrite scan_sprints_find.
  destruct (List.find _ sprints) as [s1|] eqn:Hboth.
  - intros [= <-]. apply List.find_some in Hboth as [Hin _].
    by apply list_elem_of_In.
  - destruct (List.find (has_capacity _ _ _) sprints) as [s2|] eqn:Hroom.
    + intros [= <-]. apply List.find_some in Hroom as [Hin _].
      by apply list_elem_of_In.
    + destruct sprints as [|s0 sprints']; [done |].
      intros [= <-]. left.
Qed.

Lemma allocate_fold_points sprints g fs st :
  sprints ≠ [] →
  map points (assignments (fold_left (allocate_step sprints g) fs st))
  = map points (assignments st) ++ map points_of fs.
Proof.
  intros Hne. revert st. induction fs as [|f fs IH]; intros st; simpl.
  { by rewrite app_nil_r. }
  rewrite IH. unfold allocate_step.
  destruct (choose_sprint_is_Some sprints g st f Hne) as [s ->]. simpl.
  by rewrite map_app, <-app_assoc.
Qed.

Lemma allocate_fold_sprints sprints g fs st :
  (∀ a, a ∈ assignments st → sprintId a ∈ map sprint_id sprints) →
  ∀ a, a ∈ assignments (fold_left (allocate_step sprints g) fs st) →
       sprintId a ∈ map sprint_id sprints.
Proof.
  revert st. induction fs as [|f fs IH]; intros st Hst; simpl; [done |].
  apply IH. unfold allocate_step.
  destruct (choose_sprint sprints g st f) as [s|] eqn:Hs; [|done].
  simpl. intros a [Ha| ->%list_elem_of_singleton]%elem_of_app; [auto |].
  simpl. apply list_elem_of_In, in_map, list_elem_of_In.
  by eapply choose_sprint_elem.
Qed.
End conservation.

(** A number without a fractional part, such as a count of story
    points. *)
Definition integral (x : Q) : Prop := ∃ z : Z, (x == inject_Z z)%Q.

Lemma qsum_integral xs : Forall integral xs → integral (qsum xs).
Proof.
  induction 1 as [|x xs [z Hz] _ [zs Hzs]]; simpl.
  - by exists 0%Z.
  - exists (z + zs)%Z. rewrite inject_Z_plus, Hz, Hzs. reflexivity.
Qed.

(** X30: With at least one sprint, distinct feature ids, distinct sprint ids
    and feature points that are whole numbers, the metrics of a plan
    account for every point: the allocated points of the entries of
    ["sprintUtilization"] are whole numbers that add up to ["totalPoints"],
    the points of all the features. *)
Theorem metrics_account_for_all_points features sprints dependencies p :
  sprints ≠ [] →
  NoDup (map feature_id features) → NoDup (map sprint_id sprints) →
  Forall (λ f, integral (points_of f)) features →
  optimize features sprints dependencies = Some (Ok p) →
  let m := _calculate_metrics (plan_assignments p) sprints features in
  Forall (λ e, integral (sm_allocated e.2)) (sprintUtilization m) ∧
  integral (totalPoints m) ∧
  (qsum (map (λ e, sm_allocated e.2) (sprintUtilization m))
   == totalPoints m)%Q.
Proof.
  intros Hne Hfeat Hspr Hint
    (scores & sorted & Hsort & Hp & _)%optimize_Ok_inv m.
  assert (map points (plan_assignments p) = map points_of sorted) as Hpts.
  { rewrite Hp. unfold _allocate_features_to_sprints.
    by rewrite allocate_fold_points. }
  assert (Forall integral (map points_of sorted)) as Hsorted.
  { apply Forall_forall. intros x Hx.
    apply list_elem_of_In, in_map_iff in Hx as (f & <- & Hf).
    rewrite Forall_forall in Hint. apply Hint.
    apply (sort_features_spec _ _ _ _ Hsort). by apply list_elem_of_In. }
  unfold m. rewrite sprint_utilization_fold, utilization_map by done.
  cbn [app totalPoints _calculate_metrics].
  split_and!.
  - apply Forall_forall. intros e He.
    apply list_elem_of_In, in_map_iff in He as (s & <- & _).
    cbn [snd entry_of sm_allocated].
    destruct (qsum_integral (map points (in_sprint (sprint_id s)
                                           (plan_assignments p)))) as [z Hz].
    { apply Forall_forall. intros x Hx.
      apply list_elem_of_In, in_map_iff in Hx as (a & <- & Ha).
      apply list_elem_of_In in Ha. unfold in_sprint in Ha.
      apply list_elem_of_In, filter_In in Ha as [Ha _].
      rewrite Forall_forall in Hsorted. apply Hsorted. rewrite <-Hpts.
      by apply list_elem_of_In, in_map. }
    exists z. by rewrite py_sum_qsum.
  - destruct (qsum_integral (map points_of features)) as [z Hz].
    { apply Forall_forall. intros x Hx.
      apply list_elem_of_In, in_map_iff in Hx as (f & <- & Hf).
      rewrite Forall_forall in Hint. apply Hint. by apply list_elem_of_In. }
    exists z. by rewrite py_sum_qsum.
  - rewrite map_map. cbn [snd].
    rewrite py_sum_qsum.
    rewrite <-(qsum_perm _ _ (Permutation_map points_of
                                (sorted_features_perm _ _ _ _ Hfeat Hsort))).
    rewrite <-Hpts, <-allocated_partition; [|done |].
    + clear. induction sprints as [|s sprints IH]; simpl; [done |].
      rewrite IH. unfold allocated_in. by rewrite py_sum_qsum.
    + rewrite Hp. unfold _allocate_features_to_sprints.
      apply allocate_fold_sprints. intros a Ha. by inversion Ha.
Qed.

(** The sample features have 8 and 3 points. *)
Lemma metrics_account_for_all_points_witness :
  let m := _calculate_metrics (plan_assignments ex_plan) ex_sprints
             ex_features in
  Forall (λ e, integral (sm_allocated e.2)) (sprintUtilization m) ∧
  integral (totalPoints m) ∧
  (qsum (map (λ e, sm_allocated e.2) (sprintUtilization m))
   == totalPoints m)%Q.
Proof.
  apply (metrics_account_for_all_points ex_features ex_sprints
           ex_dependencies ex_plan).
  - done.
  - apply (bool_decide_unpack _). by vm_compute.
  - apply (bool_decide_unpack _). by vm_compute.
  - repeat constructor; [by exists 8%Z | by exists 3%Z].
  - exact ex_plan_eq.
Defined.

End PIOptimizerFacts.

(** * Rounding *)

Section rounding_facts.
Local Open Scope Q_scope.

Lemma round_half_even_bounds x :
  (Qfloor x ≤ round_half_even x ≤ Qfloor x + 1)%Z.
Proof.
  unfold round_half_even. cbv zeta. repeat case_match; lia.
Qed.

Lemma round_half_even_mono x y :
  x <= y → (round_half_even x ≤ round_half_even y)%Z.
Proof.
  intros Hxy. pose proof (Qfloor_resp_le x y Hxy) as Hf.
  destruct (decide (Qfloor x = Qfloor y)) as [Heq|Hne].
  - unfold round_half_even. cbv zeta. rewrite Heq.
    destruct (Qlt_bool (x - inject_Z (Qfloor y)) (1 # 2)) eqn:Hx1;
      destruct (Qlt_bool (y - inject_Z (Qfloor y)) (1 # 2)) eqn:Hy1;
      destruct (Qlt_bool (1 # 2) (x - inject_Z (Qfloor y))) eqn:Hx2;
      destruct (Qlt_bool (1 # 2) (y - inject_Z (Qfloor y))) eqn:Hy2;
      destruct (Z.even (Qfloor y)); try lia; exfalso;
      repeat match goal with
             | H : Qlt_bool _ _ = true |- _ => apply Qlt_bool_true in H
             | H : Qlt_bool _ _ = false |- _ => apply Qlt_bool_false in H
             end; lra.
  - pose proof (round_half_even_bounds x). pose proof (round_half_even_bounds y).
    lia.
Qed.

Lemma py_round_mono x y n : x <= y → py_round x n <= py_round y n.
Proof.
  intros Hxy. unfold py_round.
  assert (0 < inject_Z (10 ^ Z.of_nat n)) as Hscale.
  { change 0 with (inject_Z 0). rewrite <-Zlt_Qlt. apply Z.pow_pos_nonneg; lia. }
  apply Qmult_le_compat_r.
  - rewrite <-Zle_Qle. apply round_half_even_mono.
    apply Qmult_le_compat_r; [done | lra].
  - apply Qlt_le_weak, Qinv_lt_0_compat, Hscale.
Qed.

(** Rounding to two decimals keeps a value between 0.3 and 1 there. *)
Lemma py_round_2_bounds x : 0.3 <= x <= 1 → 0.3 <= py_round x 2 <= 1.
Proof.
  intros [Hlo Hhi]. split.
  - apply Qle_trans with (py_round 0.3 2);
      [by vm_compute | by apply py_round_mono].
  - apply Qle_trans with (py_round 1 2);
      [by apply py_round_mono | by vm_compute].
Qed.
End rounding_facts.

(** * The assignee scorer: skill match, workload score and ranking *)

Module TaskAssignmentFacts.
Import TaskAssignment TaskAssignmentSpec.
Local Open Scope Q_scope.

(** ** The skill match *)

Lemma lowered_cons_nonempty r required : lowered (r :: required) ≠ ∅.
Proof. unfold lowered. simpl. set_solver. Qed.

(** X10: For a task with required skills the skill match is 1 exactly when the
    developer's skills, compared without case, are the required ones and
    no others: a developer who has more than the required skills scores
    lower. *)
Theorem skill_match_full_iff (required developer_skills : list string) :
  required ≠ [] →
  calculate_skill_match required developer_skills == 1
  ↔ lowered required = lowered developer_skills.
Proof.
  intros Hreq. unfold calculate_skill_match.
  destruct required as [|r required]; [done |].
  pose proof (lowered_cons_nonempty r required) as Hne.
  set (req := lowered (r :: required)) in *.
  set (dev := lowered developer_skills).
  destruct (decide (dev = ∅)) as [Hdev|Hdev].
  { split; [intros H; by vm_compute in H | congruence]. }
  destruct (decide (size (req ∪ dev) = 0%nat)) as [Hunion|Hunion].
  { split; [intros H; by vm_compute in H |]. intros _.
    apply size_empty_iff in Hunion. set_solver. }
  assert (size (req ∩ dev) ≤ size (req ∪ dev))%nat as Hle
    by (apply subseteq_size; set_solver).
  destruct (ratio_bounds (size (req ∩ dev)) (size (req ∪ dev)) Hle
              ltac:(lia)) as [H0 H1].
  assert (size (req ∩ dev) = size (req ∪ dev) ↔ req = dev) as <-.
  { split.
    - intros Hsize.
      assert (req ∩ dev = req ∪ dev) as Heq.
      { apply set_subseteq_size_eq; [set_solver | lia]. }
      set_solver.
    - intros ->. f_equal. set_solver. }
  rewrite <-(ratio_eq_one (size (req ∩ dev)) (size (req ∪ dev))) by lia.
  destruct (py_max_cases 0.2 (inject_Z (Z.of_nat (size (req ∩ dev)))
                              / inject_Z (Z.of_nat (size (req ∪ dev)))))
    as [[Hlt ->]|[Hge ->]]; [done |].
  split; intros H; exfalso; lra.
Qed.

(** ["Python"] against ["python"]. *)
Lemma skill_match_full_iff_witness :
  calculate_skill_match ["Python"%string] ["python"%string] == 1
  ↔ lowered ["Python"%string] = lowered ["python"%string].
Proof. by apply (skill_match_full_iff ["Python"%string] ["python"%string]). Defined.

(** ** The workload score *)

(** The workload score as a function of the utilization. *)
Definition score_of_utilization (u : Q) : Q :=
  py_max 0.0
    (py_min 1.0
       (if Qle_bool 0.9 u then (1.0 - u) * 0.2
        else if Qle_bool u 0.5 then (1.0 - u) * 1.2
        else 1.0 - u)).

Lemma workload_score_of_utilization d :
  (calculate_workload_score d).1.1
  = score_of_utilization (calculate_workload_score d).1.2.
Proof.
  pose proof (workload_score_branches d) as H.
  destruct (calculate_workload_score d) as [[score u] av]. done.
Qed.

Ltac qle_cases :=
  repeat match goal with
         | |- context [Qle_bool ?a ?b] =>
             let H := fresh "Hq" in
             destruct (Qle_bool a b) eqn:H;
             [apply Qle_bool_iff in H
             |assert (b < a)
                by (apply Qnot_le_lt; intros ?%Qle_bool_iff; congruence);
              clear H]
         end.

Lemma score_of_utilization_zero u : score_of_utilization u == 0 ↔ 1 <= u.
Proof.
  unfold score_of_utilization. qle_cases;
    match goal with
    | |- py_max _ (py_min _ ?x) == _ ↔ _ =>
        destruct (py_min_cases 1.0 x) as [[? ->]|[? ->]];
        [destruct (py_max_cases 0.0 x) as [[? Hm]|[? Hm]]
        |destruct (py_max_cases 0.0 1.0) as [[? Hm]|[? Hm]]];
        rewrite Hm; split; intros; lra
    end.
Qed.

Lemma score_of_utilization_mono u1 u2 :
  u1 <= u2 → score_of_utilization u2 <= score_of_utilization u1.
Proof.
  intros Hu. unfold score_of_utilization. qle_cases;
    match goal with
    | |- py_max _ (py_min _ ?x) <= py_max _ (py_min _ ?y) =>
        destruct (py_min_cases 1.0 x) as [[? ->]|[? ->]];
        destruct (py_min_cases 1.0 y) as [[? ->]|[? ->]];
        destruct (py_max_cases 0.0 x) as [[? Hx]|[? Hx]];
        destruct (py_max_cases 0.0 y) as [[? Hy]|[? Hy]];
        destruct (py_max_cases 0.0 1.0) as [[? Hone]|[? Hone]];
        rewrite ?Hx, ?Hy, ?Hone; lra
    end.
Qed.

(** X11: The workload score is 0 exactly for a developer at or over capacity
    (utilization at least 1). *)
Theorem workload_score_zero_iff (d : developer) :
  (calculate_workload_score d).1.1 == 0
  ↔ 1 <= (calculate_workload_score d).1.2.
Proof.
  rewrite workload_score_of_utilization. apply score_of_utilization_zero.
Qed.

(** X12: Of two developers the one with the higher utilization never has the
    higher workload score. *)
Theorem workload_score_antitone (d1 d2 : developer) :
  (calculate_workload_score d1).1.2 <= (calculate_workload_score d2).1.2 →
  (calculate_workload_score d2).1.1 <= (calculate_workload_score d1).1.1.
Proof.
  rewrite !workload_score_of_utilization. apply score_of_utilization_mono.
Qed.

Definition busy_developer : developer :=
  Developer (Some "u2"%string) None None [] (Some 40) None (Some 38)
    None None None None None None None None None.

(** Workload 8 of 40 against workload 38 of 40. *)
Lemma workload_score_antitone_witness :
  (calculate_workload_score busy_developer).1.1
  <= (calculate_workload_score light_developer).1.1.
Proof.
  apply (workload_score_antitone light_developer busy_developer).
  by vm_compute.
Defined.

(** ** The ranking *)

Lemma score_all_spec model t ds recs :
  score_all model t ds = Ok recs →
  length recs = length ds ∧
  Forall (λ rec, 0.3 <= confidence rec <= 1 ∧
                 ∃ d, d ∈ ds ∧ str_or (user_id d) (_id d) = Some (user rec))
         recs.
Proof.
  revert recs. induction ds as [|d ds IH]; intros recs; simpl.
  { intros [= <-]. split; [done | constructor]. }
  destruct (_score_developer model t d) as [rec|] eqn:Hrec; [|done].
  cbn [mbind pyresult_bind].
  destruct (score_all model t ds) as [recs'|]; [|done].
  cbn [mbind pyresult_bind]. intros [= <-].
  destruct (IH recs' eq_refl) as [Hlen Hall]. split; [simpl; lia |].
  constructor.
  - unfold _score_developer in Hrec.
    destruct (calculate_workload_score d) as [[ws u] av].
    destruct (str_or (user_id d) (_id d)) as [uid|] eqn:Huid; [|done].
    injection Hrec as <-. simpl. split.
    + pose proof (blend_confidence_bounds (weighted_score t d)
        (_predict_probability model (feature_vector t d))) as Hb.
      unfold score_confidence. lra.
    + exists d. split; [left | done].
  - eapply Forall_impl; [exact Hall |]. simpl.
    intros rec' (Hb & d' & Hd' & Hu). split; [done |].
    exists d'. split; [by right | done].
Qed.

(** X13: [get_recommendations] returns the [top_n] best developers, or all of
    them when they are fewer, best first: the confidences never increase
    along the list, each is between 0.3 and 1, and each entry is for one
    of the given developers. *)
Theorem recommendations_ranked model t available_developers top_n payload :
  get_recommendations model t available_developers top_n = Ok payload →
  length payload = min top_n (length available_developers) ∧
  StronglySorted (λ a b, p_confidence b <= p_confidence a) payload ∧
  Forall (λ e, 0.3 <= p_confidence e <= 1 ∧
               ∃ d, d ∈ available_developers ∧
                    str_or (user_id d) (_id d) = Some (p_user_id e))
         payload.
Proof.
  unfold get_recommendations.
  destruct available_developers as [|d0 ds0] eqn:Hds.
  { intros [= <-]. rewrite Nat.min_0_r. repeat constructor. }
  rewrite <-Hds. clear Hds d0 ds0.
  destruct (score_all model t available_developers) as [recs|] eqn:Hall;
    [|done].
  cbn [mbind pyresult_bind]. intros [= <-].
  apply score_all_spec in Hall as [Hlen Hrecs].
  set (ranked := sorted_desc confidence Qlt_bool recs).
  assert (Forall (λ rec, 0.3 <= confidence rec <= 1 ∧
                   ∃ d, d ∈ available_developers ∧
                        str_or (user_id d) (_id d) = Some (user rec)) ranked)
    as Hranked.
  { apply Forall_forall. intros rec Hin. unfold ranked in Hin.
    rewrite sorted_desc_perm in Hin.
    by apply (proj1 (Forall_forall _ _) Hrecs). }
  split_and!.
  - rewrite length_map, length_take. unfold ranked.
    by rewrite sorted_desc_length, Hlen.
  - apply StronglySorted_fmap
      with (R1 := not_below confidence Qlt_bool).
    + intros a b Hab. simpl. apply py_round_mono.
      by apply Qlt_bool_false.
    + apply StronglySorted_take, sorted_desc_sorted.
      * apply Qlt_bool_asym.
      * apply Qlt_bool_not_trans.
  - apply Forall_fmap, Forall_take.
    eapply Forall_impl; [exact Hranked |]. simpl.
    intros rec [Hb Hd]. split; [by apply py_round_2_bounds | done].
Qed.

(** The busy and the light developer, for a plain task and at most one
    recommendation. *)
Definition two_developers : list developer := [busy_developer; light_developer].

Definition top_recommendation : list payload_entry :=
  match get_recommendations None plain_task two_developers 1 with
  | Ok payload => payload
  | Raise _ => []
  end.

Lemma recommendations_ranked_witness :
  length top_recommendation = min 1 (length two_developers) ∧
  StronglySorted (λ a b, p_confidence b <= p_confidence a) top_recommendation ∧
  Forall (λ e, 0.3 <= p_confidence e <= 1 ∧
               ∃ d, d ∈ two_developers ∧
                    str_or (user_id d) (_id d) = Some (p_user_id e))
         top_recommendation.
Proof.
  apply (recommendations_ranked None plain_task two_developers 1).
  by vm_compute.
Defined.

End TaskAssignmentFacts.

(** * Sums of squares *)

Section variance_zero.
Local Open Scope Q_scope.

Lemma qsum_const xs c : (∀ x, x ∈ xs → x == c) → qsum xs == qlen xs * c.
Proof.
  induction xs as [|x xs IH]; intros Hxs.
  - unfold qlen. cbn [qsum length]. change (inject_Z (Z.of_nat 0)) with 0. ring.
  - rewrite qlen_cons. cbn [qsum].
    rewrite IH by (intros; apply Hxs; by right).
    rewrite (Hxs x) by left. ring.
Qed.

Lemma sq_dev_zero xs m :
  qsum (map (λ x, (x - m) * (x - m)) xs) == 0 ↔ ∀ x, x ∈ xs → x == m.
Proof.
  induction xs as [|x xs IH]; cbn [map qsum].
  - split; [by inversion 2 | done].
  - pose proof (qsq_nonneg (x - m)) as Hx.
    pose proof (sq_dev_nonneg xs m) as Hxs. split.
    + intros Hsum.
      assert ((x - m) * (x - m) == 0) as H0 by lra.
      assert (qsum (map (λ x, (x - m) * (x - m)) xs) == 0) as H1 by lra.
      intros y [->|Hy]%elem_of_cons; [|by apply IH].
      apply Qmult_integral in H0. lra.
    + intros Hall.
      assert (x == m) as Hxm by (apply Hall; left).
      assert (qsum (map (λ x, (x - m) * (x - m)) xs) == 0) as ->.
      { apply IH. intros y Hy. apply Hall. by right. }
      rewrite Hxm. ring.
Qed.

(** The population variance is 0 exactly when all the numbers are
    equal. *)
Lemma np_var_zero xs :
  xs ≠ [] →
  0 <= np_var xs ∧
  (np_var xs == 0 ↔ ∀ x y, x ∈ xs → y ∈ xs → x == y).
Proof.
  intros Hne. pose proof (qlen_pos xs Hne) as Hn.
  unfold np_var. set (m := np_mean xs).
  assert (m * qlen xs == qsum xs) as Hm.
  { unfold m, np_mean. fold (qlen xs). rewrite py_sum_qsum. field. lra. }
  assert (np_mean (map (λ x, (x - m) * (x - m)) xs) ==
          qsum (map (λ x, (x - m) * (x - m)) xs) / qlen xs) as ->.
  { unfold np_mean. by rewrite py_sum_qsum, length_map. }
  pose proof (sq_dev_nonneg xs m) as H0.
  set (sq := qsum (map (λ x, (x - m) * (x - m)) xs)) in *.
  assert (sq / qlen xs == 0 ↔ sq == 0) as ->.
  { split; intros H.
    - assert (sq == sq / qlen xs * qlen xs) as -> by (field; lra).
      rewrite H. ring.
    - rewrite H. field. lra. }
  split; [apply Qle_shift_div_l; [exact Hn | lra] |].
  unfold sq. rewrite sq_dev_zero. split.
  - intros Hall x y Hx Hy. by rewrite (Hall x Hx), (Hall y Hy).
  - intros Heq. destruct xs as [|c xs]; [done |].
    assert (∀ x, x ∈ c :: xs → x == c) as Hc.
    { intros x Hx. apply Heq; [done | left]. }
    assert (m == c) as Hmc.
    { apply qsum_const in Hc.
      assert (m == m * qlen (c :: xs) / qlen (c :: xs)) as -> by (field; lra).
      rewrite Hm, Hc. field. lra. }
    intros x Hx. rewrite Hmc. by apply Hc.
Qed.
End variance_zero.

(** * The workload balancer: balance, missing ids and reassignments *)

Module WorkloadBalancerFacts.
Import TaskAssignment TaskAssignmentSpec WorkloadBalancer WorkloadBalancerSpec.
Local Open Scope Q_scope.

(** ** The balance score *)

(** The utilization of a member as the balance score counts it: at most
    1, with a capacity of at least 0.001. *)
Definition capped_utilization (member : developer) : Q :=
  py_min (default 0 (current_workload member)
          / py_max (default 0.001 (capacity member)) 0.001) 1.0.

Lemma balance_score_level (team_state : odict developer) :
  team_state ≠ [] →
  (∀ u1 m1 u2 m2,
     (u1, m1) ∈ team_state → (u2, m2) ∈ team_state →
     capped_utilization m1 == capped_utilization m2) →
  calculate_balance_score team_state == 1.
Proof.
  intros Hne Hall. unfold calculate_balance_score.
  set (util := λ '((_, member) : string * developer),
         py_min (default 0 (current_workload member)
                 / py_max (default 0.001 (capacity member)) 0.001) 1.0).
  change (map _ team_state) with (map util team_state).
  destruct (map util team_state) as [|x xs] eqn:Hmap.
  { destruct team_state; done. }
  rewrite <-Hmap.
  destruct (np_var_zero (map util team_state)) as [H0 Hzero].
  { by rewrite Hmap. }
  assert (np_var (map util team_state) == 0) as Hvar.
  { apply Hzero. intros a b Ha Hb.
    apply list_elem_of_In, in_map_iff in Ha as ([u1 m1] & <- & H1).
    apply list_elem_of_In, in_map_iff in Hb as ([u2 m2] & <- & H2).
    apply (Hall u1 m1 u2 m2); by apply list_elem_of_In. }
  destruct (py_max_cases 0.0 (1.0 - np_var (map util team_state)))
    as [[? ->]|[? ->]]; lra.
Qed.

(** X14: On a non-empty team state whose members all have the same capped
    utilization the balance score is 1; so it is when every member is at
    or over capacity, whatever the excess of each. *)
Theorem balance_score_one_when_level (team_state : odict developer) :
  team_state ≠ [] →
  ((∀ u1 m1 u2 m2,
      (u1, m1) ∈ team_state → (u2, m2) ∈ team_state →
      capped_utilization m1 == capped_utilization m2) →
   calculate_balance_score team_state == 1) ∧
  ((∀ u m, (u, m) ∈ team_state →
      py_max (default 0.001 (capacity m)) 0.001
      <= default 0 (current_workload m)) →
   calculate_balance_score team_state == 1).
Proof.
  intros Hne. split; [by apply balance_score_level |].
  intros Hover. apply balance_score_level; [done |].
  assert (∀ u m, (u, m) ∈ team_state → capped_utilization m == 1) as Hone.
  { intros u m Hm. specialize (Hover u m Hm). unfold capped_utilization.
    set (c := py_max (default 0.001 (capacity m)) 0.001) in *.
    assert (0 < c) as Hc.
    { unfold c. destruct (py_max_cases (default 0.001 (capacity m)) 0.001)
        as [[? ->]|[? ->]]; lra. }
    assert (1 <= default 0 (current_workload m) / c) as Hdiv.
    { apply Qle_shift_div_l; [done | lra]. }
    destruct (py_min_cases (default 0 (current_workload m) / c) 1.0)
      as [[? ->]|[? ->]]; lra. }
  intros u1 m1 u2 m2 H1 H2. by rewrite (Hone u1 m1 H1), (Hone u2 m2 H2).
Qed.

(** Workloads 10 of 40 and 20 of 80. *)
Definition level_team : odict developer :=
  [ ("u1"%string, member_with "u1" 40 10);
    ("u2"%string, member_with "u2" 80 20) ].

Lemma balance_score_one_when_level_witness :
  calculate_balance_score level_team == 1.
Proof.
  destruct (balance_score_one_when_level level_team) as [Hlevel _]; [done |].
  apply Hlevel. intros u1 m1 u2 m2 H1 H2.
  repeat (apply elem_of_cons in H1 as [[= -> ->]|H1]);
    [| |by inversion H1];
    (repeat (apply elem_of_cons in H2 as [[= -> ->]|H2]);
     [| |by inversion H2]); by vm_compute.
Defined.

(** ** A member without [user_id] *)

Lemma build_team_state_raises team_state team_members :
  Exists (λ m, user_id m = None) team_members →
  build_team_state team_state team_members = Raise (KeyError "user_id").
Proof.
  intros Hex. revert team_state.
  induction Hex as [m rest Hm|m rest Hex IH]; intros team_state; simpl.
  - by rewrite Hm.
  - destruct (user_id m); [apply IH | done].
Qed.

(** X15: With at least one task, a team member without the [user_id] key makes
    [balance_workload] raise [KeyError]: nothing is assigned. *)
Theorem balance_workload_missing_user_id model tasks team_members :
  tasks ≠ [] →
  Exists (λ m, user_id m = None) team_members →
  balance_workload model tasks team_members = Raise (KeyError "user_id").
Proof.
  intros Htasks Hex. unfold balance_workload.
  destruct tasks as [|t tasks]; [done |].
  destruct team_members as [|m team_members]; [by inversion Hex |].
  by rewrite build_team_state_raises.
Qed.

Definition nameless_member : developer :=
  Developer None (Some "x1"%string) None [] (Some 40) None (Some 8)
    None None None None None None None None None.

Lemma balance_workload_missing_user_id_witness :
  balance_workload None [plain_task] [light_developer; nameless_member]
  = Raise (KeyError "user_id").
Proof.
  apply balance_workload_missing_user_id; [done |].
  right. by left.
Defined.

(** ** Who gets a task *)

Section assignments.
Variable team_members : list developer.

(** The team state holds members of the roster under their [user_id]:
    the balancer changes workloads only. *)
Definition state_ok (team_state : odict developer) : Prop :=
  ∀ uid member, od_get uid team_state = Some member →
    ∃ m, m ∈ team_members ∧ user_id m = Some uid ∧
         capacity m = capacity member.

Lemma build_team_state_ok team_state rest team_state' :
  (∀ m, m ∈ rest → m ∈ team_members) →
  state_ok team_state →
  build_team_state team_state rest = Ok team_state' →
  state_ok team_state'.
Proof.
  revert team_state. induction rest as [|m rest IH]; intros team_state Hsub Hok;
    simpl.
  { by intros [= <-]. }
  destruct (user_id m) as [uid|] eqn:Huid; [|done].
  apply IH; [intros; apply Hsub; by right |].
  intros uid' member. rewrite od_get_set. case_decide as Heq; [|apply Hok].
  intros [= <-]. subst. exists m. split_and!; [apply Hsub; left | done..].
Qed.

Lemma select_best_fit_spec recs team_state uid rec :
  _select_best_fit recs team_state = Some (uid, rec) →
  ∃ member, od_get uid team_state = Some member ∧
            0 < default 0 (capacity member).
Proof.
  induction recs as [|r recs IH]; simpl; [done |].
  destruct (od_get (p_user_id r) team_state) as [member|] eqn:Hget; [|done].
  destruct (Qle_bool (default 0 (capacity member)) 0) eqn:Hcap; [done |].
  destruct (Qlt_bool _ _); [done |]. simpl.
  intros [= <- <-]. exists member. split; [done |].
  apply Qnot_le_lt. intros Hle%Qle_bool_iff. congruence.
Qed.

Definition assigned_ok (a : balanced_assignment) : Prop :=
  ∃ m, m ∈ team_members ∧ user_id m = Some (assign_to a) ∧
       0 < default 0 (capacity m).

Lemma assign_task_spec model roster st t st' :
  assign_task model roster st t = Ok st' →
  state_ok st.1 → Forall assigned_ok st.2 →
  state_ok st'.1 ∧ Forall assigned_ok st'.2 ∧
  (st'.2 = st.2 ∨ ∃ a, st'.2 = st.2 ++ [a] ∧ b_task_id a = task_id t).
Proof.
  unfold assign_task.
  destruct (get_recommendations model t roster 3) as [recs|]; [|done].
  cbn [mbind pyresult_bind].
  destruct (_select_best_fit recs st.1) as [[uid rec]|] eqn:Hsel.
  - destruct (select_best_fit_spec _ _ _ _ Hsel) as (member & Hget & Hcap).
    rewrite Hget. intros [= <-] Hok Hall. simpl.
    destruct (Hok uid member Hget) as (m & Hm & Huid & Hc).
    split_and!.
    + intros uid' member'. rewrite od_get_set. case_decide as Heq; [|apply Hok].
      intros [= <-]. subst. exists m. by split_and!.
    + apply Forall_app. split; [done |]. constructor; [|constructor].
      exists m. simpl. split_and!; [done..|]. by rewrite Hc.
    + right. by eexists.
  - intros [= <-] Hok Hall. split_and!; [done.. | by left].
Qed.

(** The loop adds, in the order of the tasks, at most one assignment for
    each task. *)
Lemma assign_tasks_spec model roster ts st st' :
  assign_tasks model roster st ts = Ok st' →
  state_ok st.1 → Forall assigned_ok st.2 →
  Forall assigned_ok st'.2 ∧
  ∃ new, st'.2 = st.2 ++ new ∧
         map b_task_id new `sublist_of` map task_id ts.
Proof.
  revert st. induction ts as [|t ts IH]; intros st; simpl.
  { intros [= <-] _ Hall. split; [done |]. exists []. by rewrite app_nil_r. }
  destruct (assign_task model roster st t) as [st1|] eqn:Hstep; [|done].
  cbn [mbind pyresult_bind]. intros Hrest Hok Hall.
  destruct (assign_task_spec _ _ _ _ _ Hstep Hok Hall)
    as (Hok1 & Hall1 & Hnew1).
  destruct (IH st1 Hrest Hok1 Hall1) as (Hall' & new & Hnew & Hsub).
  split; [done |].
  destruct Hnew1 as [Heq|(a & Heq & Ha)]; rewrite Heq in Hnew.
  - exists new. split; [done |]. by apply sublist_cons.
  - exists (a :: new). split; [by rewrite <-app_assoc in Hnew |].
    simpl. rewrite Ha. by apply sublist_skip.
Qed.
End assignments.

(** X16: [balance_workload] visits the tasks in descending order of their
    priority string and gives each task to at most one member: the task
    ids of its assignments are, in this order, those of some of the tasks,
    each task counted once.  It assigns only to members of the team whose
    capacity is positive. *)
Theorem balance_workload_assignees model tasks team_members result :
  balance_workload model tasks team_members = Ok result →
  let ordered :=
    sorted_desc (λ t, default "medium"%string (task_priority t))
      String.ltb tasks in
  ordered ≡ₚ tasks ∧
  map b_task_id (balanced_assignments result)
    `sublist_of` map task_id ordered ∧
  Forall (λ a, ∃ m, m ∈ team_members ∧ user_id m = Some (assign_to a) ∧
                    0 < default 0 (capacity m))
         (balanced_assignments result).
Proof.
  intros Hres. cbv zeta. split; [apply sorted_desc_perm |].
  revert Hres. unfold balance_workload.
  destruct tasks as [|t0 tasks0] eqn:Htasks.
  { intros [= <-]. simpl. split; [apply sublist_nil_l | constructor]. }
  destruct team_members as [|m0 members0] eqn:Hteam.
  { intros [= <-]. simpl. split; [apply sublist_nil_l | constructor]. }
  rewrite <-Htasks, <-Hteam.
  destruct (build_team_state [] team_members) as [team_state|] eqn:Hbuild;
    [|done].
  cbn [mbind pyresult_bind].
  destruct (assign_tasks model team_members (team_state, []) _)
    as [st|] eqn:Hassign; [|done].
  cbn [mbind pyresult_bind].
  destruct (_summarize_utilization team_members st.1) as [lines|]; [|done].
  cbn [mbind pyresult_bind]. intros [= <-]. simpl.
  apply assign_tasks_spec with (team_members := team_members) in Hassign
    as (Hall & new & Hnew & Hsub).
  - simpl in Hnew. rewrite Hnew. split; [done |]. by rewrite <-Hnew.
  - simpl. eapply build_team_state_ok; [| |exact Hbuild]; [done |].
    intros uid member. done.
  - constructor.
Qed.

Definition sample_balance : balance_result :=
  match balance_workload None [plain_task] [light_developer] with
  | Ok result => result
  | Raise _ => empty_result
  end.

Lemma balance_workload_assignees_witness :
  let ordered :=
    sorted_desc (λ t, default "medium"%string (task_priority t))
      String.ltb [plain_task] in
  ordered ≡ₚ [plain_task] ∧
  map b_task_id (balanced_assignments sample_balance)
    `sublist_of` map task_id ordered ∧
  Forall (λ a, ∃ m, m ∈ [light_developer] ∧ user_id m = Some (assign_to a) ∧
                    0 < default 0 (capacity m))
         (balanced_assignments sample_balance).
Proof.
  apply (balance_workload_assignees None [plain_task] [light_developer]).
  by vm_compute.
Defined.

(** ** Reassignments *)

Lemma find_assigned_spec overloaded assign_to m :
  find_assigned overloaded assign_to = Ok (Some m) →
  m ∈ overloaded ∧ user_id m = assign_to.
Proof.
  induction overloaded as [|m' rest IH]; simpl; [done |].
  destruct (user_id m') as [uid|] eqn:Huid; [|done].
  case_decide as Heq.
  - intros [= <-]. split; [left | congruence].
  - intros [Hin Hm]%IH. split; [by right | done].
Qed.

(** The head of a filtered list is the first element that passes the
    filter. *)
Lemma head_filter_first {A} (P : A → bool) l c :
  head (List.filter P l) = Some c →
  ∃ pre post, l = pre ++ c :: post ∧ Forall (λ x, P x = false) pre ∧
              P c = true.
Proof.
  induction l as [|x l IH]; simpl; [done |].
  destruct (P x) eqn:HP; simpl.
  - intros [= ->]. exists [], l. split_and!; [done | constructor | done].
  - intros (pre & post & -> & Hpre & Hc)%IH.
    exists (x :: pre), post. split_and!; [done | by constructor | done].
Qed.

Section reassignments.
Variables (overloaded underloaded : list developer).
Hypothesis underloaded_ok : ∀ c, c ∈ underloaded → _utilization c < 0.7.

(** A suggestion for the task: away from the overloaded member that has
    it, to the first underloaded member. *)
Definition reassignment_ok (s : reassignment) (task : current_assignment)
  : Prop :=
  r_task_id s = c_task_id task ∧
  c_assign_to task = Some (r_from s) ∧
  r_reason s = "Balances workload"%string ∧
  (∃ m, m ∈ overloaded ∧ user_id m = Some (r_from s)) ∧
  (∃ c, head underloaded = Some c ∧ user_id c = Some (r_to s)).

Lemma suggest_loop_spec current suggestions result :
  suggest_loop overloaded underloaded current suggestions = Ok result →
  ∃ new kept,
    result = suggestions ++ new ∧ kept `sublist_of` current ∧
    Forall2 reassignment_ok new kept.
Proof using underloaded_ok.
  revert suggestions. induction current as [|task rest IH];
    intros suggestions; simpl.
  { intros [= <-]. exists [], []. by rewrite app_nil_r. }
  destruct (find_assigned overloaded (c_assign_to task)) as [[m|]|] eqn:Hfind;
    cbn [mbind pyresult_bind]; [| |done].
  - apply find_assigned_spec in Hfind as [Hm Hto].
    destruct (head underloaded) as [c|] eqn:Hhead.
    + destruct (user_id m) as [from_id|] eqn:Hfrom; [|done].
      destruct (user_id c) as [to_id|] eqn:Hcid; [|done].
      intros (new & kept & -> & Hsub & Hall)%IH.
      eexists (_ :: new), (task :: kept).
      split_and!; [by rewrite <-app_assoc | by apply sublist_skip |].
      constructor; [|done].
      split_and!; simpl; [done | done | | by exists m | by exists c].
      assert (_utilization c < 0.7) as Hc.
      { apply underloaded_ok. destruct underloaded; [done |].
        injection Hhead as ->. left. }
      assert (Qlt_bool (_utilization c + 0.1) 1.0 = true) as ->; [|done].
      unfold Qlt_bool. apply negb_true_iff.
      destruct (Qle_bool 1.0 (_utilization c + 0.1)) eqn:Hle; [|done].
      apply Qle_bool_iff in Hle. lra.
    + intros [= <-]. exists [], []. rewrite app_nil_r.
      split_and!; [done | apply sublist_nil_l | constructor].
  - intros (new & kept & -> & Hsub & Hall)%IH.
    exists new, kept. split_and!; [done | by apply sublist_cons | done].
Qed.
End reassignments.

(** X17: The suggestions of [suggest_reassignments] are, in order, for some of
    the current assignments, each counted once: a suggestion carries the
    task id of its assignment and moves it away from the member it is
    assigned to, whose utilization is above 1.  All suggestions move to
    one and the same member, the first of the roster whose utilization is
    below 0.7, and the reason is always "Balances workload": the other
    reason, "Improves skill match", is never given. *)
Theorem reassignments_spec current_assignments team_members suggestions :
  suggest_reassignments current_assignments team_members = Ok suggestions →
  (∃ kept, kept `sublist_of` current_assignments ∧
     Forall2 (λ s task,
       r_task_id s = c_task_id task ∧
       c_assign_to task = Some (r_from s) ∧
       r_reason s = "Balances workload"%string ∧
       ∃ m, m ∈ team_members ∧ user_id m = Some (r_from s) ∧
            1 < _utilization m) suggestions kept) ∧
  (suggestions ≠ [] →
   ∃ pre target post,
     team_members = pre ++ target :: post ∧
     Forall (λ m, 0.7 <= _utilization m) pre ∧
     _utilization target < 0.7 ∧
     Forall (λ s, user_id target = Some (r_to s)) suggestions).
Proof.
  unfold suggest_reassignments.
  set (overloaded := List.filter _ team_members).
  set (underloaded := List.filter _ team_members).
  intros Hloop.
  assert (∀ c, c ∈ underloaded → _utilization c < 0.7) as Hunder.
  { intros c Hc. apply list_elem_of_In, filter_In in Hc as [Hin Hlt].
    by apply Qlt_bool_true. }
  apply suggest_loop_spec in Hloop as (new & kept & -> & Hsub & Hall);
    [|done].
  simpl. split.
  - exists kept. split; [done |].
    eapply Forall2_impl; [exact Hall |]. simpl.
    intros s task (Hid & Hfrom & Hreason & (m & Hm & Hm') & _).
    split_and!; [done..|].
    exists m. apply list_elem_of_In, filter_In in Hm as [Hin Hlt].
    apply Qlt_bool_true in Hlt.
    split_and!; [by apply list_elem_of_In | done | lra].
  - intros Hne.
    destruct Hall as [|s task new' kept' Hs Hrest]; [done |].
    destruct Hs as (_ & _ & _ & _ & (c & Hhead & Hto)).
    destruct (head_filter_first _ _ _ Hhead) as (pre & post & -> & Hpre & Hc).
    exists pre, c, post. split_and!; [done | | by apply Qlt_bool_true |].
    + eapply Forall_impl; [exact Hpre |]. simpl.
      intros m Hm. by apply Qlt_bool_false.
    + constructor; [done |].
      clear Hsub Hne.
      induction Hrest as [|s' task' new'' kept'' Hs' _ IH]; [constructor |].
      constructor; [|done].
      destruct Hs' as (_ & _ & _ & _ & (c' & Hhead' & Hto')).
      rewrite Hhead in Hhead'. by injection Hhead' as <-.
Qed.

(** A member at 50 of 40 and one at 8 of 40; one task of the first. *)
Definition swamped_developer : developer :=
  Developer (Some "u3"%string) None None [] (Some 40) None (Some 50)
    None None None None None None None None None.

Definition sample_suggestions : list reassignment :=
  match suggest_reassignments
          [CurrentAssignment (Some "T-1"%string) (Some "u3"%string)]
          [swamped_developer; light_developer] with
  | Ok suggestions => suggestions
  | Raise _ => []
  end.

Lemma reassignments_spec_witness :
  (∃ kept,
     kept `sublist_of`
       [CurrentAssignment (Some "T-1"%string) (Some "u3"%string)] ∧
     Forall2 (λ s task,
       r_task_id s = c_task_id task ∧
       c_assign_to task = Some (r_from s) ∧
       r_reason s = "Balances workload"%string ∧
       ∃ m, m ∈ [swamped_developer; light_developer] ∧
            user_id m = Some (r_from s) ∧
            1 < _utilization m) sample_suggestions kept) ∧
  (sample_suggestions ≠ [] →
   ∃ pre target post,
     [swamped_developer; light_developer] = pre ++ target :: post ∧
     Forall (λ m, 0.7 <= _utilization m) pre ∧
     _utilization target < 0.7 ∧
     Forall (λ s, user_id target = Some (r_to s)) sample_suggestions).
Proof.
  apply (reassignments_spec
           [CurrentAssignment (Some "T-1"%string) (Some "u3"%string)]
           [swamped_developer; light_developer]).
  by vm_compute.
Defined.

End WorkloadBalancerFacts.

(** * The sprint planner: candidate sets, ranking and skill coverage *)

Module SprintPlannerFacts.
Import SprintPlanner SprintPlannerSpec.
Local Open Scope Q_scope.

(** ** The order of the sort keys *)

Lemma key_ltb_asym a b : key_ltb a b = true → key_ltb b a = false.
Proof.
  unfold key_ltb. intros H.
  apply orb_true_iff in H as [H|[He H]%andb_true_iff].
  - apply Qlt_bool_true in H. apply orb_false_iff. split.
    + unfold Qlt_bool. apply negb_false_iff, Qle_bool_iff. lra.
    + apply andb_false_iff. left.
      destruct (Qeq_bool b.1 a.1) eqn:Heq; [|done].
      apply Qeq_bool_iff in Heq. lra.
  - apply Qeq_bool_iff in He. apply Qlt_bool_true in H.
    apply orb_false_iff. split.
    + unfold Qlt_bool. apply negb_false_iff, Qle_bool_iff. lra.
    + apply andb_false_iff. right.
      unfold Qlt_bool. apply negb_false_iff, Qle_bool_iff. lra.
Qed.

(** [key_ltb a b = false]: the key [a] is not below [b] in the order of
    Python tuples. *)
Lemma key_ltb_false a b :
  key_ltb a b = false ↔ b.1 < a.1 ∨ (a.1 == b.1 ∧ b.2 <= a.2).
Proof.
  unfold key_ltb. rewrite orb_false_iff, andb_false_iff. split.
  - intros [H1%Qlt_bool_false [H2|H2%Qlt_bool_false]].
    + left. destruct (Qeq_bool a.1 b.1) eqn:Heq; [done |].
      apply Qeq_bool_neq in Heq. apply Qnot_le_lt. intros Hle. apply Heq. lra.
    + destruct (Qlt_le_dec b.1 a.1); [by left | right]. split; [lra | done].
  - assert (∀ x y, y <= x → Qlt_bool x y = false) as Hf.
    { intros x y Hxy. unfold Qlt_bool. by apply negb_false_iff, Qle_bool_iff. }
    intros [Hlt|[Heq Hle]].
    + split; [apply Hf; lra |]. left.
      destruct (Qeq_bool a.1 b.1) eqn:He; [|done].
      apply Qeq_bool_iff in He. lra.
    + split; [apply Hf; lra |]. right. by apply Hf.
Qed.

Lemma key_ltb_not_trans a b c :
  key_ltb a b = false → key_ltb b c = false → key_ltb a c = false.
Proof.
  rewrite !key_ltb_false. intros [?|[? ?]] [?|[? ?]];
    [left; lra | left; lra | left; lra | right; split; lra].
Qed.

(** ** What a trial selects *)

Section selection.
Context {PyRandom NpRandom : Type}.
Variable randbelow : nat → PyRandom → nat * PyRandom.
Variable np_beta : Q → Q → NpRandom → Q * NpRandom.

Lemma swap_perm (x : list story) i j : swap x i j ≡ₚ x.
Proof.
  unfold swap. destruct (x !! i) as [xi|] eqn:Hi; [|done].
  destruct (x !! j) as [xj|] eqn:Hj; [|done].
  by apply Permutation_insert_swap.
Qed.

Lemma shuffle_from_perm i x rng : (shuffle_from randbelow i x rng).1 ≡ₚ x.
Proof.
  revert x rng. induction i as [|i IH]; intros x rng; [done |].
  cbn [shuffle_from]. destruct (randbelow (S (S i)) rng) as [j rng'].
  rewrite IH. apply swap_perm.
Qed.

Lemma shuffle_perm x rng : (shuffle randbelow x rng).1 ≡ₚ x.
Proof. apply shuffle_from_perm. Qed.

(** The acceptance loop extends the selection by stories taken in order
    from the list, keeps the running total equal to the points of the
    selection, and never lets a non-empty selection exceed the
    capacity. *)
Lemma accept_spec stories capacity selection total rng :
  total = py_sum (map story_points_of selection) →
  (selection = [] ∨ total <= capacity) →
  ∃ picked,
    (accept np_beta stories capacity selection total rng).1
      = selection ++ picked ∧
    picked `sublist_of` stories ∧
    (selection ++ picked = [] ∨
     sum_points (selection ++ picked) <= capacity).
Proof.
  revert selection total rng.
  induction stories as [|s stories IH]; intros selection total rng Htotal Hcap;
    simpl.
  { exists []. rewrite app_nil_r. split_and!; [done | constructor |].
    unfold sum_points. rewrite <-Htotal. done. }
  destruct (np_beta (priority_bonus s * 2) 2 rng) as [probability rng'].
  destruct (Qle_bool (total + story_points_of s) capacity
            && Qlt_bool 0.4 probability) eqn:Hok.
  - apply andb_true_iff in Hok as [Hfit%Qle_bool_iff _].
    destruct (IH (selection ++ [s]) (total + story_points_of s) rng')
      as (picked & Heq & Hsub & Hfinal).
    + rewrite Htotal. unfold py_sum. by rewrite map_app, fold_left_app.
    + by right.
    + exists (s :: picked). rewrite Heq, <-app_assoc. simpl.
      split_and!; [done | by constructor |].
      by rewrite <-app_assoc in Hfinal.
  - destruct (IH selection total rng' Htotal Hcap)
      as (picked & Heq & Hsub & Hfinal).
    exists picked. split_and!; [done | by constructor | done].
Qed.

(** A candidate set of the backlog for the capacity. *)
Definition candidate_ok (stories : list story) (capacity : Q)
    (selection : list story) : Prop :=
  selection ≠ [] ∧ selection ⊆+ stories ∧ sum_points selection <= capacity.

Lemma thompson_sample_spec stories capacity w :
  let '(sample, stories', _) :=
    _thompson_sample randbelow np_beta stories capacity w in
  stories' ≡ₚ stories ∧ (sample = [] ∨ candidate_ok stories capacity sample).
Proof.
  unfold _thompson_sample.
  pose proof (shuffle_perm stories w.1) as Hperm.
  destruct (shuffle randbelow stories w.1) as [stories' py]. simpl in Hperm.
  destruct (accept_spec stories' capacity [] 0 w.2) as (picked & Heq & Hsub & Hcap);
    [done | by left |].
  destruct (accept np_beta stories' capacity [] 0 w.2) as [selection np].
  simpl in *. subst selection. split; [done |].
  destruct picked as [|s picked]; [by left | right].
  split_and!; [done | |].
  - rewrite <-Hperm. by apply sublist_submseteq.
  - by destruct Hcap.
Qed.

Lemma sample_loop_spec iterations stories all capacity best_sets w :
  stories ≡ₚ all →
  Forall (candidate_ok all capacity) best_sets →
  Forall (candidate_ok all capacity)
    (sample_loop randbelow np_beta iterations stories capacity best_sets w).1.
Proof.
  revert stories best_sets w.
  induction iterations as [|n IH]; intros stories best_sets w Hperm Hall;
    [done |].
  cbn [sample_loop].
  pose proof (thompson_sample_spec stories capacity w) as Hsample.
  destruct (_thompson_sample randbelow np_beta stories capacity w)
    as [[sample stories'] w'].
  destruct Hsample as [Hperm' Hsample].
  apply IH; [by rewrite Hperm' |].
  destruct sample as [|s sample]; [done |].
  apply Forall_app. split; [done |]. constructor; [|constructor].
  destruct Hsample as [?|(Hne & Hsub & Hcap)]; [done |].
  split_and!; [done | by rewrite <-Hperm | done].
Qed.

Lemma story_selection_sets (backlog : list story)
    (capacity : Q) (team_members : list member) (iterations : nat)
    (w : PyRandom * NpRandom) :
  Forall
    (candidate_ok
       (List.filter (λ s, negb (list_truthy (blocked_by s))) backlog) capacity)
    (optimize_story_selection randbelow np_beta backlog capacity
       team_members iterations w).1.
Proof.
  unfold optimize_story_selection.
  set (stories := List.filter _ backlog).
  pose proof (sample_loop_spec iterations stories stories capacity [] w
                ltac:(done) ltac:(constructor)) as Hall.
  destruct (sample_loop randbelow np_beta iterations stories capacity [] w)
    as [best_sets w'].
  simpl in *. apply Forall_take. apply Forall_forall. intros selection Hin.
  rewrite sorted_desc_perm in Hin.
  by apply (proj1 (Forall_forall _ _) Hall).
Qed.

(** X18: Whatever the generators draw, [optimize_story_selection] returns at
    most five candidate sets; each is non-empty, takes every story at
    most as often as the backlog lists it, contains no blocked story and
    has total points within the capacity. *)
Theorem story_selection_within_capacity (backlog : list story)
    (capacity : Q) (team_members : list member) (iterations : nat)
    (w : PyRandom * NpRandom) :
  let sets :=
    (optimize_story_selection randbelow np_beta backlog capacity
       team_members iterations w).1 in
  (length sets ≤ 5)%nat ∧
  Forall (λ selection,
    selection ≠ [] ∧ selection ⊆+ backlog ∧
    Forall (λ s, list_truthy (blocked_by s) = false) selection ∧
    sum_points selection <= capacity) sets.
Proof.
  intros sets. split.
  - unfold sets, optimize_story_selection.
    destruct (sample_loop _ _ _ _ _ _ _) as [best_sets w']. simpl.
    rewrite length_take. lia.
  - pose proof (story_selection_sets backlog capacity team_members
                  iterations w) as Hall.
    fold sets in Hall. set (stories := List.filter _ backlog) in Hall.
    eapply Forall_impl; [exact Hall |]. simpl.
    intros selection (Hne & Hsub & Hcap).
    assert (∀ s, s ∈ stories → s ∈ backlog ∧
                 list_truthy (blocked_by s) = false) as Hstories.
    { intros s Hs. apply list_elem_of_In, filter_In in Hs as [Hs Hb].
      split; [by apply list_elem_of_In | by apply negb_true_iff]. }
    split_and!; [done | | | done].
    + etrans; [exact Hsub |]. unfold stories.
      clear. induction backlog as [|s backlog IH]; simpl; [done |].
      destruct (negb _); [by constructor | by apply submseteq_cons].
    + apply Forall_forall. intros s Hs. apply Hstories.
      by eapply elem_of_submseteq.
Qed.

(** X19: The candidate sets are returned best first: the value never
    increases along the list, and among sets of equal value the
    complexity risk never decreases. *)
Theorem story_selection_ranked (backlog : list story)
    (capacity : Q) (team_members : list member) (iterations : nat)
    (w : PyRandom * NpRandom) :
  StronglySorted
    (λ a b, _calculate_value b < _calculate_value a ∨
            (_calculate_value a == _calculate_value b ∧
             _calculate_complexity_risk a <= _calculate_complexity_risk b))
    (optimize_story_selection randbelow np_beta backlog capacity
       team_members iterations w).1.
Proof.
  unfold optimize_story_selection.
  destruct (sample_loop _ _ _ _ _ _ _) as [best_sets w']. simpl.
  apply StronglySorted_take.
  eapply StronglySorted_impl;
    [|apply (sorted_desc_sorted selection_key key_ltb key_ltb_asym
               key_ltb_not_trans)].
  intros a b Hab. unfold not_below in Hab.
  apply key_ltb_false in Hab as [Hlt|[Heq Hle]]; simpl in *.
  - by left.
  - right. split; [done | lra].
Qed.
End selection.

(** ** The suggested sprint *)

Lemma team_capacity_nonneg team_members fallback :
  0 <= fallback → 0 <= _calculate_team_capacity team_members fallback.
Proof.
  intros Hf. unfold _calculate_team_capacity.
  set (step := λ (total : Q) (m : member), _).
  assert (∀ l a, 0 <= a → 0 <= fold_left step l a) as Hfold.
  { induction l as [|m l IH]; intros a Ha; simpl; [done |].
    apply IH. unfold step.
    match goal with
    | |- 0 <= a + py_max ?r 0 =>
        destruct (py_max_cases r 0) as [[? ->]|[? ->]]; lra
    end. }
  specialize (Hfold team_members 0 ltac:(lra)).
  unfold num_or. destruct (Qeq_bool _ 0); [done | exact Hfold].
Qed.

Section suggested.
Context {PyRandom NpRandom : Type}.
Variable randbelow : nat → PyRandom → nat * PyRandom.
Variable np_beta : Q → Q → NpRandom → Q * NpRandom.

(** X20: With a fallback capacity that is not negative, the stories that
    [suggest_stories_for_sprint] selects never add up to more points
    than the team capacity it reports, and the utilization it reports is
    at most 100 percent. *)
Theorem suggested_points_within_capacity (backlog : list story)
    (team_capacity : Q) (team_members : list member)
    (w : PyRandom * NpRandom) :
  0 <= team_capacity →
  ∃ plan w',
    suggest_stories_for_sprint randbelow np_beta backlog team_capacity
      team_members w = (Ok plan, w') ∧
    total_story_points plan <= SprintPlanner.team_capacity plan ∧
    capacity_utilization plan <= 100.
Proof.
  intros Hcap. unfold suggest_stories_for_sprint.
  set (effective := _calculate_team_capacity team_members team_capacity).
  pose proof (team_capacity_nonneg team_members team_capacity Hcap) as Heff.
  fold effective in Heff.
  pose proof (story_selection_sets randbelow np_beta
                (map normalize backlog) effective team_members 200 w)
    as Hsets.
  destruct (optimize_story_selection randbelow np_beta
              (map normalize backlog) effective team_members 200 w)
    as [candidate_sets w'].
  simpl in Hsets. eexists _, _. split; [reflexivity |].
  cbn [total_story_points SprintPlanner.team_capacity capacity_utilization].
  assert (sum_points (default [] (head candidate_sets)) <= effective) as Hsum.
  { destruct candidate_sets as [|best rest]; simpl; [exact Heff |].
    apply Forall_cons in Hsets as [(_ & _ & Hbest) _]. exact Hbest. }
  split; [exact Hsum |].
  apply Qle_trans with (py_round (1 * 100) 0); [|by vm_compute].
  apply py_round_mono. apply Qmult_le_compat_r; [|lra].
  destruct (Qeq_bool effective 0) eqn:Hz; [lra |].
  apply Qeq_bool_neq in Hz.
  apply Qle_shift_div_r; [|lra].
  destruct (Qlt_le_dec 0 effective); [done |]. exfalso. apply Hz. lra.
Qed.
End suggested.

(** A backlog of one story and a team of one member. *)
Lemma suggested_points_within_capacity_witness :
  ∃ plan w',
    suggest_stories_for_sprint counting_randbelow alternating_beta
      [one_point_story] 10 [] (0%nat, 0%nat) = (Ok plan, w') ∧
    total_story_points plan <= SprintPlanner.team_capacity plan ∧
    capacity_utilization plan <= 100.
Proof.
  apply (suggested_points_within_capacity counting_randbelow alternating_beta
           [one_point_story] 10 [] (0%nat, 0%nat)).
  by vm_compute.
Defined.

(** ** Skill coverage *)

(** X21: For a story with required skills the sprint planner's skill match
    of a member is 1 exactly when the member has skills and they cover
    all the required ones, compared without case; skills beyond the
    required ones do not lower it. *)
Theorem skill_match_covers_iff (required skills : list string) :
  required ≠ [] →
  _skill_match required skills == 1
  ↔ skills ≠ [] ∧
    (list_to_set (map lower required) : gset string)
    ⊆ list_to_set (map lower skills).
Proof.
  intros Hreq. unfold _skill_match.
  destruct required as [|r required]; [done |].
  set (req := list_to_set (map lower (r :: required)) : gset string).
  set (sk := list_to_set (map lower skills) : gset string).
  assert (req ≠ ∅) as Hne by (unfold req; simpl; set_solver).
  destruct (decide (sk = ∅)) as [Hsk|Hsk].
  { split; [intros H; by vm_compute in H |].
    intros [_ Hsub]. exfalso. apply Hne. set_solver. }
  assert (skills ≠ []) as Hskills.
  { intros ->. by apply Hsk. }
  assert (0 < size req)%nat as Hsize.
  { destruct (decide (size req = 0%nat)) as [H0|]; [|lia].
    apply size_empty_iff in H0. set_solver. }
  rewrite (ratio_eq_one _ _ Hsize). split.
  - intros Heq. split; [done |].
    assert (req ∩ sk = req) as Hcap.
    { apply set_subseteq_size_eq; [set_solver | lia]. }
    set_solver.
  - intros [_ Hsub]. f_equal. set_solver.
Qed.

Lemma skill_match_covers_iff_witness :
  _skill_match ["Go"%string] ["go"; "Rust"]%string == 1
  ↔ ["go"; "Rust"]%string ≠ [] ∧
    (list_to_set (map lower ["Go"%string]) : gset string)
    ⊆ list_to_set (map lower ["go"; "Rust"]%string).
Proof. by apply (skill_match_covers_iff ["Go"%string]). Defined.

(** ** The assignee of a story and the load of the sprint *)

(** The score that [_find_best_assignee] gives a member. *)
Definition assignee_score (s : story) (m : member) : Q :=
  0.7 * _skill_match (default [] (required_skills s)) (skills m)
  + 0.3 * (_remaining_capacity m / py_max (default 1 (capacity m)) 1).

(** The member has the points of the story left. *)
Definition has_room (s : story) (m : member) : Prop :=
  default 0 (story_points s) <= _remaining_capacity m.

Lemma remaining_capacity_nonneg m : 0 <= _remaining_capacity m.
Proof.
  unfold _remaining_capacity.
  destruct (py_max_cases (default 0 (capacity m) - default 0 (current_workload m)) 0)
    as [[? ->]|[? ->]]; lra.
Qed.

Lemma sprint_skill_match_nonneg required skills :
  0 <= _skill_match required skills.
Proof.
  unfold _skill_match. destruct required as [|r required]; [lra |].
  case_decide; [lra |].
  set (a := size _). set (b := size _).
  destruct b as [|b]; [by destruct a |].
  apply Qle_shift_div_l.
  - change 0 with (inject_Z 0). rewrite <-Zlt_Qlt. lia.
  - rewrite Qmult_0_l. change 0 with (inject_Z 0). rewrite <-Zle_Qle. lia.
Qed.

Lemma assignee_score_nonneg s m : 0 <= assignee_score s m.
Proof.
  unfold assignee_score.
  pose proof (sprint_skill_match_nonneg (default [] (required_skills s))
                (skills m)).
  assert (0 <= _remaining_capacity m / py_max (default 1 (capacity m)) 1).
  { apply Qle_shift_div_l.
    - destruct (py_max_cases (default 1 (capacity m)) 1) as [[? ->]|[? ->]]; lra.
    - rewrite Qmult_0_l. apply remaining_capacity_nonneg. }
  lra.
Qed.

Lemma find_best_spec s members bs bc :
  (find_best s members bs bc = bc ∧
   ∀ u m, (u, m) ∈ members → has_room s m → assignee_score s m <= bs) ∨
  (∃ u m, find_best s members bs bc = Some (u, m) ∧
          (u, m) ∈ members ∧ has_room s m ∧ bs < assignee_score s m ∧
          ∀ u' m', (u', m') ∈ members → has_room s m' →
                   assignee_score s m' <= assignee_score s m).
Proof.
  revert bs bc. induction members as [|[uid m] members IH]; intros bs bc.
  { left. split; [done |]. intros u m Hin. by inversion Hin. }
  cbn [find_best]. cbv zeta. fold (assignee_score s m).
  destruct (Qlt_bool (_remaining_capacity m) (default 0 (story_points s)))
    eqn:Hroom.
  { apply Qlt_bool_true in Hroom.
    destruct (IH bs bc) as [[Heq Hall]|(u & m0 & Heq & Hin & Hr & Hlt & Hall)].
    - left. split; [done |].
      intros u' m' [[= -> ->]|Hin]%elem_of_cons Hr; [|by eapply Hall].
      unfold has_room in Hr. lra.
    - right. exists u, m0. split_and!; [done | by right | done..|].
      intros u' m' [[= -> ->]|Hin']%elem_of_cons Hr'; [|by eapply Hall].
      unfold has_room in Hr'. lra. }
  apply Qlt_bool_false in Hroom.
  destruct (Qlt_bool bs (assignee_score s m)) eqn:Hbeat.
  - apply Qlt_bool_true in Hbeat.
    destruct (IH (assignee_score s m) (Some (uid, m)))
      as [[Heq Hall]|(u & m0 & Heq & Hin & Hr & Hlt & Hall)].
    + right. exists uid, m. split_and!; [done | left | done | done |].
      intros u' m' [[= -> ->]|Hin]%elem_of_cons Hr; [lra | by eapply Hall].
    + right. exists u, m0. split_and!; [done | by right | done | lra |].
      intros u' m' [[= -> ->]|Hin']%elem_of_cons Hr'; [lra | by eapply Hall].
  - apply Qlt_bool_false in Hbeat.
    destruct (IH bs bc) as [[Heq Hall]|(u & m0 & Heq & Hin & Hr & Hlt & Hall)].
    + left. split; [done |].
      intros u' m' [[= -> ->]|Hin]%elem_of_cons Hr; [done | by eapply Hall].
    + right. exists u, m0. split_and!; [done | by right | done..|].
      intros u' m' [[= -> ->]|Hin']%elem_of_cons Hr'; [lra | by eapply Hall].
Qed.

Lemma find_best_assignee_room s members uid m :
  _find_best_assignee s members = Some (uid, m) →
  (uid, m) ∈ members ∧ has_room s m.
Proof.
  unfold _find_best_assignee.
  destruct (find_best_spec s members (-1) None)
    as [[-> _]|(u & m0 & -> & Hin & Hr & _)]; [done |].
  by intros [= <- <-].
Qed.

(** X27: [_find_best_assignee] finds nobody exactly when no member has the
    points of the story left; the member it returns has them left, and
    no member who has them left scores higher. *)
Theorem find_best_assignee_spec (s : story) (members : odict member) :
  match _find_best_assignee s members with
  | None =>
      ∀ u m, (u, m) ∈ members →
             _remaining_capacity m < default 0 (story_points s)
  | Some (u, m) =>
      (u, m) ∈ members ∧ has_room s m ∧
      ∀ u' m', (u', m') ∈ members → has_room s m' →
               assignee_score s m' <= assignee_score s m
  end.
Proof.
  unfold _find_best_assignee.
  destruct (find_best_spec s members (-1) None)
    as [[-> Hall]|(u & m & -> & Hin & Hr & _ & Hall)]; [|done].
  intros u m Hin.
  destruct (Qlt_le_dec (_remaining_capacity m) (default 0 (story_points s)))
    as [|Hr]; [done |].
  pose proof (Hall u m Hin Hr). pose proof (assignee_score_nonneg s m). lra.
Qed.

(** What the members of a team state have left, together. *)
Definition remaining_total (d : odict member) : Q :=
  qsum (map (λ e, _remaining_capacity e.2) d).

Lemma remaining_total_nonneg d : 0 <= remaining_total d.
Proof.
  unfold remaining_total. induction d as [|[u m] d IH]; simpl; [lra |].
  pose proof (remaining_capacity_nonneg m). lra.
Qed.

Lemma remaining_total_set uid m m' d :
  od_get uid d = Some m →
  remaining_total (od_set uid m' d)
  == remaining_total d - _remaining_capacity m + _remaining_capacity m'.
Proof.
  unfold remaining_total. induction d as [|[u0 m0] d IH]; simpl; [done |].
  case_decide as Hu; simpl.
  - intros [= ->]. lra.
  - intros Hget. rewrite (IH Hget). lra.
Qed.

Lemma remaining_after m p :
  0 <= p → p <= _remaining_capacity m →
  _remaining_capacity (with_workload m (default 0 (current_workload m) + p))
  == _remaining_capacity m - p.
Proof.
  unfold _remaining_capacity. simpl. intros Hp Hle.
  destruct (py_max_cases
              (default 0 (capacity m) - default 0 (current_workload m)) 0)
    as [[? Hm]|[? Hm]]; rewrite Hm in *;
    destruct (py_max_cases
                (default 0 (capacity m) - (default 0 (current_workload m) + p)) 0)
      as [[? ->]|[? ->]]; lra.
Qed.

Lemma qsum_snoc l x : qsum (l ++ [x]) == qsum l + x.
Proof. induction l as [|y l IH]; simpl; [lra |]. rewrite IH. lra. Qed.

(** One round of the loop of [calculate_sprint_load]: what is handed
    out is taken from what the members have left. *)
Lemma load_story_spec st s :
  0 <= default 0 (story_points s) → NoDup (od_keys st.1) →
  NoDup (od_keys (load_story st s).1) ∧
  qsum (map s_story_points (load_story st s).2)
  + remaining_total (load_story st s).1
  == qsum (map s_story_points st.2) + remaining_total st.1 ∧
  (map s_story_id (load_story st s).2 = map s_story_id st.2 ∨
   map s_story_id (load_story st s).2 = map s_story_id st.2 ++ [story_key s]).
Proof.
  intros Hp Hnd. unfold load_story.
  destruct (_find_best_assignee s st.1) as [[uid m]|] eqn:Hbest;
    [|split_and!; [done | reflexivity | by left]].
  apply find_best_assignee_room in Hbest as (Hin & Hr).
  pose proof (od_elem_get _ _ _ Hnd Hin) as Hget.
  cbn [fst snd]. split_and!.
  - by apply od_set_NoDup.
  - rewrite map_app. cbn [map s_story_points].
    rewrite qsum_snoc, remaining_total_set by done.
    rewrite remaining_after by done. lra.
  - right. by rewrite map_app.
Qed.

Lemma load_fold_spec stories st :
  (∀ s, s ∈ stories → 0 <= default 0 (story_points s)) →
  NoDup (od_keys st.1) →
  qsum (map s_story_points (fold_left load_story stories st).2)
  + remaining_total (fold_left load_story stories st).1
  == qsum (map s_story_points st.2) + remaining_total st.1 ∧
  ∃ added, map s_story_id (fold_left load_story stories st).2
           = map s_story_id st.2 ++ added ∧
           added `sublist_of` map story_key stories.
Proof.
  revert st. induction stories as [|s stories IH]; intros st Hp Hnd; simpl.
  { split; [done |]. exists []. by rewrite app_nil_r. }
  destruct (load_story_spec st s) as (Hnd' & Hsum & Hids);
    [apply Hp; left | done |].
  destruct (IH (load_story st s)) as (Hsum' & added & Hadded & Hsub);
    [intros s' Hs'; apply Hp; by right | done |].
  split; [by rewrite Hsum' |].
  destruct Hids as [Hids|Hids]; rewrite Hids in Hadded.
  - exists added. split; [done |]. by apply sublist_cons.
  - exists (story_key s :: added). rewrite <-app_assoc in Hadded.
    split; [done |]. by apply sublist_skip.
Qed.

(** X28: When no selected story has negative points,
    [calculate_sprint_load] hands out no more points than the members
    of the team, each counted once under its key, have left; and its
    entries are for selected stories, at most one for each, in the
    order of the selection. *)
Theorem sprint_load_within_capacity (stories : list story)
    (team_members : list member) :
  (∀ s, s ∈ stories → 0 <= default 0 (story_points s)) →
  qsum (map s_story_points (calculate_sprint_load stories team_members))
  <= remaining_total (member_states team_members) ∧
  map s_story_id (calculate_sprint_load stories team_members)
  `sublist_of` map story_key stories.
Proof.
  intros Hp. unfold calculate_sprint_load.
  destruct (load_fold_spec stories (member_states team_members, []) Hp)
    as (Hsum & added & Hadded & Hsub).
  { simpl. unfold member_states.
    generalize team_members at 1. intros keys.
    assert (NoDup (od_keys ([] : odict member))) as Hnil by constructor.
    revert Hnil. generalize ([] : odict member).
    induction team_members as [|m l IH]; intros d Hd; simpl; [done |].
    by apply IH, od_set_NoDup. }
  simpl in Hsum, Hadded. split.
  - pose proof (remaining_total_nonneg
                  (fold_left load_story stories
                     (member_states team_members, [])).1).
    lra.
  - by rewrite Hadded.
Qed.

(** A member with five points left. *)
Definition free_member : member :=
  {| user_id := Some "u1"%string; m_id := None; name := Some "Ann"%string;
     full_name := None; skills := []; capacity := Some 5;
     current_workload := Some 0; on_vacation := false |}.

Lemma sprint_load_within_capacity_witness :
  qsum (map s_story_points
          (calculate_sprint_load [one_point_story] [free_member]))
  <= remaining_total (member_states [free_member]) ∧
  map s_story_id (calculate_sprint_load [one_point_story] [free_member])
  `sublist_of` map story_key [one_point_story].
Proof.
  apply (sprint_load_within_capacity [one_point_story] [free_member]).
  intros s ->%list_elem_of_singleton. by vm_compute.
Defined.

End SprintPlannerFacts.

(** * The critical path and the full report *)

Module CriticalPathFacts.
Import DependencyAnalyzer DependencyAnalyzerSpec DependencyAnalyzerFacts.
Local Open Scope nat_scope.

(** Every entry of [l] but the last is in relation [R] with the one
    after it. *)
Definition chain_of (R : relation string) (l : list string) : Prop :=
  ∀ i a b, l !! i = Some a → l !! S i = Some b → R a b.

Lemma chain_of_snoc R l x :
  chain_of R (l ++ [x]) ↔ chain_of R l ∧ ∀ p, last l = Some p → R p x.
Proof.
  split.
  - intros Hc. split.
    + intros i a b Ha Hb. apply (Hc i); by apply lookup_app_l_Some.
    + intros p Hp. rewrite last_lookup in Hp.
      pose proof (lookup_lt_Some _ _ _ Hp) as Hlt.
      apply (Hc (pred (length l))); [by apply lookup_app_l_Some |].
      apply lookup_snoc_Some. right. split; [lia | done].
  - intros [Hc Hlast] i a b Ha Hb.
    apply lookup_snoc_Some in Hb as [[Hlt Hb]|[Hi <-]].
    + apply lookup_snoc_Some in Ha as [[_ Ha]|[Hi _]]; [by apply (Hc i) | lia].
    + apply lookup_snoc_Some in Ha as [[_ Ha]|[Hi' _]]; [|lia].
      apply Hlast. rewrite last_lookup.
      by replace (pred (length l)) with i by lia.
Qed.

Lemma chain_of_nil R : chain_of R [].
Proof. intros i a b Ha. done. Qed.

Lemma od_get_is_Some {V} k (d : odict V) :
  k ∈ od_keys d → is_Some (od_get k d).
Proof.
  unfold od_keys. induction d as [|[k0 v0] d IH]; simpl; [by inversion 1 |].
  intros Hk. case_decide; [by eexists |].
  apply elem_of_cons in Hk as [?|Hk]; [done | auto].
Qed.

(** ** Distances *)

Section distance_facts.
Local Open Scope Q_scope.

Lemma dist_lt_irrefl v : dist_lt v v = false.
Proof.
  destruct v as [x|]; simpl; [|done].
  unfold Qlt_bool. apply negb_false_iff, Qle_bool_iff, Qle_refl.
Qed.

Lemma dist_lt_le_trans a b c :
  dist_lt a b = true → dist_lt c b = false → dist_lt c a = false.
Proof.
  destruct a as [x|], b as [y|], c as [z|]; simpl; try done.
  intros Hxy%Qlt_bool_true Hzy%Qlt_bool_false.
  unfold Qlt_bool. apply negb_false_iff, Qle_bool_iff. lra.
Qed.

Lemma dist_le_trans a b c :
  dist_lt a b = false → dist_lt c a = false → dist_lt c b = false.
Proof.
  destruct a as [x|], b as [y|], c as [z|]; simpl; try done.
  intros Hxy%Qlt_bool_false Hzx%Qlt_bool_false.
  unfold Qlt_bool. apply negb_false_iff, Qle_bool_iff. lra.
Qed.

(** [max] returns a key of the dict, and no distance is above the one
    stored under it. *)
Lemma max_distance_spec (d : odict (option Q)) best :
  best ≠ None ∨ d ≠ [] →
  ∃ k v, max_distance d best = Some k ∧
         ((k, v) ∈ d ∨ best = Some (k, v)) ∧
         ∀ k' v', (k', v') ∈ d ∨ best = Some (k', v') → dist_lt v v' = false.
Proof.
  revert best. induction d as [|[k0 v0] d IH]; intros best Hne.
  - destruct best as [[kb vb]|]; [|by destruct Hne].
    exists kb, vb. split_and!; [done | by right |].
    intros k' v' [Hin|[= <- <-]]; [by inversion Hin |].
    apply dist_lt_irrefl.
  - simpl. destruct best as [[kb vb]|].
    + destruct (dist_lt vb v0) eqn:Hlt.
      * destruct (IH (Some (k0, v0))) as (k & v & Hmax & Hin & Hle);
          [by left |].
        exists k, v. split_and!; [done | |].
        { destruct Hin as [Hin|[= <- <-]]; left; [by right | left]. }
        intros k' v' [[[= -> ->]|Hin']%elem_of_cons|[= <- <-]].
        -- apply (Hle k0). by right.
        -- apply (Hle k'). by left.
        -- eapply dist_lt_le_trans; [exact Hlt |]. apply (Hle k0). by right.
      * destruct (IH (Some (kb, vb))) as (k & v & Hmax & Hin & Hle);
          [by left |].
        exists k, v. split_and!; [done | |].
        { destruct Hin as [Hin|Hin]; [left; by right | by right]. }
        intros k' v' [[[= -> ->]|Hin']%elem_of_cons|[= <- <-]].
        -- eapply dist_le_trans; [exact Hlt |]. apply (Hle kb). by right.
        -- apply (Hle k'). by left.
        -- apply (Hle kb). by right.
    + destruct (IH (Some (k0, v0))) as (k & v & Hmax & Hin & Hle);
        [by left |].
      exists k, v. split_and!; [done | |].
      { destruct Hin as [Hin|[= <- <-]]; left; [by right | left]. }
      intros k' v' [[[= -> ->]|Hin']%elem_of_cons|?]; [| |done].
      -- apply (Hle k0). by right.
      -- apply (Hle k'). by left.
Qed.

Lemma total_snoc (duration : string → Q) l x :
  qsum (map duration (l ++ [x])) == qsum (map duration l) + duration x.
Proof.
  induction l as [|y l IH]; simpl; [lra |]. rewrite IH. lra.
Qed.
End distance_facts.

(** ** The relaxation loop *)

Section relaxation.
Local Open Scope Q_scope.
Variable duration : string → Q.
Variable ts : list task.
Local Abbreviation K := (od_keys (tasks_by_id ts)).
Local Abbreviation g := (_build_graph ts).

(** What holds of the distances and the predecessors once the tasks of
    [done] have been taken and the edges of [relaxed] examined. *)
Record cp_inv (done : list string) (relaxed : relation string)
    (st : cp_state) : Prop := {
  cp_keys : od_keys (distances st) = K;
  cp_dom : ∀ n, n ∈ K → is_Some (predecessors st !! n);
  cp_done : ∀ n, n ∈ done → ∃ d, od_get n (distances st) = Some (Some d);
  cp_root : ∀ n, n ∈ K → predecessors st !! n = Some None →
    od_get n (distances st)
    = if decide (n ∈ done) then Some (Some (duration n)) else Some None;
  cp_pred : ∀ n p, predecessors st !! n = Some (Some p) →
    p ∈ done ∧ gedge g p n ∧
    ∃ dp, od_get p (distances st) = Some (Some dp) ∧
          od_get n (distances st) = Some (Some (dp + duration n));
  cp_edge : ∀ p n, relaxed p n →
    ∃ dp d, od_get p (distances st) = Some (Some dp) ∧
            od_get n (distances st) = Some (Some d) ∧
            dp + duration n <= d;
  cp_lower : (∀ k, k ∈ K → 0 <= duration k) →
    ∀ n d, od_get n (distances st) = Some (Some d) → duration n <= d;
}.

(** The edges examined when the tasks of [done] have been taken and the
    loop over the neighbors of [node] has passed those of [seen]. *)
Definition relaxed_by (done : list string) (node : string)
    (seen : list string) : relation string :=
  λ p n, (p ∈ done ∧ gedge g p n) ∨ (p = node ∧ n ∈ seen).

Lemma cp_inv_impl done (R R' : relation string) st :
  (∀ p n, R' p n → R p n) → cp_inv done R st → cp_inv done R' st.
Proof. intros HR [? ? ? ? ? Hedge ?]. split; auto. Qed.

Lemma cp_inv_update done node seen nb st v dn :
  nb ∈ K → nb ∉ done ++ [node] → gedge g node nb →
  cp_inv (done ++ [node]) (relaxed_by done node seen) st →
  od_get nb (distances st) = Some v →
  od_get node (distances st) = Some (Some dn) →
  dist_lt v (Some (dn + duration nb)) = true →
  cp_inv (done ++ [node]) (relaxed_by done node (seen ++ [nb]))
    {| distances := od_set nb (Some (dn + duration nb)) (distances st);
       predecessors := <[nb := Some node]> (predecessors st) |}.
Proof.
  intros HnbK Hlater Hedge [Hkeys Hdom Hdone Hroot Hpred Hrel Hlower] Hv Hdn Hlt.
  assert (node ≠ nb) as Hne by (intros ->; set_solver).
  assert (node ∈ K) as HnodeK.
  { rewrite <-Hkeys. by eapply od_get_Some_key. }
  split; simpl.
  - rewrite od_keys_set, decide_True; [done | by rewrite Hkeys].
  - intros n Hn. apply lookup_insert_is_Some.
    destruct (decide (nb = n)); [by left | right; auto].
  - intros n Hn. rewrite od_get_set, decide_False; [auto |].
    intros ->. done.
  - intros n Hn. rewrite lookup_insert. case_decide as Hnb; [done |].
    intros Hnone. rewrite od_get_set, decide_False by done. auto.
  - intros n p. rewrite lookup_insert. case_decide as Hnb.
    + intros [= <-]. subst n. split_and!; [set_solver | done |].
      exists dn. rewrite !od_get_set, decide_False, decide_True by done.
      done.
    + intros Hp. destruct (Hpred n p Hp) as (Hin & Hg & dp & Hdp & Hd).
      split_and!; [done.. |]. exists dp.
      rewrite !od_get_set, decide_False, decide_False; [done | done |].
      intros ->. done.
  - assert (∀ p n, relaxed_by done node seen p n →
              ∃ dp d, od_get p (od_set nb (Some (dn + duration nb))
                                  (distances st)) = Some (Some dp) ∧
                      od_get n (od_set nb (Some (dn + duration nb))
                                  (distances st)) = Some (Some d) ∧
                      dp + duration n <= d) as Hold.
    { intros p n Hpn.
      assert (p ≠ nb) as Hp.
      { intros ->. destruct Hpn as [[? _]|[? _]]; set_solver. }
      destruct (Hrel p n Hpn) as (dp & d & Hdp & Hd & Hle).
      rewrite !od_get_set, (decide_False (P := p = nb)) by done.
      case_decide as Hn.
      - subst n. rewrite Hv in Hd. injection Hd as ->.
        simpl in Hlt. apply Qlt_bool_true in Hlt.
        exists dp, (dn + duration nb). split_and!; [done.. |]. lra.
      - by exists dp, d. }
    intros p n [Hpn|[Hp [Hn|Hn%list_elem_of_singleton]%elem_of_app]]; subst.
    + apply Hold. by left.
    + apply Hold. by right.
    + exists dn, (dn + duration nb).
      rewrite !od_get_set, decide_False, decide_True by done.
      split_and!; [done.. |]. lra.
  - intros Hnonneg n d. rewrite od_get_set. case_decide as Hn.
    + intros [= <-]. subst n.
      pose proof (Hlower Hnonneg node dn Hdn).
      pose proof (Hnonneg node HnodeK). lra.
    + by apply Hlower.
Qed.

Lemma cp_inv_keep done node seen nb st v dn :
  cp_inv (done ++ [node]) (relaxed_by done node seen) st →
  od_get nb (distances st) = Some v →
  od_get node (distances st) = Some (Some dn) →
  dist_lt v (Some (dn + duration nb)) = false →
  cp_inv (done ++ [node]) (relaxed_by done node (seen ++ [nb])) st.
Proof.
  intros [Hkeys Hdom Hdone Hroot Hpred Hrel Hlower] Hv Hdn Hlt.
  split; try done.
  intros p n [Hpn|[Hp [Hn|Hn%list_elem_of_singleton]%elem_of_app]]; subst.
  - apply Hrel. by left.
  - apply Hrel. by right.
  - destruct v as [d|]; [|done]. simpl in Hlt.
    apply Qlt_bool_false in Hlt. by exists dn, d.
Qed.

(** The dicts that [critical_path] starts from. *)
Lemma cp_inv_initial :
  cp_inv [] (λ p n, p ∈ [] ∧ gedge g p n)
    {| distances := map (λ k, (k, None)) K;
       predecessors := list_to_map (map (λ k, (k, None)) K) |}.
Proof.
  assert (∀ (l : list string) n (v : option Q),
            od_get n (map (λ k, (k, None)) l) = Some v → v = None) as Hget.
  { intros l n v. induction l as [|k l IH]; simpl; [done |].
    case_decide; [by intros [= <-] | done]. }
  split; simpl.
  - unfold od_keys. rewrite map_map. simpl. apply map_id.
  - intros n Hn.
    destruct (list_to_map (map (λ k, (k, @None string)) K) !! n) eqn:Hl;
      [by eexists |].
    apply not_elem_of_list_to_map_2 in Hl. exfalso. apply Hl.
    rewrite <-list_fmap_compose. simpl.
    by rewrite list_fmap_id.
  - intros n Hn. by inversion Hn.
  - intros n Hn _.
    destruct (od_get_is_Some n (map (λ k, (k, @None Q)) K)) as [v Hv].
    { unfold od_keys. rewrite map_map. simpl. by rewrite map_id. }
    rewrite Hv. f_equal. by eapply Hget.
  - intros n p Hp. apply elem_of_list_to_map_2 in Hp.
    apply list_elem_of_In, in_map_iff in Hp as (k & [= _ ?] & _).
  - intros p n [Hp _]. by inversion Hp.
  - intros _ n d Hd. by apply Hget in Hd.
Qed.
(** The order in which the loop takes the tasks: a topological one. *)
Variable order : list string.
Hypothesis order_nodup : NoDup order.
Hypothesis order_keys : ∀ v, v ∈ order → v ∈ K.
Hypothesis order_topo : ∀ A B, gedge g A B →
  ∃ i j, index_of A order = Some i ∧ index_of B order = Some j ∧ (i < j)%nat.

(** A neighbor of a task comes after it in the order. *)
Lemma neighbor_later done node rest nb :
  order = done ++ node :: rest → gedge g node nb →
  nb ∈ K ∧ nb ∉ done ++ [node].
Proof using order_nodup order_keys order_topo.
  intros Horder Hedge.
  destruct (order_topo _ _ Hedge) as (i & j & Hi & Hj & Hij).
  split; [by eapply order_keys, index_of_elem |].
  intros Hin.
  assert (node ∉ done) as Hnode.
  { rewrite Horder in order_nodup.
    apply NoDup_app in order_nodup as (_ & Hd & _).
    intros Hn. apply (Hd _ Hn). left. }
  rewrite Horder, index_of_app_r in Hi by done.
  simpl in Hi. rewrite decide_True in Hi by done. simpl in Hi.
  injection Hi as <-.
  rewrite Horder, (cons_middle node), app_assoc, index_of_app_l in Hj by done.
  apply index_of_lt in Hj. rewrite length_app in Hj. simpl in Hj. lia.
Qed.

Lemma cp_neighbors_spec done node rest seen nbs st :
  order = done ++ node :: rest →
  (∀ nb, nb ∈ nbs → gedge g node nb) →
  cp_inv (done ++ [node]) (relaxed_by done node seen) st →
  ∃ st', cp_neighbors duration (init ts) node nbs st = Ok st' ∧
         cp_inv (done ++ [node]) (relaxed_by done node (seen ++ nbs)) st'.
Proof using order_nodup order_keys order_topo.
  intros Horder. revert seen st.
  induction nbs as [|nb nbs IH]; intros seen st Hnbs Hinv.
  { exists st. split; [done |]. by rewrite app_nil_r. }
  assert (gedge g node nb) as Hedge by (apply Hnbs; left).
  destruct (neighbor_later _ _ _ _ Horder Hedge) as [HnbK Hlater].
  simpl. change (tasks (init ts)) with (tasks_by_id ts).
  destruct (od_get_is_Some nb (tasks_by_id ts) HnbK) as [t ->].
  destruct (od_get_is_Some nb (distances st)) as [v Hv].
  { by rewrite (cp_keys _ _ _ Hinv). }
  destruct (cp_done _ _ _ Hinv node) as [dn Hdn]; [set_solver |].
  rewrite Hv, Hdn. simpl.
  destruct (dist_lt v (Some (dn + duration nb))) eqn:Hlt.
  - destruct (IH (seen ++ [nb])
                {| distances :=
                     od_set nb (Some (dn + duration nb)) (distances st);
                   predecessors := <[nb := Some node]> (predecessors st) |})
      as (st' & Hst' & Hinv'); [set_solver | by eapply cp_inv_update |].
    exists st'. split; [done |]. by rewrite <-app_assoc in Hinv'.
  - destruct (IH (seen ++ [nb]) st) as (st' & Hst' & Hinv');
      [set_solver | by eapply cp_inv_keep |].
    exists st'. split; [done |]. by rewrite <-app_assoc in Hinv'.
Qed.

(** Taking [node]: its distance is set when no edge has reached it. *)
Lemma cp_inv_enter done node rest st :
  order = done ++ node :: rest →
  cp_inv done (λ p n, p ∈ done ∧ gedge g p n) st →
  ∃ st1,
    (v ← od_get node (distances st);
     Some match v with
          | Some _ => st
          | None =>
              {| distances :=
                   od_set node (Some (duration node)) (distances st);
                 predecessors := predecessors st |}
          end) = Some st1 ∧
    cp_inv (done ++ [node]) (relaxed_by done node []) st1.
Proof using order_nodup order_keys order_topo.
  intros Horder [Hkeys Hdom Hdone Hroot Hpred Hrel Hlower].
  assert (node ∉ done) as Hnode.
  { rewrite Horder in order_nodup.
    apply NoDup_app in order_nodup as (_ & Hd & _).
    intros Hn. apply (Hd _ Hn). left. }
  assert (node ∈ K) as HnodeK.
  { apply order_keys. rewrite Horder. set_solver. }
  destruct (od_get_is_Some node (distances st)) as [v Hv];
    [by rewrite Hkeys |].
  rewrite Hv. simpl. eexists. split; [done |].
  assert (∀ n, n ≠ node →
            (if decide (n ∈ done ++ [node])
             then Some (Some (duration n)) else Some None)
            = (if decide (n ∈ done)
               then Some (Some (duration n)) else @Some (option Q) None))
    as Hdec.
  { intros n Hn. repeat case_decide; set_solver. }
  destruct v as [d|].
  - split; try done.
    + intros n [Hn| ->%list_elem_of_singleton]%elem_of_app; eauto.
    + intros n Hn Hnone. destruct (decide (n = node)) as [->|Hne].
      * specialize (Hroot node Hn Hnone). rewrite decide_False in Hroot by done.
        congruence.
      * rewrite Hdec by done. auto.
    + intros n p Hp. destruct (Hpred n p Hp) as (? & ? & ?).
      split_and!; [set_solver | done..].
    + intros p n [Hpn|[_ Hn]]; [auto | by inversion Hn].
  - assert (∀ n d, od_get n (distances st) = Some (Some d) → n ≠ node)
      as Hother by (intros n d Hd ->; congruence).
    split; simpl.
    + rewrite od_keys_set, decide_True; [done | by rewrite Hkeys].
    + done.
    + intros n [Hn| ->%list_elem_of_singleton]%elem_of_app.
      * destruct (Hdone n Hn) as [d Hd]. exists d.
        rewrite od_get_set, decide_False; [done | by eapply Hother].
      * exists (duration node). by rewrite od_get_set, decide_True.
    + intros n Hn Hnone. rewrite od_get_set. case_decide as Hne.
      * subst n. rewrite decide_True; [done | set_solver].
      * rewrite Hdec by done. auto.
    + intros n p Hp. destruct (Hpred n p Hp) as (Hin & Hg & dp & Hdp & Hd).
      split_and!; [set_solver | done |]. exists dp.
      rewrite !od_get_set, !decide_False; [done | by eapply Hother..].
    + intros p n [Hpn|[_ Hn]]; [|by inversion Hn].
      destruct (Hrel p n Hpn) as (dp & d & Hdp & Hd & Hle).
      exists dp, d.
      rewrite !od_get_set, !decide_False; [done | by eapply Hother..].
    + intros Hnonneg n d. rewrite od_get_set. case_decide.
      * intros [= <-]. subst n. lra.
      * by apply Hlower.
Qed.

Lemma cp_loop_spec done rest st :
  order = done ++ rest →
  cp_inv done (λ p n, p ∈ done ∧ gedge g p n) st →
  ∃ st', cp_loop duration (init ts) rest st = Ok st' ∧
         cp_inv order (λ p n, p ∈ order ∧ gedge g p n) st'.
Proof using order_nodup order_keys order_topo.
  revert done st. induction rest as [|node rest IH]; intros done st Horder Hinv.
  { exists st. split; [done |]. rewrite Horder, app_nil_r. done. }
  destruct (cp_inv_enter _ _ _ _ Horder Hinv) as (st1 & Hst1 & Hinv1).
  assert (node ∈ K) as HnodeK.
  { apply order_keys. rewrite Horder. set_solver. }
  destruct (cp_neighbors_spec done node rest [] (neighbors g node) st1)
    as (st2 & Hst2 & Hinv2); [done | done | done |].
  destruct (IH (done ++ [node]) st2) as (st' & Hst' & Hinv').
  { by rewrite <-app_assoc. }
  { eapply cp_inv_impl; [|exact Hinv2].
    intros p n [[Hp| ->%list_elem_of_singleton]%elem_of_app Hg].
    - by left.
    - right. done. }
  exists st'. split; [|done].
  simpl. change (tasks (init ts)) with (tasks_by_id ts).
  change (graph (init ts)) with g.
  destruct (od_get node (distances st)) as [v|] eqn:Hv; [|done].
  destruct (od_get_is_Some node (tasks_by_id ts) HnodeK) as [t ->].
  simpl in Hst1. injection Hst1 as <-.
  destruct v as [d|]; cbn [mbind pyresult_bind]; by rewrite Hst2.
Qed.

End relaxation.

(** ** The path read off the predecessors *)

Section path.
Local Open Scope Q_scope.
Variable duration : string → Q.
Variable ts : list task.
Local Abbreviation K := (od_keys (tasks_by_id ts)).
Local Abbreviation g := (_build_graph ts).
Variable order : list string.
Hypothesis order_full : ∀ v, v ∈ K → v ∈ order.
Hypothesis order_topo : ∀ A B, gedge g A B →
  ∃ i j, index_of A order = Some i ∧ index_of B order = Some j ∧ (i < j)%nat.
Variable st : cp_state.
Hypothesis st_inv :
  cp_inv duration ts order (λ p n, p ∈ order ∧ gedge g p n) st.

Definition total_duration (l : list string) : Q := qsum (map duration l).

(** The last loop, started at [n], stops; what it appends is, read
    backwards, a chain of edges that ends at [n], and when no id is the
    empty string its total duration is the distance of [n]. *)
Lemma cp_path_spec fuel n i acc :
  n ∈ K → index_of n order = Some i → (i < fuel)%nat →
  ∃ l, cp_path fuel (predecessors st) (Some n) acc = Some (Ok (acc ++ l)) ∧
       (∀ x, x ∈ l → x ∈ K) ∧
       chain_of (gedge g) (rev l) ∧
       (∀ x, last (rev l) = Some x → x = n) ∧
       ((∀ k, k ∈ K → k ≠ EmptyString) →
        last (rev l) = Some n ∧
        ∃ d, od_get n (distances st) = Some (Some d) ∧
             d == total_duration (rev l)).
Proof using order_full order_topo st_inv.
  revert n i acc. induction fuel as [|fuel IH]; intros n i acc HnK Hi Hfuel;
    [lia |].
  simpl. destruct (String.eqb n "") eqn:Hempty.
  { exists []. rewrite app_nil_r. split_and!; [done | by inversion 1 | | done |].
    - apply chain_of_nil.
    - intros Hne. apply String.eqb_eq in Hempty. by apply Hne in HnK. }
  destruct (cp_dom _ _ _ _ _ st_inv n HnK) as [[p|] Hp]; rewrite Hp.
  - destruct (cp_pred _ _ _ _ _ st_inv n p Hp) as (Hpo & Hg & dp & Hdp & Hdn).
    destruct (order_topo _ _ Hg) as (i' & j & Hi' & Hj & Hlt).
    rewrite Hi in Hj. injection Hj as <-.
    assert (p ∈ K) as HpK.
    { rewrite <-(cp_keys _ _ _ _ _ st_inv). by eapply od_get_Some_key. }
    destruct (IH p i' (acc ++ [n]) HpK Hi') as (l & Hl & HlK & Hchain & Hlast & Hsum);
      [lia |].
    exists (n :: l). rewrite Hl, <-app_assoc. simpl.
    split_and!; [done | | | |].
    + intros x [->|Hx]%elem_of_cons; auto.
    + apply chain_of_snoc. split; [done |].
      intros q Hq. by rewrite (Hlast q Hq).
    + intros x. rewrite last_snoc. by intros [= <-].
    + intros Hne. split; [by rewrite last_snoc |].
      destruct (Hsum Hne) as (_ & d & Hd & Hdsum).
      rewrite Hdp in Hd. injection Hd as <-.
      exists (dp + duration n). split; [done |].
      unfold total_duration in *. by rewrite total_snoc, Hdsum.
  - exists [n]. simpl.
    assert (cp_path fuel (predecessors st) None (acc ++ [n])
            = Some (Ok (acc ++ [n]))) as -> by (by destruct fuel).
    split_and!; [done | | | |].
    + intros x ->%list_elem_of_singleton. done.
    + intros [|k] a b Ha Hb; done.
    + by intros x [= <-].
    + intros _. split; [done |].
      pose proof (cp_root _ _ _ _ _ st_inv n HnK Hp) as Hroot.
      rewrite decide_True in Hroot by auto.
      exists (duration n). split; [done |].
      unfold total_duration. simpl. lra.
Qed.

(** No chain of edges between tasks lasts longer than the distance of
    its last task, when no duration is negative. *)
Lemma chain_bound c n :
  (∀ k, k ∈ K → 0 <= duration k) →
  (∀ x, x ∈ c ++ [n] → x ∈ K) → chain_of (gedge g) (c ++ [n]) →
  ∃ d, od_get n (distances st) = Some (Some d) ∧
       total_duration (c ++ [n]) <= d.
Proof using order_full order_topo st_inv.
  intros Hnonneg. revert n.
  induction c as [|p c IH] using rev_ind; intros n HK Hchain.
  - destruct (cp_done _ _ _ _ _ st_inv n) as [d Hd].
    { apply order_full, HK. left. }
    exists d. split; [done |].
    pose proof (cp_lower _ _ _ _ _ st_inv Hnonneg n d Hd).
    unfold total_duration. simpl. lra.
  - apply chain_of_snoc in Hchain as [Hchain Hlast].
    destruct (IH p) as (dp & Hdp & Hle); [set_solver | done |].
    assert (gedge g p n) as Hg by (apply Hlast; by rewrite last_snoc).
    destruct (cp_edge _ _ _ _ _ st_inv p n) as (dp' & d & Hdp' & Hd & Hle').
    { split; [|done]. apply order_full, HK. set_solver. }
    rewrite Hdp in Hdp'. injection Hdp' as <-.
    exists d. split; [done |].
    unfold total_duration in *. rewrite total_snoc. lra.
Qed.
End path.

(** ** critical_path and analyze on a fresh analyzer *)

Lemma chain_of_impl (R R' : relation string) l :
  (∀ a b, R a b → R' a b) → chain_of R l → chain_of R' l.
Proof. intros HR Hc i a b Ha Hb. eapply HR, Hc; eauto. Qed.

Lemma topological_sort_cases (ts : list task) :
  (topological_sort (init ts)
   = Some (Raise (ValueError "Cycle detected in dependencies")) ∧
   ¬ (acyclic ts ∧ dependencies_listed ts)) ∨
  (∃ order m,
     topological_sort (init ts) = Some (Ok order) ∧
     kahn_inv ts [] m [] order ∧
     length order = length (od_keys (tasks_by_id ts)) ∧
     (∀ v, v ∈ od_keys (tasks_by_id ts) → v ∈ order) ∧
     acyclic ts ∧ dependencies_listed ts).
Proof.
  destruct (kahn_loop_init ts) as (order & m & Hloop & Hinv).
  unfold topological_sort.
  change (tasks (init ts)) with (tasks_by_id ts).
  change (graph (init ts)) with (_build_graph ts).
  rewrite Hloop, length_tasks_keys.
  destruct (decide (length order ≠ length (od_keys (tasks_by_id ts))))
    as [Hne|Heq].
  - left. split; [done |]. intros [Hacyc Hlisted]. apply Hne.
    apply Permutation_length, NoDup_Permutation.
    + destruct Hinv as [_ Hnd _ _ _]. by rewrite app_nil_r in Hnd.
    + apply tasks_keys_NoDup.
    + intros x. split; [|by eapply kahn_complete].
      destruct Hinv as [_ _ _ Hkeys _]. intros Hx. apply Hkeys.
      by rewrite app_nil_r.
  - apply dec_stable in Heq. right.
    pose proof (kahn_full_order ts m order Hinv Heq) as Hall.
    exists order, m. split_and!; [done.. | |].
    + by eapply full_order_acyclic.
    + by eapply full_order_listed.
Qed.

Lemma tasks_first_key (ts : list task) (d : odict task) k rest :
  od_keys d = k :: rest →
  ∃ rest', od_keys (fold_left (λ d t, od_set (task_id t) t d) ts d)
           = k :: rest'.
Proof.
  revert d rest. induction ts as [|t ts IH]; intros d rest Hd; simpl; [eauto |].
  destruct (decide (task_id t ∈ od_keys d)) as [Hin|Hin].
  - apply (IH _ rest). by rewrite od_keys_set, decide_True.
  - apply (IH _ (rest ++ [task_id t])).
    by rewrite od_keys_set, decide_False, Hd.
Qed.

Lemma tasks_keys_cons t ts :
  ∃ rest, od_keys (tasks_by_id (t :: ts)) = task_id t :: rest.
Proof. unfold tasks_by_id. simpl. by eapply tasks_first_key. Qed.

Section fresh.
Local Open Scope Q_scope.
Variable duration : string → Q.
Variable ts : list task.
Local Abbreviation K := (od_keys (tasks_by_id ts)).

(** What [critical_path] returns on an acyclic task list that lists its
    dependencies and is not empty. *)
Lemma critical_path_ok :
  acyclic ts → dependencies_listed ts → ts ≠ [] →
  ∃ path,
    critical_path duration (init ts) = Some (Ok path) ∧
    (∀ x, x ∈ path → x ∈ K) ∧
    chain_of (depends_on ts) path ∧
    ((∀ k, k ∈ K → k ≠ EmptyString) →
     path ≠ [] ∧
     ((∀ k, k ∈ K → 0 <= duration k) →
      ∀ c, (∀ x, x ∈ c → x ∈ K) → chain_of (depends_on ts) c →
           total_duration duration c <= total_duration duration path)).
Proof.
  intros Hacyc Hlisted Hts.
  destruct (topological_sort_cases ts)
    as [[_ Hnot]|(order & m & Htopo & Hinv & Hlen & Hfull & _)];
    [exfalso; by apply Hnot |].
  assert (NoDup order) as Hnd.
  { destruct Hinv as [_ Hnd _ _ _]. by rewrite app_nil_r in Hnd. }
  assert (∀ v, v ∈ order → v ∈ K) as Hkeys.
  { destruct Hinv as [_ _ _ Hkeys _]. intros v Hv. apply Hkeys.
    by rewrite app_nil_r. }
  assert (∀ A B, gedge (_build_graph ts) A B →
            ∃ i j, index_of A order = Some i ∧ index_of B order = Some j ∧
                   (i < j)%nat) as Hbefore.
  { intros A B HAB%gedge_build_graph.
    eapply kahn_inv_index; [done.. |].
    apply Hfull, elem_of_tasks_keys. destruct HAB as (t & ? & ? & _). eauto. }
  destruct (cp_loop_spec duration ts order Hnd Hkeys Hbefore [] order
              {| distances := map (λ k, (k, None)) K;
                 predecessors := list_to_map (map (λ k, (k, None)) K) |})
    as (st & Hloop & Hst); [done | apply cp_inv_initial |].
  assert (K ≠ []) as HK.
  { destruct ts as [|t ts']; [done |].
    destruct (tasks_keys_cons t ts') as [rest ->]. done. }
  pose proof (cp_keys _ _ _ _ _ Hst) as HDkeys.
  destruct (max_distance_spec (distances st) None)
    as (e & v & Hmax & [Hin|?] & Hle); [right | | done].
  { intros Hnil. rewrite Hnil in HDkeys. by apply HK. }
  assert (NoDup (od_keys (distances st))) as HDnd.
  { rewrite HDkeys. apply tasks_keys_NoDup. }
  pose proof (od_elem_get _ _ _ HDnd Hin) as He.
  assert (e ∈ K) as HeK.
  { rewrite <-HDkeys. by eapply od_get_Some_key. }
  destruct (index_of_Some e order (Hfull e HeK)) as [i Hi].
  pose proof (index_of_lt _ _ _ Hi) as Hilt.
  destruct (cp_path_spec duration ts order Hfull Hbefore st Hst
              (S (length K)) e i [] HeK Hi)
    as (l & Hl & HlK & Hchain & Hlast & Hsum); [lia |].
  exists (rev l). split_and!.
  - unfold critical_path. rewrite Htopo.
    change (tasks (init ts)) with (tasks_by_id ts).
    by rewrite Hloop, Hmax, Hl.
  - intros x Hx. apply HlK. by rewrite list_elem_of_In, in_rev, <-list_elem_of_In.
  - eapply chain_of_impl; [|exact Hchain].
    intros a b. by rewrite gedge_build_graph.
  - intros Hne. destruct (Hsum Hne) as (Hlast' & d & Hd & Hdsum).
    split; [intros Hnil; by rewrite Hnil in Hlast' |].
    intros Hnonneg c HcK Hc.
    rewrite He in Hd. injection Hd as ->.
    destruct c as [|n c _] using rev_ind.
    + pose proof (cp_lower _ _ _ _ _ Hst Hnonneg e d He).
      pose proof (Hnonneg e HeK).
      rewrite <-Hdsum. unfold total_duration. simpl. lra.
    + destruct (chain_bound duration ts order Hfull Hbefore st Hst c n Hnonneg HcK)
        as (dn & Hdn & Hbound).
      { eapply chain_of_impl; [|exact Hc].
        intros a b. by rewrite gedge_build_graph. }
      pose proof (Hle n (Some dn) (or_introl (od_get_elem _ _ _ Hdn))) as Hmaxle.
      simpl in Hmaxle. apply Qlt_bool_false in Hmaxle.
      rewrite <-Hdsum. lra.
Qed.

Lemma critical_path_empty :
  critical_path duration (init [])
  = Some (Raise (ValueError "max() arg is an empty sequence")).
Proof. reflexivity. Qed.
End fresh.

Lemma detect_cycles_answer (ts : list task) :
  ∃ b, detect_cycles (init ts) = Some b ∧
       (b = true ↔ ∃ x, tc (depends_on ts) x x).
Proof.
  unfold detect_cycles. simpl.
  destruct (detect_loop_complete (_build_graph ts)) as (b & Hb & Hfalse).
  exists b. split; [done |]. split.
  - intros ->.
    destruct (detect_loop_sound _ _ _ (DfsState ∅ ∅) eq_refl Hb) as [x Hx].
    exists x. by apply tc_gedge_build_graph.
  - intros [x Hx]. destruct b; [done |]. exfalso.
    apply (Hfalse eq_refl x). by apply tc_gedge_build_graph.
Qed.

Lemma parallel_execution_returns (ts : list task) :
  ∃ levels self',
    parallel_execution (init ts) = Some (levels, self') ∧
    tasks self' = tasks (init ts) ∧ graph self' = graph (init ts).
Proof.
  destruct (par_loop_total ts
              (length (od_keys (tasks_by_id ts)) + size (in_degree (init ts)))
              (ParState [] (in_degree (init ts))
                 (initial_queue (init ts) (in_degree (init ts)))) [])
    as (st' & order' & Hloop & Hinv);
    [apply kahn_inv_init | simpl; lia |].
  unfold parallel_execution.
  change (tasks (init ts)) with (tasks_by_id ts).
  change (graph (init ts)) with (_build_graph ts).
  rewrite Hloop. by eexists _, _.
Qed.

Definition cycle_error : string :=
  "Cycle detected; please resolve before scheduling".

(** The three ways [analyze] ends on a fresh analyzer. *)
Lemma analyze_cases (duration : string → Q) (ts : list task) :
  ((∃ x, tc (depends_on ts) x x) ∧
   analyze duration (init ts)
   = Some (inl (AnalysisError cycle_error), init ts)) ∨
  (acyclic ts ∧ (ts = [] ∨ ¬ dependencies_listed ts) ∧
   ∃ msg, analyze duration (init ts)
          = Some (inr (Raised (ValueError msg)), init ts)) ∨
  (acyclic ts ∧ dependencies_listed ts ∧
   ∃ t ts' order path levels impact self',
     ts = t :: ts' ∧
     analyze duration (init ts)
     = Some (inl (Analysis order path levels impact), self') ∧
     topological_sort (init ts) = Some (Ok order) ∧
     critical_path duration (init ts) = Some (Ok path) ∧
     parallel_execution (init ts) = Some (levels, self') ∧
     ∀ y, y ∈ impact ↔ tc (depends_on ts) (task_id t) y).
Proof.
  destruct (detect_cycles_answer ts) as (b & Hb & Hiff).
  unfold analyze. rewrite Hb. cbn [mbind option_bind].
  destruct b; [left; split; [by apply Hiff | done] | right].
  assert (acyclic ts) as Hacyc.
  { intros x Hx. assert (false = true) by (apply Hiff; eauto). done. }
  destruct (topological_sort_cases ts)
    as [[Htopo Hnot]|(order & m & Htopo & _ & _ & _ & _ & Hlisted)];
    rewrite Htopo; cbn [mbind option_bind].
  { left. split_and!; [done | right; tauto | by eexists]. }
  destruct ts as [|t ts'].
  { left. split_and!; [done | by left |]. by eexists. }
  right. split_and!; [done.. |].
  destruct (critical_path_ok duration (t :: ts') Hacyc Hlisted)
    as (path & Hpath & _); [done |].
  rewrite Hpath. cbn [mbind option_bind].
  destruct (parallel_execution_returns (t :: ts'))
    as (levels & self' & Hpar & Htasks & Hgraph).
  rewrite Hpar. cbn [mbind option_bind]. rewrite Htasks.
  change (tasks (init (t :: ts'))) with (tasks_by_id (t :: ts')).
  destruct (tasks_keys_cons t ts') as [rest ->].
  destruct (impact_dfs_reachable (_build_graph (t :: ts')) (task_id t))
    as (A & HA & HAiff).
  unfold impact_analysis. rewrite Hgraph.
  change (graph (init (t :: ts'))) with (_build_graph (t :: ts')).
  rewrite HA. cbn [mbind option_bind].
  exists t, ts', order, path, levels, A, self'.
  split_and!; [done.. |].
  intros y. by rewrite HAiff, tc_gedge_build_graph.
Qed.

(** X22: [critical_path] on a fresh analyzer raises exactly when the task
    list is empty, has a dependency cycle, or names a dependency that is
    not a listed task, and what it raises is a [ValueError]; on every
    other task list it returns a path. *)
Theorem critical_path_raises_iff (duration : string → Q) (ts : list task) :
  ∃ r, critical_path duration (init ts) = Some r ∧
       ((∃ e, r = Raise e) ↔
        ts = [] ∨ ¬ (acyclic ts ∧ dependencies_listed ts)) ∧
       ∀ e, r = Raise e → ∃ msg, e = ValueError msg.
Proof.
  destruct ts as [|t ts'].
  { eexists. split; [apply critical_path_empty |]. split.
    - split; [by left | by eexists].
    - intros e [= <-]. by eexists. }
  destruct (topological_sort_cases (t :: ts'))
    as [[Htopo Hnot]|(order & m & _ & _ & _ & _ & Hacyc & Hlisted)].
  - eexists. split; [unfold critical_path; by rewrite Htopo |]. split.
    + split; [by right | by eexists].
    + intros e [= <-]. by eexists.
  - destruct (critical_path_ok duration (t :: ts') Hacyc Hlisted)
      as (path & Hpath & _); [done |].
    exists (Ok path). split; [done |]. split; [|done].
    split; [by intros [e ?] |]. intros [?|Hnot]; [done |].
    exfalso. by apply Hnot.
Qed.

(** X23: On an acyclic, non-empty task list whose dependencies are all
    listed, [critical_path] returns ids of listed tasks in which each
    task is a direct dependency of the next one; the path is not empty
    when no task id is the empty string. *)
Theorem critical_path_is_chain (duration : string → Q) (ts : list task) :
  acyclic ts → dependencies_listed ts → ts ≠ [] →
  ∃ path,
    critical_path duration (init ts) = Some (Ok path) ∧
    (∀ x, x ∈ path → ∃ t, t ∈ ts ∧ task_id t = x) ∧
    chain_of (depends_on ts) path ∧
    ((∀ t, t ∈ ts → task_id t ≠ EmptyString) → path ≠ []).
Proof.
  intros Hacyc Hlisted Hts.
  destruct (critical_path_ok duration ts Hacyc Hlisted Hts)
    as (path & Hpath & HK & Hchain & Hrest).
  exists path. split_and!; [done | | done |].
  - intros x Hx. by apply elem_of_tasks_keys, HK.
  - intros Hne. apply Hrest.
    intros k (t & Ht & <-)%elem_of_tasks_keys. by apply Hne.
Qed.

(** On the layered task list, each task lasting one unit. *)
Lemma critical_path_is_chain_witness :
  ∃ path,
    critical_path (λ _, 1%Q) (init layered_tasks) = Some (Ok path) ∧
    (∀ x, x ∈ path → ∃ t, t ∈ layered_tasks ∧ task_id t = x) ∧
    chain_of (depends_on layered_tasks) path ∧
    ((∀ t, t ∈ layered_tasks → task_id t ≠ EmptyString) → path ≠ []).
Proof.
  refine (critical_path_is_chain (λ _, 1%Q) layered_tasks
            layered_tasks_acyclic layered_tasks_listed _).
  unfold layered_tasks. discriminate.
Defined.

(** X24: On such a task list in which no id is the empty string and no
    duration is negative, no chain of listed tasks, each a direct
    dependency of the next, has a greater total duration than the path
    that [critical_path] returns. *)
Theorem critical_path_longest (duration : string → Q) (ts : list task) :
  acyclic ts → dependencies_listed ts → ts ≠ [] →
  (∀ t, t ∈ ts → task_id t ≠ EmptyString) →
  (∀ t, t ∈ ts → (0 <= duration (task_id t))%Q) →
  ∃ path,
    critical_path duration (init ts) = Some (Ok path) ∧
    ∀ c, (∀ x, x ∈ c → ∃ t, t ∈ ts ∧ task_id t = x) →
         chain_of (depends_on ts) c →
         (total_duration duration c <= total_duration duration path)%Q.
Proof.
  intros Hacyc Hlisted Hts Hne Hnonneg.
  destruct (critical_path_ok duration ts Hacyc Hlisted Hts)
    as (path & Hpath & _ & _ & Hrest).
  exists path. split; [done |].
  destruct Hrest as [_ Hbound].
  { intros k (t & Ht & <-)%elem_of_tasks_keys. by apply Hne. }
  intros c Hc Hchain. apply Hbound; [| |done].
  - intros k (t & Ht & <-)%elem_of_tasks_keys. by apply Hnonneg.
  - intros x Hx. by apply elem_of_tasks_keys, Hc.
Qed.

Lemma layered_tasks_named t : t ∈ layered_tasks → task_id t ≠ EmptyString.
Proof.
  unfold layered_tasks. intros Ht.
  repeat (apply elem_of_cons in Ht as [->|Ht]); [done.. | by inversion Ht].
Qed.

(** On the layered task list, each task lasting one unit. *)
Lemma critical_path_longest_witness :
  ∃ path,
    critical_path (λ _, 1%Q) (init layered_tasks) = Some (Ok path) ∧
    ∀ c, (∀ x, x ∈ c → ∃ t, t ∈ layered_tasks ∧ task_id t = x) →
         chain_of (depends_on layered_tasks) c →
         (total_duration (λ _, 1%Q) c <= total_duration (λ _, 1%Q) path)%Q.
Proof.
  refine (critical_path_longest (λ _, 1%Q) layered_tasks
            layered_tasks_acyclic layered_tasks_listed _
            layered_tasks_named _).
  - unfold layered_tasks. discriminate.
  - intros t _. simpl. discriminate.
Defined.

(** X25: [analyze] on a fresh analyzer always ends, and leaves the analyzer
    as it was unless it returns a report.  It returns the error dict
    exactly when the task list has a dependency cycle; it raises exactly
    when the list has no cycle and is empty or names a dependency that
    is not a listed task, and what it raises is a [ValueError]. *)
Theorem analyze_errors (duration : string → Q) (ts : list task) :
  ∃ out self',
    analyze duration (init ts) = Some (out, self') ∧
    (out = inl (AnalysisError cycle_error) ↔ ∃ x, tc (depends_on ts) x x) ∧
    ((∃ r, out = inr r) ↔
     acyclic ts ∧ (ts = [] ∨ ¬ dependencies_listed ts)) ∧
    (∀ r, out = inr r → ∃ msg, r = Raised (ValueError msg)) ∧
    ((∀ order path levels impact,
        out ≠ inl (Analysis order path levels impact)) → self' = init ts).
Proof.
  destruct (analyze_cases duration ts)
    as [[Hcyc ->]|[(Hacyc & Hbad & msg & ->)
                  |(Hacyc & Hlisted & t & ts' & order & path & levels & impact
                    & self' & -> & -> & _)]];
    eexists _, _; (split; [done |]); split_and!.
  - done.
  - split; [by intros [r ?] |]. intros [Hacyc _].
    destruct Hcyc as [x Hx]. by apply Hacyc in Hx.
  - done.
  - done.
  - split; [done |]. intros [x Hx]. by apply Hacyc in Hx.
  - split; [done | by eexists].
  - intros r [= <-]. by eexists.
  - done.
  - split; [done |]. intros [x Hx]. by apply Hacyc in Hx.
  - split; [by intros [r ?] |]. intros [_ [?|Hnot]]; [done | by apply Hnot in Hlisted].
  - done.
  - intros Hnot. by destruct (Hnot order path levels impact).
Qed.

(** X26: On an acyclic, non-empty task list whose dependencies are all
    listed, [analyze] returns a report: its parts are what
    [topological_sort], [critical_path] and [parallel_execution] return
    on the fresh analyzer, and its impact analysis holds exactly the
    tasks that depend, directly or through other tasks, on the first
    listed task.  The analyzer is left as [parallel_execution] leaves
    it. *)
Theorem analyze_report (duration : string → Q) (t : task) (ts' : list task) :
  acyclic (t :: ts') → dependencies_listed (t :: ts') →
  ∃ order path levels impact self',
    analyze duration (init (t :: ts'))
    = Some (inl (Analysis order path levels impact), self') ∧
    topological_sort (init (t :: ts')) = Some (Ok order) ∧
    critical_path duration (init (t :: ts')) = Some (Ok path) ∧
    parallel_execution (init (t :: ts')) = Some (levels, self') ∧
    ∀ y, y ∈ impact ↔ tc (depends_on (t :: ts')) (task_id t) y.
Proof.
  intros Hacyc Hlisted.
  destruct (analyze_cases duration (t :: ts'))
    as [[[x Hx] _]|[(_ & [?|Hnot] & _)
                   |(_ & _ & t0 & ts0 & order & path & levels & impact
                     & self' & [= <- <-] & Hrest)]].
  - by apply Hacyc in Hx.
  - done.
  - by apply Hnot in Hlisted.
  - by exists order, path, levels, impact, self'.
Qed.

(** On the layered task list, each task lasting one unit. *)
Lemma analyze_report_witness :
  ∃ order path levels impact self',
    analyze (λ _, 1%Q) (init layered_tasks)
    = Some (inl (Analysis order path levels impact), self') ∧
    topological_sort (init layered_tasks) = Some (Ok order) ∧
    critical_path (λ _, 1%Q) (init layered_tasks) = Some (Ok path) ∧
    parallel_execution (init layered_tasks) = Some (levels, self') ∧
    ∀ y, y ∈ impact ↔ tc (depends_on layered_tasks) "b" y.
Proof.
  exact (analyze_report (λ _, 1%Q) (Task "b" ["a"%string])
           [Task "a" []; Task "c" ["a"; "b"]]%string
           layered_tasks_acyclic layered_tasks_listed).
Defined.

End CriticalPathFacts.
